(** * tickdb: a shallow embedding of [store/db.go] and [storage/node.go]

  The development follows the two source files.

  - [GoRuntime] holds the few pieces of the Go runtime and standard
    library the sources lean on: fixed-width integers with wrap-around,
    [sort.Search], the 64-bit FNV-1a hash and slices with a capacity.
  - [Store] embeds [store/db.go]: meta pages and their validation, the
    choice of the active meta page, the size of the memory map and the
    public [Put]/[Get] pair.
  - [Storage] embeds [storage/node.go]: the node tree, its binary
    encoding, insertion, [reduce] and [flush].

  Conventions.  A Go [uintN] or [intN] is a [Z] and every operation that
  can leave the range has its wrap-around written out.  A [float64] is a
  primitive binary64 [float].  A Go [map[string]T] is a [gmap string T].
  A run-time panic (index out of range, nil dereference, failed
  [_assert], division by zero) is an explicit outcome, never a default
  value. *)

From Stdlib Require Import ZArith List Bool Lia Floats.
From Stdlib Require Import Strings.String Strings.Ascii Strings.Byte.
From stdpp Require Import gmap strings list.

Local Open Scope Z_scope.

(* ===================================================================== *)
(** * Pieces of the Go runtime                                            *)
(* ===================================================================== *)

Module GoRuntime.

(** Outcome of a Go call: a result, a non-nil [error], a run-time panic,
    or [Spin] when the bound on loop turns or call depth that the model
    threads through was used up (the Go code would still be running). *)
Inductive res (E A : Type) : Type :=
| Ok (a : A)
| Err (e : E)
| Panic
| Spin.
Arguments Ok {E A} a.
Arguments Err {E A} e.
Arguments Panic {E A}.
Arguments Spin {E A}.

(** Sequencing, with stdpp's [x ← m; k] notation. *)
#[global] Instance res_bind {E : Type} : MBind (res E) :=
  fun A B (k : A -> res E B) (m : res E A) =>
    match m with
    | Ok a => k a
    | Err e => Err e
    | Panic => Panic
    | Spin => Spin
    end.

#[global] Instance res_fmap {E : Type} : FMap (res E) :=
  fun A B (f : A -> B) (m : res E A) =>
    match m with
    | Ok a => Ok (f a)
    | Err e => Err e
    | Panic => Panic
    | Spin => Spin
    end.

(** A [None] is a panic: an index or a slice bound out of range. *)
Definition must {E A : Type} (o : option A) : res E A :=
  match o with
  | Some a => Ok a
  | None => Panic
  end.

Definition wrapU (w : Z) (z : Z) : Z := z mod 2 ^ w.
Definition wrapS (w : Z) (z : Z) : Z := (z + 2 ^ (w - 1)) mod 2 ^ w - 2 ^ (w - 1).

Definition uint16 (z : Z) : Z := wrapU 16 z.
Definition uint64 (z : Z) : Z := wrapU 64 z.
Definition int64 (z : Z) : Z := wrapS 64 z.

(** [sort.Search(n, f)]: the loop of the standard library,
<<
    i, j := 0, n
    for i < j { h := int(uint(i+j) >> 1); if !f(h) { i = h + 1 } else { j = h } }
    return i
>>
    The distance [j - i] shrinks at every turn, so [n] turns are enough;
    [search_go] takes that bound as its structural argument. *)
Fixpoint search_go (turns : nat) (f : Z -> bool) (i j : Z) : Z :=
  match turns with
  | O => i
  | S turns' =>
      if i <? j then
        let h := Z.shiftr (i + j) 1 in
        if negb (f h) then search_go turns' f (h + 1) j
        else search_go turns' f i h
      else i
  end.

Definition Search (n : Z) (f : Z -> bool) : Z := search_go (Z.to_nat n) f 0 n.

(** [hash/fnv]'s [New64a]: xor the byte in, then multiply by the prime. *)
Definition offset64 : Z := 14695981039346656037.
Definition prime64 : Z := 1099511628211.

Definition fnv64a_step (h : Z) (b : byte) : Z :=
  uint64 (Z.lxor h (Z.of_N (Byte.to_N b)) * prime64).

Definition fnv64a (bs : list byte) : Z := fold_left fnv64a_step bs offset64.

Definition byte_of_Z (z : Z) : byte :=
  match Byte.of_N (Z.to_N (z mod 256)) with
  | Some b => b
  | None => x00
  end.

Definition Z_of_byte (b : byte) : Z := Z.of_N (Byte.to_N b).

(** The [w] low bytes of [v], least significant first (the order in
    which an amd64 or arm64 host lays an integer out in memory). *)
Fixpoint le_bytes (w : nat) (v : Z) : list byte :=
  match w with
  | O => []
  | S w' => byte_of_Z v :: le_bytes w' (v / 256)
  end.

(** Most significant byte first. *)
Definition be_bytes (w : nat) (v : Z) : list byte := rev (le_bytes w v).

Definition be_value (bs : list byte) : Z :=
  fold_left (fun acc b => acc * 256 + Z_of_byte b) bs 0.

(** A Go slice: the backing array from the slice's first element up to
    its capacity, and the length.  [s[lo:hi]] is legal up to the capacity,
    not only up to the length; indexing and [len] see the length. *)
Record slice : Type := MkSlice {
  s_buf : list byte;
  s_len : nat
}.

Definition cap (s : slice) : Z := Z.of_nat (length (s_buf s)).
Definition len (s : slice) : Z := Z.of_nat (s_len s).
Definition contents (s : slice) : list byte := take (s_len s) (s_buf s).

(** [s[lo:hi]]; [None] is the panic "slice bounds out of range". *)
Definition reslice (s : slice) (lo hi : Z) : option slice :=
  if (0 <=? lo) && (lo <=? hi) && (hi <=? cap s)
  then Some (MkSlice (drop (Z.to_nat lo) (s_buf s)) (Z.to_nat (hi - lo)))
  else None.

(** A slice of length [length bs] over an array that holds [spare] more
    bytes. *)
Definition slice_of (bs spare : list byte) : slice := MkSlice (bs ++ spare) (length bs).

(** [append(l, zero); copy(l[index+1:], l[index:]); l[index] = x], the
    idiom [node.go] uses to make room at [index]. *)
Definition append_copy {A : Type} (l : list A) (zero : A) (index : nat) : list A :=
  let l1 := l ++ [zero] in
  take (S index) l1 ++ take (length l1 - S index) (drop index l1).

End GoRuntime.

Import GoRuntime.

(* ===================================================================== *)
(** * store/db.go                                                         *)
(* ===================================================================== *)

Module Store.

(** The error values [db.go] returns.  [ErrInvalid] and its siblings are
    declared in another file of the package; [Errorf] stands for an
    error made on the spot by [fmt.Errorf]. *)
Inductive error : Type :=
| ErrInvalid
| ErrVersionMismatch
| ErrChecksum
| ErrNotFound
| ErrDatabaseNotOpen
| Errorf (msg : string).

Definition magic : Z := 0xED0CDAED.
Definition version : Z := 1.
Definition maxMmapStep : Z := Z.shiftl 1 30.

(** [type meta struct]: four [uint32] followed by five 64-bit fields
    ([pgid] and [txid] are unsigned 64-bit integers). *)
Record meta : Type := Meta {
  m_magic : Z;
  m_version : Z;
  m_pageSize : Z;
  m_flags : Z;
  m_freelist : Z;
  m_data : Z;
  m_pgid : Z;
  m_txid : Z;
  m_checksum : Z
}.

(** The bytes of a [meta] that precede its [checksum] field, as
    [unsafe.Offsetof(meta{}.checksum)] cuts them: 4 * 4 + 4 * 8 = 48
    bytes in host order. *)
Definition meta_prefix_bytes (m : meta) : list byte :=
  le_bytes 4 (m_magic m) ++ le_bytes 4 (m_version m) ++
  le_bytes 4 (m_pageSize m) ++ le_bytes 4 (m_flags m) ++
  le_bytes 8 (m_freelist m) ++ le_bytes 8 (m_data m) ++
  le_bytes 8 (m_pgid m) ++ le_bytes 8 (m_txid m).

Definition sum64 (m : meta) : Z := fnv64a (meta_prefix_bytes m).

(** The fields that [sum64] covers lie in the range of their Go types:
    four [uint32], then four [uint64] ([pgid] and [txid]). *)
Definition meta_in_range (m : meta) : Prop :=
  0 <= m_magic m < 2 ^ 32 /\ 0 <= m_version m < 2 ^ 32 /\
  0 <= m_pageSize m < 2 ^ 32 /\ 0 <= m_flags m < 2 ^ 32 /\
  0 <= m_freelist m < 2 ^ 64 /\ 0 <= m_data m < 2 ^ 64 /\
  0 <= m_pgid m < 2 ^ 64 /\ 0 <= m_txid m < 2 ^ 64.

(** [meta.validate]; [None] is Go's [nil] error. *)
Definition validate (m : meta) : option error :=
  if negb (m_magic m =? magic) then Some ErrInvalid
  else if negb (m_version m =? version) then Some ErrVersionMismatch
  else if negb (m_checksum m =? 0) && negb (m_checksum m =? sum64 m)
       then Some ErrChecksum
  else None.

(** [Tx] is declared in another file; [db.go] sets [writable] and reads
    [meta.txid].  [tx_meta] is a [*meta], nil until [Tx.init] sets it. *)
Record Tx : Type := MkTx {
  writable : bool;
  tx_meta : option meta
}.

(** The fields of [DB] that the modelled functions read or write. *)
Record DB : Type := MkDB {
  opened : bool;
  meta0 : meta;
  meta1 : meta;
  pageSize : Z;
  rwtx : option Tx;
  txs : list Tx
}.

(** [DB.meta]: [None] is the [panic("db.meta(): invalid meta pages")]. *)
Definition db_meta (db : DB) : option meta :=
  let '(metaA, metaB) :=
    if m_txid (meta1 db) >? m_txid (meta0 db)
    then (meta1 db, meta0 db) else (meta0 db, meta1 db) in
  match validate metaA with
  | None => Some metaA
  | Some _ =>
      match validate metaB with
      | None => Some metaB
      | Some _ => None
      end
  end.

Section MapSize.

(** [maxMapSize] is a per-architecture constant declared outside
    [db.go]; it is a parameter here. *)
Variable maxMapSize : Z.

(** [DB.mmapSize].  [size] is an [int]; the arithmetic after the loop
    is done in [int64].  [%] and [/] are Go's truncated operators and
    a zero divisor panics. *)
Definition mmapSize (db : DB) (size : Z) : res error Z :=
  match find (fun i => size <=? Z.shiftl 1 i) (seqZ 15 16) with
  | Some i => Ok (Z.shiftl 1 i)
  | None =>
      if maxMapSize <? size then Err (Errorf "mmap too large")
      else
        let sz := int64 size in
        let remainder := Z.rem sz (int64 maxMmapStep) in
        let sz := if 0 <? remainder
                  then int64 (sz + int64 (int64 maxMmapStep - remainder))
                  else sz in
        let pageSize := int64 (pageSize db) in
        if pageSize =? 0 then Panic
        else
          let sz := if negb (Z.rem sz pageSize =? 0)
                    then int64 (int64 (Z.quot sz pageSize + 1) * pageSize)
                    else sz in
          let sz := if maxMapSize <? sz then maxMapSize else sz in
          Ok sz
  end.

(** What the operating system hands to [DB.mmap]: the result of
    [file.Stat] (the size, or a failure), whether the two system
    calls fail, and the meta pages found at pages 0 and 1 of the new
    mapping. *)
Record MapEnv : Type := MkMapEnv {
  stat_size : option Z;
  munmap_err : option error;
  mmap_err : option error;
  page0_meta : meta;
  page1_meta : meta
}.

(** [DB.mmap]: the database after the call and the error returned;
    [None] in the outer option is a panic inside [mmapSize]. *)
Definition mmap (db : DB) (minsz : Z) (env : MapEnv) : option (DB * option error) :=
  match stat_size env with
  | None => Some (db, Some (Errorf "mmap stat error"))
  | Some fsize =>
      if fsize <? pageSize db * 2 then Some (db, Some (Errorf "file size too small"))
      else
        let size := if fsize <? minsz then minsz else fsize in
        match mmapSize db size with
        | Panic | Spin => None
        | Err e => Some (db, Some e)
        | Ok _ =>
            match munmap_err env with
            | Some e => Some (db, Some (Errorf "unmap error"))
            | None =>
                match mmap_err env with
                | Some e => Some (db, Some e)
                | None =>
                    let db' := MkDB (opened db) (page0_meta env) (page1_meta env)
                                    (pageSize db) (rwtx db) (txs db) in
                    match validate (meta0 db'), validate (meta1 db') with
                    | Some err0, Some _ => Some (db', Some err0)
                    | _, _ => Some (db', None)
                    end
                end
            end
        end
  end.

End MapSize.

Section PutGet.

(** The collaborators of [Put] and [Get] that live in other files:
    [Tx.init], [Cursor.seek] (key and value found, read from the
    database the cursor was made for) and [Tx.Commit]. *)
Variable tx_init : DB -> Tx -> Tx.
Variable cursor_seek : DB -> Z -> Z * list byte.
Variable tx_commit : Tx -> DB -> DB * option error.

(** [DB.beginRWTx].  The locks are not modelled (one thread); the loop
    over [db.txs] computes [minid] and drops it.  The loop reads
    [t.meta.txid]: the transactions in [db.txs] are taken to have their
    meta set, as [Tx.init] leaves them. *)
Definition beginRWTx (db : DB) : DB * res error Tx :=
  if negb (opened db) then (db, Err ErrDatabaseNotOpen)
  else
    let t := tx_init db (MkTx true None) in
    (MkDB (opened db) (meta0 db) (meta1 db) (pageSize db) (Some t) (txs db), Ok t).

(** [DB.Get]. *)
Definition Get (db : DB) (key : Z) : res error (list byte) :=
  let '(k, v) := cursor_seek db key in
  if negb (key =? k) then Err ErrNotFound else Ok v.

(** [DB.Put].  The body never mentions [value]: it seeks and
    commits. *)
Definition Put (db : DB) (key : Z) (value : gmap string float) : DB * option error :=
  match beginRWTx db with
  | (db1, Ok t) =>
      let _ := cursor_seek db1 key in
      tx_commit t db1
  | (db1, Err e) => (db1, Some e)
  | (db1, _) => (db1, None)
  end.

End PutGet.

(** A database with 4 KiB pages whose meta pages carry the transaction
    ids 0 and 1 and a zero (unset) checksum. *)
Definition db4096 : DB :=
  MkDB true (Meta magic version 4096 0 2 3 4 0 0) (Meta magic version 4096 0 2 3 4 1 0)
       4096 None [].

End Store.

(* ===================================================================== *)
(** * storage/node.go                                                     *)
(* ===================================================================== *)

Module Storage.

Definition LevelRoot : Z := 0x0001.
Definition LevelYear : Z := 0x0002.
Definition LevelMonth : Z := 0x0004.
Definition LevelDay : Z := 0x0008.
Definition LevelHour : Z := 0x0010.
Definition LevelMinute : Z := 0x0020.
Definition LevelSecond : Z := 0x0040.
Definition LevelMSecond : Z := 0x0080.
Definition LevelUSecond : Z := 0x0100.
Definition LevelNSecond : Z := 0x0200.

Definition LevelFlag : Z := 0x0FFF.
Definition LeafFlag : Z := 0x3000.
Definition InteriorChunkFlag : Z := 0x1000.
Definition LeafChunkFlag : Z := 0x2000.

(** The ten single-bit level constants. *)
Definition levels : list Z :=
  [LevelRoot; LevelYear; LevelMonth; LevelDay; LevelHour; LevelMinute;
   LevelSecond; LevelMSecond; LevelUSecond; LevelNSecond].

(** [type Value struct]; [count] is a [uint16]. *)
Record Value : Type := MkValue {
  v_sum : float;
  v_max : float;
  v_min : float;
  v_first : float;
  v_last : float;
  v_count : Z
}.

(** [Point] and [Time] are declared in other files of the package;
    [node.go] reads [Point.Timestamp], [Point.Value], [Time.TS] and calls
    [Time.Level()], which is a field here. *)
Record Point : Type := MkPoint {
  Timestamp : Z;
  p_Value : gmap string float
}.

Record Time : Type := MkTime {
  TS : Z;
  Level : Z
}.

(** [type nodePointer struct], with the type of nodes left open so that
    [node] can be defined after it; [None] in [np_pointer] is a nil
    [*node], and a nil [value] map is the empty map (it is only read). *)
Record nodePointerOf (N : Type) : Type := MkNodePointer {
  np_key : Z;
  np_pos : Z;
  np_pointer : option N;
  np_value : gmap string Value
}.
Arguments MkNodePointer {N}.
Arguments np_key {N}.
Arguments np_pos {N}.
Arguments np_pointer {N}.
Arguments np_value {N}.

(** [type node struct].  [db] is the shared store, threaded separately
    where a function writes to it; [parent] is a back reference that no
    function reads; [key] is never used. *)
#[warnings="-register-all"]
Inductive node : Type := MkNode {
  level : Z;
  isLeaf : bool;
  dirty : Z;
  pointers : list (nodePointerOf node);
  points : list Point
}.

Abbreviation nodePointer := (nodePointerOf node).

Definition newLeafNode : node := MkNode 0 true 0 [] [].
Definition newInteriorNode : node := MkNode 0 false (-1) [] [].

Definition set_level (n : node) (l : Z) : node :=
  MkNode l (isLeaf n) (dirty n) (pointers n) (points n).
Definition set_points (n : node) (ps : list Point) : node :=
  MkNode (level n) (isLeaf n) (dirty n) (pointers n) ps.
Definition set_pointers (n : node) (ps : list nodePointer) : node :=
  MkNode (level n) (isLeaf n) (dirty n) ps (points n).
Definition set_dirty (n : node) (d : Z) : node :=
  MkNode (level n) (isLeaf n) d (pointers n) (points n).

(** An [error] value of this package. *)
Inductive error : Type := ErrorValue (msg : string).

(** [l[i]] for an [int] index: [None] is "index out of range". *)
Definition at_index {A : Type} (l : list A) (i : Z) : option A :=
  if i <? 0 then None else l !! Z.to_nat i.

(* --------------------------------------------------------------------- *)
(** ** reduce                                                             *)
(* --------------------------------------------------------------------- *)

(** The leaf branch of [reduce], the [else] arm: [vk] is the copy of
    [value[k]] that the arm updates and stores back.  [is_last] is
    [index == len(n.points)-1].  Go's [a > b] on floats is [b < a]. *)
Definition leaf_update (is_last : bool) (vk : Value) (v : float) : Value :=
  let sum' := (v_sum vk + v)%float in
  let max' := if (v_max vk <? v)%float then v else v_max vk in
  let min' := if (v_max vk <? v)%float then v_min vk
              else if (v <? v_min vk)%float then v else v_min vk in
  let last' := if is_last then v else v_last vk in
  MkValue sum' max' min' (v_first vk) last' (uint16 (v_count vk + 1)).

(** One [(k, v)] of one point. *)
Definition leaf_entry (is_last : bool) (value : gmap string Value)
    (kv : string * float) : gmap string Value :=
  let '(k, v) := kv in
  match value !! k with
  | None => <[k := MkValue v v v v v 1]> value
  | Some vk => <[k := leaf_update is_last vk v]> value
  end.

(** [for k, v := range point.Value].  Go ranges over a map in an order of
    its own choosing; [entries] is that order. *)
Definition leaf_point (is_last : bool) (value : gmap string Value)
    (entries : list (string * float)) : gmap string Value :=
  fold_left (leaf_entry is_last) entries value.

(** [for index, point := range n.points]. *)
Fixpoint leaf_points (n_points index : Z) (ps : list Point)
    (value : gmap string Value) : gmap string Value :=
  match ps with
  | [] => value
  | p :: ps' =>
      leaf_points n_points (index + 1) ps'
        (leaf_point (index =? n_points - 1) value (map_to_list (p_Value p)))
  end.

(** The interior branch, the [else] arm. *)
Definition interior_update (is_last : bool) (vk v : Value) : Value :=
  let sum' := (v_sum vk + v_sum v)%float in
  let max' := if (v_max vk <? v_max v)%float then v_max v else v_max vk in
  let min' := if (v_min vk <? v_min v)%float then v_min v else v_min vk in
  let last' := if is_last then v_last v else v_last vk in
  MkValue sum' max' min' (v_first vk) last' (uint16 (v_count vk + v_count v)).

(** One [(k, v)] of one pointer's cached value. *)
Definition interior_entry (is_last : bool) (value : gmap string Value)
    (kv : string * Value) : gmap string Value :=
  let '(k, v) := kv in
  match value !! k with
  | None => <[k := v]> value
  | Some vk => <[k := interior_update is_last vk v]> value
  end.

Definition interior_pointer (is_last : bool) (value : gmap string Value)
    (entries : list (string * Value)) : gmap string Value :=
  fold_left (interior_entry is_last) entries value.

Fixpoint interior_pointers (n_pointers index : Z) (ps : list nodePointer)
    (value : gmap string Value) : gmap string Value :=
  match ps with
  | [] => value
  | p :: ps' =>
      interior_pointers n_pointers (index + 1) ps'
        (interior_pointer (index =? n_pointers - 1) value (map_to_list (np_value p)))
  end.

(** [l[i] = f(l[i])] where [f] may panic and may hand back a by-product;
    [None] when [i] is out of range or [f] panics. *)
Definition update_at {A B : Type} (f : A -> option (A * B))
    : list A -> nat -> option (list A * B) :=
  fix go (l : list A) (i : nat) {struct l} : option (list A * B) :=
    match l with
    | [] => None
    | x :: l' =>
        match i with
        | O => match f x with
               | Some (x', b) => Some (x' :: l', b)
               | None => None
               end
        | S i' => match go l' i' with
                  | Some (l'', b) => Some (x :: l'', b)
                  | None => None
                  end
        end
    end.

(** [node.reduce].  The call mutates the tree (the dirty pointer's cached
    value, and so on down the dirty path), so the model returns the node
    after the call together with the map.  [None] is a panic: [n.dirty]
    out of range, or a nil child. *)
Fixpoint reduce (n : node) : option (node * gmap string Value) :=
  match n with
  | MkNode lvl leaf d ptrs pts =>
      if leaf then
        Some (n, leaf_points (Z.of_nat (length pts)) 0 pts ∅)
      else if d <? 0 then None
      else
        match
          update_at
            (fun p : nodePointer =>
               match np_pointer p with
               | None => None
               | Some child =>
                   match reduce child with
                   | None => None
                   | Some (child', v) =>
                       Some (MkNodePointer (np_key p) (np_pos p) (Some child') v, tt)
                   end
               end) ptrs (Z.to_nat d)
        with
        | None => None
        | Some (ptrs', _) =>
            Some (MkNode lvl false d ptrs' pts,
                  interior_pointers (Z.of_nat (length ptrs')) 0 ptrs' ∅)
        end
  end.

(** The leaf fold as the specification words it, for one metric [k]:
    the first point that carries [k] initialises every field with its
    value and the count with 1; each later point that carries [k] adds to
    the sum, replaces the maximum when larger, replaces the minimum when
    smaller (each on its own), adds one to the 16-bit count and, when it
    is the final point of the leaf, sets [last]; [first] is kept. *)
Definition spec_first (v : float) : Value := MkValue v v v v v 1.

Definition spec_next (is_final : bool) (acc : Value) (v : float) : Value :=
  MkValue (v_sum acc + v)%float
          (if (v_max acc <? v)%float then v else v_max acc)
          (if (v <? v_min acc)%float then v else v_min acc)
          (v_first acc)
          (if is_final then v else v_last acc)
          (uint16 (v_count acc + 1)).

Fixpoint spec_leaf_metric (k : string) (n_points index : Z) (ps : list Point)
    (acc : option Value) : option Value :=
  match ps with
  | [] => acc
  | p :: ps' =>
      spec_leaf_metric k n_points (index + 1) ps'
        match p_Value p !! k with
        | None => acc
        | Some v =>
            Some match acc with
                 | None => spec_first v
                 | Some a => spec_next (index =? n_points - 1) a v
                 end
        end
  end.

(** What the leaf fold keeps true of every aggregate it builds: the
    minimum is the maximum, or lies below it. *)
Definition min_below_max (vk : Value) : Prop :=
  v_min vk = v_max vk \/ (v_min vk <? v_max vk)%float = true.

(** The leaf of the specification's example: three points that carry
    10, 20 and 30 for the metric "x". *)
Definition leaf_10_20_30 : node :=
  MkNode LevelHour true 0 []
    [MkPoint 1 {[ "x"%string := 10%float ]};
     MkPoint 2 {[ "x"%string := 20%float ]};
     MkPoint 3 {[ "x"%string := 30%float ]}].

(** An interior node with two children for the metric "x": the dirty
    child is a leaf that holds the single value 1, the other child has
    the cached aggregate of the single value 5. *)
Definition interior_1_5 : node :=
  MkNode LevelDay false 0
    [MkNodePointer 1 0
       (Some (MkNode LevelHour true 0 [] [MkPoint 1 {[ "x"%string := 1%float ]}])) ∅;
     MkNodePointer 2 0 None {[ "x"%string := MkValue 5 5 5 5 5 1 ]}]
    [].

(* --------------------------------------------------------------------- *)
(** ** Insertion                                                          *)
(* --------------------------------------------------------------------- *)

(** [node.insertPoint].  The closure handed to [sort.Search] reads
    [n.points[i]]; [Search] only calls it inside the slice.  After the
    search the code reads [n.points[index]] with no check on [index]. *)
Definition insertPoint (n : node) (t : Time) (value : gmap string float) : res error node :=
  let index :=
    Search (Z.of_nat (length (points n)))
      (fun i => match at_index (points n) i with
                | Some p => Timestamp p >=? TS t
                | None => false
                end) in
  p ← must (at_index (points n) index);
  if Timestamp p =? TS t then
    Ok (set_points n (<[Z.to_nat index := MkPoint (Timestamp p) value]> (points n)))
  else
    let ps := append_copy (points n) (MkPoint 0 ∅) (Z.to_nat index) in
    Ok (set_points n (<[Z.to_nat index := MkPoint (TS t) value]> ps)).

(** Strictly increasing, position by position: the order the points of
    a leaf are kept in, read on their timestamps. *)
Definition strictly_sorted (l : list Z) : Prop :=
  forall (i j : nat) (a b : Z), (i < j)%nat -> l !! i = Some a -> l !! j = Some b -> a < b.

Section Insert.

(** [t.Timestamp(level).UnixNano()]: the start of the bucket of [t] at
    [level], computed by the [Time] type of another file. *)
Variable Timestamp_UnixNano : Time -> Z -> Z.

(** The tail shared by both branches of [insertNode]: search the
    pointers for [t.TS], make room unless the pointer found has exactly
    that key, store the new pointer and mark it dirty.  The three-way
    guard keeps [n.pointers[index]] inside the slice. *)
Definition place_pointer (n : node) (t : Time) (child : node) : node :=
  let size := Z.of_nat (length (pointers n)) in
  let index :=
    Search size
      (fun i => match at_index (pointers n) i with
                | Some p => np_key p >=? TS t
                | None => false
                end) in
  let make_room :=
    (size =? 0) || (index >=? size) ||
    match at_index (pointers n) index with
    | Some p => negb (np_key p =? TS t)
    | None => true
    end in
  let ptrs :=
    if make_room
    then append_copy (pointers n) (MkNodePointer 0 0 None ∅) (Z.to_nat index)
    else pointers n in
  let np := MkNodePointer (Timestamp_UnixNano t (uint16 (Z.shiftl (level n) 1)))
                          0 (Some child) ∅ in
  set_dirty (set_pointers n (<[Z.to_nat index := np]> ptrs)) index.

(** [node.insertNode].  The recursion builds a fresh interior node one
    level down and inserts into it; [depth] bounds the number of nested
    calls.  The failed [_assert] is a panic. *)
Fixpoint insertNode (depth : nat) (n : node) (t : Time) (value : gmap string float)
    : res error node :=
  if negb (Z.shiftr (Level t) 2 >=? level n) then Panic
  else if Z.shiftr (Level t) 2 =? level n then
    let leafNode :=
      set_points (set_level newLeafNode (uint16 (Z.shiftl (level n) 1)))
                 [MkPoint (TS t) value] in
    Ok (place_pointer n t leafNode)
  else
    match depth with
    | O => Spin
    | S depth' =>
        let interiorNode := set_level newInteriorNode (uint16 (Z.shiftl (level n) 1)) in
        interiorNode' ← insertNode depth' interiorNode t value;
        Ok (place_pointer n t interiorNode')
    end.

(** [node.put]: insert into the receiver, then reduce from
    [n.db.root].  The tree hangs together by pointers, so the root sees
    the receiver as the insertion has left it: [root_with n'] is the
    root of the database once the receiver has become [n'] (the identity
    when the receiver is the root itself, a constant when the receiver
    is not part of the tree).  The result is the root after [reduce];
    the map that [reduce] returns is dropped. *)
Definition put (root_with : node -> node) (depth : nat) (n : node) (t : Time)
    (value : gmap string float) : res error node :=
  n' ← (if isLeaf n then insertPoint n t value else insertNode depth n t value);
  '(root', _) ← must (reduce (root_with n'));
  Ok root'.

End Insert.

(** An empty root, as [newInteriorNode] makes it and with its level set
    to [LevelRoot]. *)
Definition root_node : node := set_level newInteriorNode LevelRoot.

(** A [Time] whose bucket start is its own timestamp at every level. *)
Definition no_truncation (t : Time) (lvl : Z) : Z := TS t.

(* --------------------------------------------------------------------- *)
(** ** Binary encoding                                                    *)
(* --------------------------------------------------------------------- *)

(** Modelled from the spec: [encodeUint16] is a helper of another file;
    the spec gives the width (16 bits) and asks for one byte order
    throughout, taken here to be big-endian. *)
Definition encodeUint16 (v : Z) : list byte := be_bytes 2 v.

(** Modelled from the spec: [decodeUint16], the inverse helper; it reads
    the first two bytes of its argument and panics on a shorter one. *)
Definition decodeUint16 (b : slice) : option Z :=
  match contents b with
  | b0 :: b1 :: _ => Some (be_value [b0; b1])
  | _ => None
  end.

(** Modelled from the spec: [encodeInt64], 8 bytes, two's complement. *)
Definition encodeInt64 (v : Z) : list byte := be_bytes 8 v.

(** Modelled from the spec: [decodeInt64], the inverse helper. *)
Definition decodeInt64 (b : slice) : option Z :=
  let bs := take 8 (contents b) in
  if (length bs =? 8)%nat then Some (int64 (be_value bs)) else None.

Definition signbit (s : bool) : Z := if s then 2 ^ 63 else 0.

(** [math.Float64bits]: the IEEE 754 binary64 pattern of a float (every
    NaN is the quiet NaN with an empty payload). *)
Definition float64bits (f : float) : Z :=
  match Prim2SF f with
  | S754_zero s => signbit s
  | S754_infinity s => signbit s + 2047 * 2 ^ 52
  | S754_nan => 2047 * 2 ^ 52 + 2 ^ 51
  | S754_finite s m e =>
      signbit s +
      (if Z.pos m <? 2 ^ 52 then Z.pos m
       else (e + 1075) * 2 ^ 52 + (Z.pos m - 2 ^ 52))
  end.

(** [math.Float64frombits]. *)
Definition float64frombits (b : Z) : float :=
  let s := Z.testbit b 63 in
  let ef := (b / 2 ^ 52) mod 2048 in
  let mf := b mod 2 ^ 52 in
  SF2Prim
    (if ef =? 0 then
       if mf =? 0 then S754_zero s else S754_finite s (Z.to_pos mf) (-1074)
     else if ef =? 2047 then
       if mf =? 0 then S754_infinity s else S754_nan
     else S754_finite s (Z.to_pos (mf + 2 ^ 52)) (ef - 1075)).

(** Modelled from the spec: [encodeFloat64], the 8 bytes of the binary64
    pattern. *)
Definition encodeFloat64 (f : float) : list byte := be_bytes 8 (float64bits f).

(** Modelled from the spec: [decodeFloat64], the inverse helper. *)
Definition decodeFloat64 (b : slice) : option float :=
  let bs := take 8 (contents b) in
  if (length bs =? 8)%nat then Some (float64frombits (be_value bs)) else None.

(** [Value.encode]. *)
Definition encodeValue (v : Value) : list byte :=
  encodeFloat64 (v_sum v) ++ encodeFloat64 (v_max v) ++ encodeFloat64 (v_min v) ++
  encodeFloat64 (v_first v) ++ encodeFloat64 (v_last v) ++ encodeUint16 (v_count v).

(** [decodeValue]. *)
Definition decodeValue (valueBytes : slice) : option Value :=
  sum ← reslice valueBytes 0 8 ≫= decodeFloat64;
  max ← reslice valueBytes 8 16 ≫= decodeFloat64;
  min ← reslice valueBytes 16 24 ≫= decodeFloat64;
  first ← reslice valueBytes 24 32 ≫= decodeFloat64;
  last ← reslice valueBytes 32 40 ≫= decodeFloat64;
  count ← reslice valueBytes 40 42 ≫= decodeUint16;
  Some (MkValue sum max min first last count).

(** One turn of the loop of [nodePointer.encode]. *)
Definition encodeEntry (kv : string * Value) : list byte :=
  let keyBytes := list_byte_of_string (fst kv) in
  encodeUint16 (uint16 (Z.of_nat (length keyBytes))) ++ keyBytes ++ encodeValue (snd kv).

(** [nodePointer.encode], with the order [entries] in which Go happens
    to range over [np.value]. *)
Definition encodePointerIn (entries : list (string * Value)) (np : nodePointer) : list byte :=
  encodeInt64 (np_key np) ++ encodeInt64 (np_pos np) ++ flat_map encodeEntry entries.

Definition encodePointer (np : nodePointer) : list byte :=
  encodePointerIn (map_to_list (np_value np)) np.

(** [encodeUint16(uint16(len(b)))] followed by [b]. *)
Definition frame (b : list byte) : list byte :=
  encodeUint16 (uint16 (Z.of_nat (length b))) ++ b.

(** The loop of [decodeNodePointer]; every turn moves [bufPos] forward,
    so [len(npBytes)] turns are enough. *)
Fixpoint decodePointerValues (turns : nat) (npBytes : slice) (bufPos : Z)
    (value : gmap string Value) : res error (gmap string Value) :=
  if bufPos <? len npBytes then
    match turns with
    | O => Spin
    | S turns' =>
        keyLength ← must (reslice npBytes bufPos (bufPos + 2) ≫= decodeUint16);
        let bufPos := bufPos + 2 in
        keyBytes ← must (reslice npBytes bufPos (bufPos + keyLength));
        let key := string_of_list_byte (contents keyBytes) in
        let bufPos := bufPos + keyLength in
        v ← must (reslice npBytes bufPos (bufPos + 42) ≫= decodeValue);
        let bufPos := bufPos + 42 in
        decodePointerValues turns' npBytes bufPos (<[key := v]> value)
    end
  else Ok value.

(** [decodeNodePointer]; it never returns a non-nil error. *)
Definition decodeNodePointer (npBytes : slice) : res error nodePointer :=
  key ← must (reslice npBytes 0 8 ≫= decodeInt64);
  pos ← must (reslice npBytes 8 16 ≫= decodeInt64);
  value ← decodePointerValues (S (s_len npBytes)) npBytes 16 ∅;
  Ok (MkNodePointer key pos None value).

Section Codec.

(** [Point.encode] and [decodePoint] belong to the [Point] type of
    another file. *)
Variable encodePoint : Point -> list byte.
Variable decodePoint : slice -> res error Point.

(** [node.encode], given for every pointer the order in which its value
    map is ranged over. *)
Definition encodeIn (orders : list (list (string * Value))) (n : node) : list byte :=
  if isLeaf n then
    encodeUint16 (Z.lor (level n) LeafChunkFlag) ++
    flat_map (fun point => frame (encodePoint point)) (points n)
  else
    encodeUint16 (Z.lor (level n) InteriorChunkFlag) ++
    concat (zip_with (fun pointer entries => frame (encodePointerIn entries pointer))
                     (pointers n) orders).

(** [node.encode] with one particular order. *)
Definition encode (n : node) : list byte :=
  encodeIn (map (fun pointer => map_to_list (np_value pointer)) (pointers n)) n.

(** [bs] is a possible result of [n.encode()]. *)
Definition encodes (n : node) (bs : list byte) : Prop :=
  exists orders,
    Forall2 (fun pointer entries => entries ≡ₚ map_to_list (np_value pointer))
            (pointers n) orders /\
    bs = encodeIn orders n.

(** The loop of [decodeLeafNode]. *)
Fixpoint decodePoints (turns : nat) (nodeBytes : slice) (bufPos : Z)
    (acc : list Point) : res error (list Point) :=
  if bufPos <? len nodeBytes then
    match turns with
    | O => Spin
    | S turns' =>
        pointLength ← must (reslice nodeBytes bufPos (bufPos + 2) ≫= decodeUint16);
        let bufPos := bufPos + 2 in
        pointBytes ← must (reslice nodeBytes bufPos (bufPos + pointLength));
        point ← decodePoint pointBytes;
        let bufPos := bufPos + pointLength in
        decodePoints turns' nodeBytes bufPos (acc ++ [point])
    end
  else Ok acc.

(** The loop of [decodeInteriorNode]. *)
Fixpoint decodePointers (turns : nat) (nodeBytes : slice) (bufPos : Z)
    (acc : list nodePointer) : res error (list nodePointer) :=
  if bufPos <? len nodeBytes then
    match turns with
    | O => Spin
    | S turns' =>
        pointerLength ← must (reslice nodeBytes bufPos (bufPos + 2) ≫= decodeUint16);
        let bufPos := bufPos + 2 in
        pointerBytes ← must (reslice nodeBytes bufPos (bufPos + pointerLength));
        pointer ← decodeNodePointer pointerBytes;
        let bufPos := bufPos + pointerLength in
        decodePointers turns' nodeBytes bufPos (acc ++ [pointer])
    end
  else Ok acc.

Definition decodeLeafNode (nodeBytes : slice) : res error node :=
  header ← must (reslice nodeBytes 0 2 ≫= decodeUint16);
  let n := set_level newLeafNode (Z.land header LevelFlag) in
  ps ← decodePoints (S (s_len nodeBytes)) nodeBytes 2 (points n);
  Ok (set_points n ps).

Definition decodeInteriorNode (nodeBytes : slice) : res error node :=
  header ← must (reslice nodeBytes 0 2 ≫= decodeUint16);
  let n := set_level newInteriorNode (Z.land header LevelFlag) in
  ps ← decodePointers (S (s_len nodeBytes)) nodeBytes 2 (pointers n);
  Ok (set_pointers n ps).

(** [DB.decodeNode]. *)
Definition decodeNode (nodeBytes : slice) : res error node :=
  flags ← must (reslice nodeBytes 0 2 ≫= decodeUint16);
  if Z.land flags LeafFlag =? LeafChunkFlag
  then decodeLeafNode nodeBytes
  else decodeInteriorNode nodeBytes.

(* --------------------------------------------------------------------- *)
(** ** flush                                                              *)
(* --------------------------------------------------------------------- *)

(** [db.writeChunk] appends to the store kept by another file: from the
    store and the bytes, the store afterwards and the position written,
    or an error. *)
Variable Disk : Type.
Variable writeChunk : Disk -> list byte -> Disk * res error Z.

(** [node.flush]: the node after the call (the dirty pointer has its new
    position), the position returned and the store.  [None] is a panic:
    [n.dirty] out of range, or a nil child. *)
Fixpoint flush (n : node) (disk : Disk) : option (node * Z * Disk) :=
  match n with
  | MkNode lvl leaf d ptrs pts =>
      let write (n' : node) (disk' : Disk) :=
        let nodeBytes := encode n' in
        match writeChunk disk' nodeBytes with
        | (disk'', Ok pos) => Some (n', pos, disk'')
        | (disk'', _) => Some (n', 0, disk'')
        end in
      if leaf then write n disk
      else if d <? 0 then None
      else
        match
          update_at
            (fun p : nodePointer =>
               match np_pointer p with
               | None => None
               | Some child =>
                   match flush child disk with
                   | None => None
                   | Some (child', pos, disk') =>
                       Some (MkNodePointer (np_key p) pos (Some child') (np_value p), disk')
                   end
               end) ptrs (Z.to_nat d)
        with
        | None => None
        | Some (ptrs', disk') => write (MkNode lvl false d ptrs' pts) disk'
        end
  end.

End Codec.

(* --------------------------------------------------------------------- *)
(** ** What a round trip through the encoding preserves                   *)
(* --------------------------------------------------------------------- *)

(** Two pointers agree on what the encoding carries: key, position and
    cached values (as maps, so in any order).  The child behind the
    pointer is not encoded. *)
Definition pointer_equiv (p q : nodePointer) : Prop :=
  np_key p = np_key q /\ np_pos p = np_pos q /\ np_value p = np_value q.

(** Same level, same kind, and the same points or pointers in order. *)
Definition node_equiv (n m : node) : Prop :=
  level n = level m /\ isLeaf n = isLeaf m /\
  if isLeaf n then points n = points m
  else Forall2 pointer_equiv (pointers n) (pointers m).

Definition in_int64 (z : Z) : bool := (- 2 ^ 63 <=? z) && (z <? 2 ^ 63).
Definition in_uint16 (z : Z) : bool := (0 <=? z) && (z <? 2 ^ 16).

(** The fields of the pointer lie in the range of their Go types, and
    the encoded pointer is short enough for its 16-bit length prefix. *)
Definition pointer_fits (p : nodePointer) : bool :=
  in_int64 (np_key p) && in_int64 (np_pos p) &&
  forallb (fun kv => in_uint16 (v_count (snd kv))) (map_to_list (np_value p)) &&
  (Z.of_nat (length (encodePointer p)) <? 2 ^ 16).

(** The encoded point is short enough for its 16-bit length prefix and
    the codec of [Point] gives it back, whatever follows it in the
    array. *)
Definition point_fits (encodePoint : Point -> list byte)
    (decodePoint : slice -> res error Point) (p : Point) : Prop :=
  Z.of_nat (length (encodePoint p)) < 2 ^ 16 /\
  forall spare, decodePoint (slice_of (encodePoint p) spare) = Ok p.

(** What one entry of a value map must satisfy to be read back: a
    name shorter than 2^16 bytes and a count in the range of [uint16]. *)
Definition entry_fits (kv : string * Value) : Prop :=
  Z.of_nat (length (list_byte_of_string (fst kv))) < 2 ^ 16 /\
  in_uint16 (v_count (snd kv)) = true.

(** The pointer read back from an encoding of [np]: the child is not
    part of the encoding and comes back nil. *)
Definition decoded (np : nodePointer) : nodePointer :=
  MkNodePointer (np_key np) (np_pos np) None (np_value np).

(** A stand-in for the codec of [Point] where a concrete one is needed:
    it writes the timestamp and no metric. *)
Definition timestamp_encode (p : Point) : list byte := encodeInt64 (Timestamp p).

Definition timestamp_decode (b : slice) : res error Point :=
  ts ← must (decodeInt64 b);
  Ok (MkPoint ts ∅).

(** An interior node with two pointers, one with two cached metrics and
    one with none. *)
Definition two_pointer_node : node :=
  MkNode LevelDay false 0
    [MkNodePointer 7 8 None
       {[ "x"%string := MkValue 1 2 3 4 5 6; "yy"%string := MkValue 60 30 10 10 30 3 ]};
     MkNodePointer 9 10 None ∅]
    [].

(** The name of the [i]-th of many metrics: two bytes. *)
Definition metric_name (i : nat) : string :=
  String (ascii_of_nat (i / 256)) (String (ascii_of_nat (i mod 256)) EmptyString).

(** An interior node whose only pointer caches 1425 metrics: its
    encoding takes 16 + 1425 * 46 = 65566 bytes. *)
Definition wide_pointer_node : node :=
  MkNode LevelDay false 0
    [MkNodePointer 0 0 None
       (list_to_map ((fun i => (metric_name i, MkValue 1 1 1 1 1 1)) <$> seq 0 1425))]
    [].

End Storage.

(* ===================================================================== *)
(** * store/db.go, the rest of the file                                   *)
(* ===================================================================== *)

Module StoreMore.
Import Store.

(** The meta page [DB.init] builds for page [i] of a new file: the page
    buffer starts zeroed, so [flags] is zero; the checksum is computed
    last, over the fields already set. *)
Definition init_meta (pageSize : Z) (i : Z) : meta :=
  let m := Meta magic version (wrapU 32 pageSize) 0 2 3 4 i 0 in
  Meta (m_magic m) (m_version m) (m_pageSize m) (m_flags m)
       (m_freelist m) (m_data m) (m_pgid m) (m_txid m) (sum64 m).

(** What [DB.mmap] finds after a successful [DB.init]: a file of four
    pages with the two meta pages of [init] in front, and system calls
    that do not fail. *)
Definition init_env (pageSize : Z) : MapEnv :=
  MkMapEnv (Some (pageSize * 4)) None None (init_meta pageSize 0) (init_meta pageSize 1).

(** The fields of [DB] that [close] writes besides [opened]: the path
    and the file.  [file] is [None] for a nil [db.file]; of an open file
    only the result of its [Close] matters here: [Some None] when it will
    return nil, [Some (Some text)] when it will fail with that text. *)
Record Handle : Type := MkHandle {
  h_db : DB;
  path : string;
  file : option (option string)
}.

(** [DB.close], which [DB.Close] calls under both locks.  A failing
    [funlock] is only logged.  When [db.file.Close()] fails the function
    returns at once, before [db.file] and [db.path] are cleared. *)
Definition close (h : Handle) : Handle * option error :=
  let db := h_db h in
  if negb (opened db) then (h, None)
  else
    let db' := MkDB false (meta0 db) (meta1 db) (pageSize db) (rwtx db) (txs db) in
    match file h with
    | Some (Some text) =>
        (MkHandle db' (path h) (file h),
         Some (Errorf (String.append "db file close: " text)))
    | Some None => (MkHandle db' "" None, None)
    | None => (MkHandle db' "" None, None)
    end.

(** The least multiple of [a] that is not below [x]. *)
Definition next_multiple (a x : Z) : Z :=
  if x mod a =? 0 then x else (x / a + 1) * a.

End StoreMore.

(* ===================================================================== *)
(** * storage/node.go, the rest of the file                               *)
(* ===================================================================== *)

Module StorageMore.
Import Storage.

Section Expand.

Variable encodePoint : Point -> list byte.
Variable Disk : Type.
Variable writeChunk : Disk -> list byte -> Disk * res error Z.

(** The loop of [node.expand]: every point gets a leaf of its own one
    level down, flushed at once, and a pointer to it is appended. *)
Fixpoint expand_points (lvl : Z) (pts : list Point) (ptrs : list nodePointer)
    (disk : Disk) : option (list nodePointer * Disk) :=
  match pts with
  | [] => Some (ptrs, disk)
  | point :: pts' =>
      let leafNode :=
        set_points (set_level newLeafNode (uint16 (Z.shiftl lvl 1))) [point] in
      match flush encodePoint Disk writeChunk leafNode disk with
      | None => None
      | Some (leafNode', pos, disk') =>
          let np := MkNodePointer (Timestamp point) pos (Some leafNode') ∅ in
          expand_points lvl pts' (ptrs ++ [np]) disk'
      end
  end.

(** [node.expand].  The points stay in [n.points] and [n.dirty] keeps
    its value. *)
Definition expand (n : node) (disk : Disk) : option (node * Disk) :=
  match expand_points (level n) (points n) (pointers n) disk with
  | None => None
  | Some (ptrs, disk') => Some (MkNode (level n) false (dirty n) ptrs (points n), disk')
  end.

End Expand.

(** The values the points of a leaf carry for the metric [k], in
    order. *)
Definition carried (k : string) (pts : list Point) : list float :=
  omap (fun p => p_Value p !! k) pts.

(** No value of the metric lies above the maximum or below the minimum
    of the aggregate. *)
Definition within (agg : Value) (v : float) : Prop :=
  (v_max agg <? v)%float = false /\ (v <? v_min agg)%float = false.

(** A store that keeps the chunks written to it; a chunk lands at the
    number of bytes written before it. *)
Definition log_write (disk : list (list byte)) (chunk : list byte)
    : list (list byte) * res error Z :=
  (disk ++ [chunk], Ok (Z.of_nat (length (concat disk)))).

(** The keys of the pointers of a node, in order. *)
Definition keys (ptrs : list nodePointer) : list Z := np_key <$> ptrs.

(** What [decodeNodePointer] needs to give a pointer back: key and
    position in the range of [int64], every count in the range of
    [uint16], and every metric name shorter than 2^16 bytes, the most
    its length prefix can tell.  The size of the whole pointer is not
    limited. *)
Definition pointer_in_range (np : nodePointer) : Prop :=
  in_int64 (np_key np) = true /\ in_int64 (np_pos np) = true /\
  Forall entry_fits (map_to_list (np_value np)).

(** [entry_fits], computed. *)
Definition entry_fitsb (kv : string * Value) : bool :=
  (Z.of_nat (length (list_byte_of_string (fst kv))) <? 2 ^ 16) &&
  in_uint16 (v_count (snd kv)).

(** The pointer of [wide_pointer_node]: 1425 cached metrics, 65566
    bytes when encoded. *)
Definition wide_pointer : nodePointer :=
  MkNodePointer 0 0 None
    (list_to_map ((fun i => (metric_name i, MkValue 1 1 1 1 1 1)) <$> seq 0 1425)).

(** The larger of an aggregate's maximum and a value, as both branches
    of [reduce] take it: the value wins only when it is strictly above. *)
Definition raise (m v : float) : float := if (m <? v)%float then v else m.

(** The smaller of a minimum and a value. *)
Definition lower (m v : float) : float := if (v <? m)%float then v else m.

(** The value of metric [k] at the final point of a leaf, if that point
    carries the metric. *)
Definition final_value (k : string) (pts : list Point) : option float :=
  last pts ≫= (fun p => p_Value p !! k).

(** The cached aggregates of metric [k], pointer by pointer. *)
Definition cached (k : string) (ptrs : list nodePointer) : list Value :=
  omap (fun p => np_value p !! k) ptrs.

(** The cached aggregate of metric [k] at the final pointer, if any. *)
Definition final_cached (k : string) (ptrs : list nodePointer) : option Value :=
  last ptrs ≫= (fun p => np_value p !! k).

(** The children behind the pointers of a node. *)
Definition children (n : node) : list node := omap np_pointer (pointers n).

(** [interior_1_5] after [reduce]: the dirty pointer, the first one, has
    its child's aggregate cached. *)
Definition interior_1_5_reduced : node :=
  MkNode LevelDay false 0
    [MkNodePointer 1 0
       (Some (MkNode LevelHour true 0 [] [MkPoint 1 {[ "x"%string := 1%float ]}]))
       {[ "x"%string := MkValue 1 1 1 1 1 1 ]};
     MkNodePointer 2 0 None {[ "x"%string := MkValue 5 5 5 5 5 1 ]}]
    [].

(** An outcome that is a value or a panic: no error, no endless loop. *)
Definition settled {E A : Type} (P : A -> Prop) (r : res E A) : Prop :=
  match r with
  | Ok a => P a
  | Panic => True
  | _ => False
  end.

(** The position that [flush] hands back for a write: the one the store
    reports, and 0 when the write failed. *)
Definition written_pos (r : res error Z) : Z :=
  match r with
  | Ok pos => pos
  | _ => 0
  end.

(** In the store [disk] of [log_write], the chunk [bytes] starts at the
    byte offset [pos]. *)
Definition stored_at (disk : list (list byte)) (pos : Z) (bytes : list byte) : Prop :=
  exists before after,
    disk = before ++ bytes :: after /\ pos = Z.of_nat (length (concat before)).

(** The leaf that [expand] makes for one point of a node of level
    [lvl]. *)
Definition expanded_leaf (lvl : Z) (point : Point) : node :=
  MkNode (uint16 (Z.shiftl lvl 1)) true 0 [] [point].

End StorageMore.

(* ===================================================================== *)
(** * Properties of the runtime pieces                                    *)
(* ===================================================================== *)

Module GoFacts.

Lemma shiftr1_mid (i j : Z) : i < j -> i <= Z.shiftr (i + j) 1 < j.
Proof.
  intros Hij. rewrite Z.shiftr_div_pow2 by lia. change (2 ^ 1) with 2.
  Z.div_mod_to_equations. lia.
Qed.

Lemma search_go_range (turns : nat) (f : Z -> bool) (i j : Z) :
  i <= j -> i <= search_go turns f i j <= j.
Proof.
  revert i j. induction turns as [|turns IH]; intros i j Hij; simpl; [lia|].
  destruct (Z.ltb_spec i j) as [Hlt|]; [|lia].
  pose proof (shiftr1_mid i j Hlt) as Hh.
  destruct (f _); simpl.
  - specialize (IH i (Z.shiftr (i + j) 1) ltac:(lia)). lia.
  - specialize (IH (Z.shiftr (i + j) 1 + 1) j ltac:(lia)). lia.
Qed.

Lemma Search_range (n : Z) (f : Z -> bool) : 0 <= n -> 0 <= Search n f <= n.
Proof. intros Hn. apply search_go_range. exact Hn. Qed.

(** When the predicate holds nowhere, the search runs off the end. *)
Lemma search_go_all_false (turns : nat) (f : Z -> bool) (i j : Z) :
  i <= j -> (Z.to_nat (j - i) <= turns)%nat ->
  (forall h, i <= h < j -> f h = false) ->
  search_go turns f i j = j.
Proof.
  revert i j. induction turns as [|turns IH]; intros i j Hij Hturns Hf; simpl.
  - lia.
  - destruct (Z.ltb_spec i j) as [Hlt|]; [|lia].
    pose proof (shiftr1_mid i j Hlt) as Hh.
    rewrite Hf by lia. simpl.
    apply IH; [lia|lia|]. intros h Hrange. apply Hf. lia.
Qed.

Lemma Search_all_false (n : Z) (f : Z -> bool) :
  0 <= n -> (forall h, 0 <= h < n -> f h = false) -> Search n f = n.
Proof.
  intros Hn Hf. unfold Search. apply search_go_all_false; [lia|lia|exact Hf].
Qed.

(** On a predicate that, once true, stays true, the search returns the
    first index at which it holds. *)
Lemma search_go_first_true (turns : nat) (f : Z -> bool) :
  forall i j,
    i <= j -> (Z.to_nat (j - i) <= turns)%nat ->
    (forall a b, i <= a <= b -> b < j -> f a = true -> f b = true) ->
    i <= search_go turns f i j <= j /\
    (forall h, i <= h < search_go turns f i j -> f h = false) /\
    (forall h, search_go turns f i j <= h < j -> f h = true).
Proof.
  induction turns as [|turns IH]; intros i j Hij Hturns Hmono; simpl.
  - repeat split; intros; lia.
  - destruct (Z.ltb_spec i j) as [Hlt|]; [|repeat split; intros; lia].
    pose proof (shiftr1_mid i j Hlt) as Hh.
    set (h := Z.shiftr (i + j) 1) in *.
    destruct (f h) eqn:Hfh; simpl.
    + destruct (IH i h ltac:(lia) ltac:(lia)) as (Hr & Hlow & Hhigh).
      { intros a b Hab Hb. apply Hmono; lia. }
      repeat split; try lia; [exact Hlow|].
      intros x Hx. destruct (Z_lt_le_dec x h); [apply Hhigh; lia|].
      apply (Hmono h x); [lia|lia|exact Hfh].
    + destruct (IH (h + 1) j ltac:(lia) ltac:(lia)) as (Hr & Hlow & Hhigh).
      { intros a b Hab Hb. apply Hmono; lia. }
      repeat split; try lia; [|exact Hhigh].
      intros x Hx. destruct (Z_lt_le_dec x (h + 1)); [|apply Hlow; lia].
      destruct (f x) eqn:Hfx; [|reflexivity].
      rewrite <- Hfh. symmetry. apply (Hmono x h); [lia|lia|exact Hfx].
Qed.

End GoFacts.

(* ===================================================================== *)
(** * Properties of storage/node.go                                       *)
(* ===================================================================== *)

Module StorageFacts.
Import Storage GoFacts.

(* --------------------------------------------------------------------- *)
(** ** The order on binary64 floats                                       *)
(* --------------------------------------------------------------------- *)

Lemma SFltb_irrefl (x : spec_float) : SFltb x x = false.
Proof.
  unfold SFltb. destruct x as [s|s| |s m e]; simpl; try reflexivity.
  - destruct s; reflexivity.
  - destruct s; rewrite Z.compare_refl; fold (Pos.compare m m);
      rewrite Pos.compare_refl; reflexivity.
Qed.

Lemma SFltb_trans (x y z : spec_float) :
  SFltb x y = true -> SFltb y z = true -> SFltb x z = true.
Proof.
  unfold SFltb.
  destruct x as [sx|sx| |sx mx ex], y as [sy|sy| |sy my ey], z as [sz|sz| |sz mz ez];
    simpl; try discriminate; try reflexivity;
    try (destruct sx, sy, sz; simpl; discriminate || reflexivity);
    try (destruct sx, sy; simpl; discriminate || reflexivity);
    try (destruct sy, sz; simpl; discriminate || reflexivity);
    try (destruct sx, sz; simpl; discriminate || reflexivity).
  fold (Pos.compare mx my) (Pos.compare my mz) (Pos.compare mx mz).
  destruct sx, sy, sz; simpl; try discriminate; try reflexivity;
    destruct (Z.compare_spec ex ey), (Z.compare_spec ey ez), (Z.compare_spec ex ez);
    try discriminate; try reflexivity; try lia;
    destruct (Pos.compare_spec mx my), (Pos.compare_spec my mz), (Pos.compare_spec mx mz);
    simpl; try discriminate; try reflexivity; lia.
Qed.

Lemma ltb_irrefl (x : float) : (x <? x)%float = false.
Proof. rewrite ltb_spec. apply SFltb_irrefl. Qed.

Lemma ltb_trans (x y z : float) :
  (x <? y)%float = true -> (y <? z)%float = true -> (x <? z)%float = true.
Proof. rewrite !ltb_spec. apply SFltb_trans. Qed.

(* --------------------------------------------------------------------- *)
(** ** Ranging over a map                                                 *)
(* --------------------------------------------------------------------- *)

Section RangeFold.

Context {V A : Type}.
Variable f : gmap string A -> string * V -> gmap string A.
Variable g : option A -> V -> A.
Hypothesis f_lookup : forall value k v k',
  f value (k, v) !! k' = if decide (k = k') then Some (g (value !! k) v) else value !! k'.

(** A fold whose step only touches the entry of its own key reads, at
    every key, as one step at most; the order of the entries plays no
    part as long as no key comes twice. *)
Lemma fold_entries_lookup (entries : list (string * V)) (value : gmap string A) (k : string) :
  NoDup entries.*1 ->
  fold_left f entries value !! k =
  match (list_to_map entries : gmap string V) !! k with
  | Some v => Some (g (value !! k) v)
  | None => value !! k
  end.
Proof.
  revert value. induction entries as [|[k0 v0] entries IH]; intros value Hnd; simpl.
  - reflexivity.
  - inversion Hnd as [|? ? Hnotin Hnd']; subst.
    rewrite IH by assumption. rewrite !f_lookup.
    destruct (decide (k0 = k)) as [->|Hne].
    + rewrite lookup_insert_eq.
      rewrite (not_elem_of_list_to_map_1 (M:=gmap string)) by assumption. reflexivity.
    + rewrite lookup_insert_ne by assumption. reflexivity.
Qed.

Lemma fold_map_lookup (m : gmap string V) (value : gmap string A) (k : string) :
  fold_left f (map_to_list m) value !! k =
  match m !! k with
  | Some v => Some (g (value !! k) v)
  | None => value !! k
  end.
Proof.
  rewrite fold_entries_lookup by apply NoDup_fst_map_to_list.
  rewrite list_to_map_to_list. reflexivity.
Qed.

Lemma fold_any_order (m : gmap string V) (entries : list (string * V))
    (value : gmap string A) :
  entries ≡ₚ map_to_list m ->
  fold_left f entries value = fold_left f (map_to_list m) value.
Proof.
  intros Hperm. apply map_eq. intros k.
  rewrite fold_map_lookup, fold_entries_lookup.
  - rewrite (list_to_map_proper (M:=gmap string) entries (map_to_list m)).
    + rewrite list_to_map_to_list. reflexivity.
    + rewrite Hperm. apply NoDup_fst_map_to_list.
    + exact Hperm.
  - rewrite Hperm. apply NoDup_fst_map_to_list.
Qed.

End RangeFold.

(* --------------------------------------------------------------------- *)
(** ** reduce on a leaf                                                   *)
(* --------------------------------------------------------------------- *)

Lemma leaf_entry_lookup (is_last : bool) (value : gmap string Value)
    (k : string) (v : float) (k' : string) :
  leaf_entry is_last value (k, v) !! k' =
  if decide (k = k')
  then Some match value !! k with
            | None => spec_first v
            | Some vk => leaf_update is_last vk v
            end
  else value !! k'.
Proof.
  unfold leaf_entry.
  destruct (value !! k) eqn:Hk; destruct (decide (k = k')) as [->|Hne];
    rewrite ?lookup_insert_eq, ?lookup_insert_ne by assumption; reflexivity.
Qed.

(** The ranging order over a point's metrics does not matter. *)
Lemma leaf_point_any_order (is_last : bool) (value : gmap string Value)
    (m : gmap string float) (entries : list (string * float)) :
  entries ≡ₚ map_to_list m ->
  leaf_point is_last value entries = leaf_point is_last value (map_to_list m).
Proof.
  intros Hperm. unfold leaf_point.
  apply (fold_any_order _
           (fun o v => match o with
                       | None => spec_first v
                       | Some vk => leaf_update is_last vk v
                       end)); [|exact Hperm].
  intros. apply leaf_entry_lookup.
Qed.

Lemma spec_first_min_below_max (v : float) : min_below_max (spec_first v).
Proof. left. reflexivity. Qed.

(** Under [min_below_max] a value above the maximum is never below the
    minimum, so the [else if] of the source loses nothing. *)
Lemma leaf_update_spec (is_last : bool) (vk : Value) (v : float) :
  min_below_max vk -> leaf_update is_last vk v = spec_next is_last vk v.
Proof.
  intros Hinv. unfold leaf_update, spec_next. f_equal.
  destruct (v_max vk <? v)%float eqn:Hmax; [|reflexivity].
  destruct (v <? v_min vk)%float eqn:Hmin; [|reflexivity].
  exfalso. destruct Hinv as [Heq|Hlt].
  - rewrite Heq in Hmin.
    pose proof (ltb_trans _ _ _ Hmax Hmin) as H. rewrite ltb_irrefl in H. discriminate.
  - pose proof (ltb_trans _ _ _ (ltb_trans _ _ _ Hmin Hlt) Hmax) as H.
    rewrite ltb_irrefl in H. discriminate.
Qed.

Lemma leaf_update_min_below_max (is_last : bool) (vk : Value) (v : float) :
  min_below_max vk -> min_below_max (leaf_update is_last vk v).
Proof.
  intros Hinv. unfold min_below_max, leaf_update in *. simpl.
  destruct (v_max vk <? v)%float eqn:Hmax.
  - right. destruct Hinv as [Heq|Hlt]; [now rewrite Heq|].
    exact (ltb_trans _ _ _ Hlt Hmax).
  - destruct (v <? v_min vk)%float eqn:Hmin; [|exact Hinv].
    right. destruct Hinv as [Heq|Hlt]; [now rewrite <- Heq|].
    exact (ltb_trans _ _ _ Hmin Hlt).
Qed.

Lemma leaf_points_lookup (k : string) (n_points : Z) (ps : list Point) :
  forall (index : Z) (value : gmap string Value),
    (forall vk, value !! k = Some vk -> min_below_max vk) ->
    leaf_points n_points index ps value !! k =
    spec_leaf_metric k n_points index ps (value !! k).
Proof.
  induction ps as [|p ps IH]; intros index value Hinv; simpl; [reflexivity|].
  assert (Hstep :
    leaf_point (index =? n_points - 1) value (map_to_list (p_Value p)) !! k =
    match p_Value p !! k with
    | None => value !! k
    | Some v => Some match value !! k with
                     | None => spec_first v
                     | Some a => spec_next (index =? n_points - 1) a v
                     end
    end).
  { unfold leaf_point.
    rewrite (fold_map_lookup _
               (fun o v => match o with
                           | None => spec_first v
                           | Some vk => leaf_update (index =? n_points - 1) vk v
                           end))
      by (intros; apply leaf_entry_lookup).
    destruct (p_Value p !! k) as [v|]; [|reflexivity].
    destruct (value !! k) as [vk|] eqn:Hk; [|reflexivity].
    rewrite leaf_update_spec by auto. reflexivity. }
  rewrite IH; [now rewrite Hstep|].
  intros vk. rewrite Hstep.
  destruct (p_Value p !! k) as [v|]; [|apply Hinv].
  destruct (value !! k) as [a|] eqn:Hk; intros [= <-].
  - rewrite <- leaf_update_spec by auto. apply leaf_update_min_below_max. auto.
  - apply spec_first_min_below_max.
Qed.

(** C5.  On a leaf, [reduce] leaves the node as it is and returns, for
    every metric, the fold of the specification over the points in
    order: the first point that carries the metric initialises sum, max,
    min, first and last with its value and the count with 1; each later
    one adds to the sum, raises the maximum when larger, lowers the
    minimum when smaller, adds one to the count and sets [last] when it is
    the final point; [first] is kept.  For the values 10, 20, 30 of "x":
    sum 60, max 30, min 10, first 10, last 30, count 3. *)
Theorem leaf_reduce_spec :
  (forall lvl d ptrs pts,
     exists value,
       reduce (MkNode lvl true d ptrs pts) = Some (MkNode lvl true d ptrs pts, value) /\
       forall k, value !! k =
                 spec_leaf_metric k (Z.of_nat (length pts)) 0 pts None) /\
  reduce leaf_10_20_30 =
    Some (leaf_10_20_30, {[ "x"%string := MkValue 60 30 10 10 30 3 ]}).
Proof.
  split.
  - intros lvl d ptrs pts. eexists. split; [reflexivity|].
    intros k. rewrite leaf_points_lookup.
    + rewrite lookup_empty. reflexivity.
    + intros vk. rewrite lookup_empty. discriminate.
  - vm_compute. reflexivity.
Qed.

(* --------------------------------------------------------------------- *)
(** ** reduce on an interior node                                         *)
(* --------------------------------------------------------------------- *)

Lemma update_at_lookup {A B : Type} (f : A -> option (A * B)) (l : list A) (i : nat) :
  update_at f l i =
  match l !! i with
  | None => None
  | Some x =>
      match f x with
      | Some (x', b) => Some (<[i := x']> l, b)
      | None => None
      end
  end.
Proof.
  revert i. induction l as [|x l IH]; intros [|i]; try reflexivity.
  change (update_at f (x :: l) (S i)) with
    (match update_at f l i with Some (l'', b) => Some (x :: l'', b) | None => None end).
  rewrite IH. change ((x :: l) !! S i) with (l !! i).
  destruct (l !! i) as [y|]; [|reflexivity].
  destruct (f y) as [[y' b]|]; reflexivity.
Qed.

Lemma at_index_Some {A : Type} (l : list A) (i : Z) (x : A) :
  at_index l i = Some x -> 0 <= i < Z.of_nat (length l) /\ l !! Z.to_nat i = Some x.
Proof.
  unfold at_index. destruct (Z.ltb_spec i 0); [discriminate|].
  intros Hx. split; [|exact Hx]. apply lookup_lt_Some in Hx. lia.
Qed.

Lemma at_index_None {A : Type} (l : list A) (i : Z) :
  at_index l i = None <-> ~ 0 <= i < Z.of_nat (length l).
Proof.
  unfold at_index. destruct (Z.ltb_spec i 0); [split; [lia|reflexivity]|].
  rewrite lookup_ge_None. lia.
Qed.

(** The interior step as the source reads: reduce the child behind
    [n.pointers[n.dirty]], store the result as that pointer's cached
    value, then fold over the cached values of all the pointers. *)
Lemma reduce_interior (lvl d : Z) (ptrs : list nodePointer) (pts : list Point) :
  reduce (MkNode lvl false d ptrs pts) =
  match at_index ptrs d with
  | None => None
  | Some p =>
      match np_pointer p with
      | None => None
      | Some child =>
          match reduce child with
          | None => None
          | Some (child', v) =>
              let ptrs' :=
                <[Z.to_nat d := MkNodePointer (np_key p) (np_pos p) (Some child') v]> ptrs in
              Some (MkNode lvl false d ptrs' pts,
                    interior_pointers (Z.of_nat (length ptrs')) 0 ptrs' ∅)
          end
      end
  end.
Proof.
  cbn [reduce]. rewrite update_at_lookup. unfold at_index.
  destruct (d <? 0); [reflexivity|].
  destruct (ptrs !! Z.to_nat d) as [p|]; [|reflexivity].
  destruct (np_pointer p) as [child|]; [|reflexivity].
  destruct (reduce child) as [[child' v]|]; reflexivity.
Qed.

(** C2.  The interior fold compares the running minimum with the child's
    minimum the wrong way round: it keeps the larger of the two.  On
    [interior_1_5] the children's minima are 1 and 5 and the node's
    minimum comes out as 5; sum, max and count are as claimed. *)
Theorem interior_reduce_keeps_larger_min :
  (forall is_last vk v,
     v_min (interior_update is_last vk v) =
     if (v_min vk <? v_min v)%float then v_min v else v_min vk) /\
  snd <$> reduce interior_1_5 = Some {[ "x"%string := MkValue 6 5 5 1 5 2 ]}.
Proof. split; [reflexivity|]. vm_compute. reflexivity. Qed.

(* --------------------------------------------------------------------- *)
(** ** Insertion                                                          *)
(* --------------------------------------------------------------------- *)

(** Making room at [index] and storing [x] there is list insertion. *)
Lemma insert_append_copy {A : Type} (l : list A) (zero x : A) (index : nat) :
  (index <= length l)%nat ->
  <[index := x]> (append_copy l zero index) = take index l ++ x :: drop index l.
Proof.
  intros Hle. unfold append_copy.
  rewrite <- (take_drop index l) at 1 2 3.
  assert (Hlen : length (take index l) = index) by (rewrite length_take; lia).
  set (l1 := take index l) in *. set (l2 := drop index l) in *.
  rewrite <- app_assoc.
  rewrite !length_app. simpl.
  destruct l2 as [|y l2]; simpl.
  - rewrite (take_ge (l1 ++ [zero])) by (rewrite length_app; simpl; lia).
    rewrite (drop_app_length' l1 [zero] index) by lia.
    replace (length l1 + 1 - S index)%nat with 0%nat by lia. simpl.
    rewrite app_nil_r.
    rewrite insert_app_r_alt by lia.
    replace (index - length l1)%nat with 0%nat by lia. reflexivity.
  - replace (S index) with (length l1 + 1)%nat by lia.
    rewrite take_app_add' by reflexivity. simpl.
    rewrite (drop_app_length' l1 (y :: l2 ++ [zero]) index) by lia.
    replace (length l1 + S (length l2 + 1) - (length l1 + 1))%nat
      with (S (length l2)) by lia.
    simpl. rewrite take_app_length.
    rewrite <- app_assoc. rewrite insert_app_r_alt by lia.
    replace (index - length l1)%nat with 0%nat by lia. reflexivity.
Qed.

Lemma geb_false_lt (a b : Z) : a < b -> (a >=? b) = false.
Proof. intros Hlt. rewrite Z.geb_leb. apply Z.leb_gt. exact Hlt. Qed.

Lemma at_index_in_range {A : Type} (l : list A) (i : Z) :
  0 <= i < Z.of_nat (length l) -> exists x, at_index l i = Some x /\ x ∈ l.
Proof.
  intros Hi. unfold at_index. destruct (Z.ltb_spec i 0); [lia|].
  destruct (lookup_lt_is_Some_2 l (Z.to_nat i) ltac:(lia)) as [x Hx].
  exists x. split; [exact Hx|]. eapply list_elem_of_lookup_2. exact Hx.
Qed.

(** A timestamp above every point of the leaf (no point at all
    included) sends [insertPoint] past the end of [n.points]. *)
Lemma insertPoint_past_the_end (n : node) (t : Time) (value : gmap string float) :
  (forall p, p ∈ points n -> Timestamp p < TS t) ->
  insertPoint n t value = Panic.
Proof.
  intros Hall. unfold insertPoint.
  rewrite Search_all_false.
  - assert (Hnone : at_index (points n) (Z.of_nat (length (points n))) = None)
      by (apply at_index_None; lia).
    rewrite Hnone. reflexivity.
  - lia.
  - intros h Hh. destruct (at_index_in_range (points n) h Hh) as (p & -> & Hin).
    apply geb_false_lt. auto.
Qed.

Lemma strictly_sorted_insert (l : list Z) (index : nat) (x : Z) :
  (index <= length l)%nat ->
  strictly_sorted l ->
  (forall i a, (i < index)%nat -> l !! i = Some a -> a < x) ->
  (forall i a, (index <= i)%nat -> l !! i = Some a -> x < a) ->
  strictly_sorted (take index l ++ x :: drop index l).
Proof.
  intros Hindex Hsorted Hbefore Hafter i j a b Hij Ha Hb.
  assert (Htake : length (take index l) = index) by (rewrite length_take; lia).
  assert (Hget : forall k c, (take index l ++ x :: drop index l) !! k = Some c ->
                  ((k < index)%nat /\ l !! k = Some c) \/
                  (k = index /\ c = x) \/
                  ((index < k)%nat /\ l !! (k - 1)%nat = Some c)).
  { intros k c Hk. apply lookup_app_Some in Hk as [Hk|[Hge Hk]].
    - left. apply lookup_take_Some in Hk. tauto.
    - rewrite Htake in Hge, Hk.
      destruct (k - index)%nat as [|k'] eqn:Hk'; simpl in Hk.
      + right. left. split; [lia|congruence].
      + right. right. rewrite lookup_drop in Hk. split; [lia|].
        replace (k - 1)%nat with (index + k')%nat by lia. exact Hk. }
  destruct (Hget i a Ha) as [[Hi Ha']|[[Hi ->]|[Hi Ha']]];
    destruct (Hget j b Hb) as [[Hj Hb']|[[Hj ->]|[Hj Hb']]]; try lia.
  - apply (Hsorted i j); [lia|exact Ha'|exact Hb'].
  - apply (Hbefore i); assumption.
  - assert (x < b) by (eapply Hafter; [|exact Hb']; lia).
    assert (a < x) by (eapply Hbefore; [|exact Ha']; lia). lia.
  - eapply Hafter; [|exact Hb']. lia.
  - eapply (Hsorted _ _ a b); [|exact Ha'|exact Hb']. lia.
Qed.

Lemma strictly_sorted_same (l l' : list Z) :
  l' = l -> strictly_sorted l -> strictly_sorted l'.
Proof. intros ->. exact id. Qed.

(** What [insertPoint] does when the search stays inside the leaf: on a
    leaf whose timestamps increase strictly and hold one that is not
    below [t.TS], an exact match has its value map overwritten and any
    other timestamp gets a new point; the timestamps still increase
    strictly afterwards. *)
Lemma insertPoint_in_range (n : node) (t : Time) (value : gmap string float) :
  strictly_sorted (Timestamp <$> points n) ->
  (exists p, p ∈ points n /\ TS t <= Timestamp p) ->
  exists n' index,
    insertPoint n t value = Ok n' /\
    points n' !! index = Some (MkPoint (TS t) value) /\
    strictly_sorted (Timestamp <$> points n') /\
    ((exists p, p ∈ points n /\ Timestamp p = TS t) ->
       points n' = <[index := MkPoint (TS t) value]> (points n)) /\
    ((forall p, p ∈ points n -> Timestamp p <> TS t) ->
       points n' = take index (points n) ++ MkPoint (TS t) value :: drop index (points n)).
Proof.
  intros Hsorted (q & Hq & Hqge).
  unfold insertPoint.
  set (f := fun i => match at_index (points n) i with
                     | Some p => Timestamp p >=? TS t
                     | None => false
                     end).
  set (size := Z.of_nat (length (points n))).
  assert (Hf : forall i p, points n !! i = Some p -> f (Z.of_nat i) = (Timestamp p >=? TS t)).
  { intros i p Hp. subst f. cbv beta. unfold at_index.
    destruct (Z.ltb_spec (Z.of_nat i) 0); [lia|]. rewrite Nat2Z.id, Hp. reflexivity. }
  assert (Hmono : forall a b, 0 <= a <= b -> b < size -> f a = true -> f b = true).
  { intros a b Hab Hb Hfa.
    destruct (at_index_in_range (points n) a ltac:(lia)) as (pa & Hpa & _).
    destruct (at_index_in_range (points n) b ltac:(lia)) as (pb & Hpb & _).
    apply at_index_Some in Hpa as [_ Hpa]. apply at_index_Some in Hpb as [_ Hpb].
    pose proof (Hf _ _ Hpa) as Hfa'. pose proof (Hf _ _ Hpb) as Hfb'.
    rewrite Z2Nat.id in Hfa', Hfb' by lia.
    rewrite Hfb'. rewrite Hfa' in Hfa.
    rewrite Z.geb_leb in *. apply Z.leb_le in Hfa. apply Z.leb_le.
    destruct (Z.eq_dec a b) as [->|Hne]; [congruence|].
    assert (Timestamp pa < Timestamp pb); [|lia].
    apply (Hsorted (Z.to_nat a) (Z.to_nat b)); [lia| |];
      rewrite list_lookup_fmap; [rewrite Hpa|rewrite Hpb]; reflexivity. }
  destruct (search_go_first_true (Z.to_nat size) f 0 size ltac:(lia) ltac:(lia) Hmono)
    as (Hrange & Hlow & Hhigh).
  fold (Search size f) in Hrange, Hlow, Hhigh.
  set (index := Search size f) in *.
  assert (Hlt : index < size).
  { apply list_elem_of_lookup in Hq as [iq Hiq].
    pose proof (lookup_lt_Some _ _ _ Hiq) as Hiqlt.
    destruct (Z_lt_le_dec index size) as [|Hge]; [assumption|].
    pose proof (Hlow (Z.of_nat iq) ltac:(lia)) as Hfalse.
    rewrite (Hf _ _ Hiq), Z.geb_leb in Hfalse. apply Z.leb_gt in Hfalse. lia. }
  destruct (at_index_in_range (points n) index ltac:(lia)) as (p & Hp & Hpin).
  rewrite Hp. cbn [must mbind res_bind].
  pose proof Hp as Hp'. apply at_index_Some in Hp' as [_ Hp'].
  assert (Hpge : TS t <= Timestamp p).
  { pose proof (Hhigh index ltac:(lia)) as Htrue.
    pose proof (Hf _ _ Hp') as Hfp. rewrite Z2Nat.id in Hfp by lia.
    rewrite Hfp, Z.geb_leb in Htrue. apply Z.leb_le in Htrue. exact Htrue. }
  assert (Hbefore : forall i a, (i < Z.to_nat index)%nat ->
                      (Timestamp <$> points n) !! i = Some a -> a < TS t).
  { intros i a Hi Ha. rewrite list_lookup_fmap in Ha.
    destruct (points n !! i) as [pi|] eqn:Hpi; [|discriminate]. injection Ha as <-.
    pose proof (Hlow (Z.of_nat i) ltac:(lia)) as Hfalse.
    rewrite (Hf _ _ Hpi), Z.geb_leb in Hfalse. apply Z.leb_gt in Hfalse. exact Hfalse. }
  assert (Hindex : (Z.to_nat index < length (points n))%nat) by lia.
  destruct (Z.eqb_spec (Timestamp p) (TS t)) as [Heq|Hne].
  - exists (set_points n (<[Z.to_nat index := MkPoint (Timestamp p) value]> (points n))),
      (Z.to_nat index).
    cbn [points set_points]. rewrite Heq.
    split; [reflexivity|]. split; [apply list_lookup_insert_eq; exact Hindex|].
    split.
    + eapply strictly_sorted_same; [|exact Hsorted].
      rewrite list_fmap_insert. cbn [Timestamp].
      apply list_insert_id. rewrite list_lookup_fmap, Hp'. simpl. congruence.
    + split; [reflexivity|]. intros Hnone. exfalso. exact (Hnone p Hpin Heq).
  - exists (set_points n (<[Z.to_nat index := MkPoint (TS t) value]>
                           (append_copy (points n) (MkPoint 0 ∅) (Z.to_nat index)))),
      (Z.to_nat index).
    cbn [points set_points]. rewrite insert_append_copy by lia.
    split; [reflexivity|].
    split.
    { rewrite lookup_app_r by (rewrite length_take; lia).
      rewrite length_take. replace (Z.to_nat index - _)%nat with 0%nat by lia. reflexivity. }
    split.
    + rewrite fmap_app, fmap_cons, fmap_take, fmap_drop. cbn [Timestamp].
      apply strictly_sorted_insert.
      * rewrite length_fmap. lia.
      * exact Hsorted.
      * exact Hbefore.
      * intros i a Hi Ha.
        assert (Timestamp p <= a); [|lia].
        destruct (decide (i = Z.to_nat index)) as [->|Hdiff].
        -- rewrite list_lookup_fmap, Hp' in Ha. simpl in Ha. injection Ha as <-. lia.
        -- assert (Timestamp p < a); [|lia].
           apply (Hsorted (Z.to_nat index) i); [lia| |exact Ha].
           rewrite list_lookup_fmap, Hp'. reflexivity.
    + split; [|reflexivity].
      intros (p' & Hin' & Heq'). exfalso.
      apply list_elem_of_lookup in Hin' as [i' Hi'].
      destruct (Nat.lt_trichotomy i' (Z.to_nat index)) as [Hlt'|[->|Hgt']].
      * pose proof (Hbefore i' (Timestamp p') Hlt') as H.
        rewrite list_lookup_fmap, Hi' in H. specialize (H eq_refl). lia.
      * congruence.
      * assert (Timestamp p < Timestamp p'); [|lia].
        apply (Hsorted (Z.to_nat index) i'); [lia| |];
          rewrite list_lookup_fmap; [rewrite Hp'|rewrite Hi']; reflexivity.
Qed.

(** C3.  [insertPoint] is not total: on a leaf without points it panics
    for every timestamp and value, and so it does on the three-point leaf
    for a timestamp above its last one.  [n.points[index]] is read with
    [index = len(n.points)]. *)
Theorem insertPoint_panics :
  (forall lvl leaf d ptrs t value,
     insertPoint (MkNode lvl leaf d ptrs []) t value = Panic) /\
  insertPoint leaf_10_20_30 (MkTime 4 LevelMinute) {[ "x"%string := 40%float ]} = Panic.
Proof.
  split.
  - intros. apply insertPoint_past_the_end. simpl. intros p Hin.
    apply elem_of_nil in Hin. destruct Hin.
  - vm_compute. reflexivity.
Qed.

Section InsertFacts.

Variable bucket : Time -> Z -> Z.

(** Whatever the branch, the new pointer sits at the index that
    [place_pointer] records as dirty. *)
Lemma place_pointer_spec (n : node) (t : Time) (child : node) :
  level (place_pointer bucket n t child) = level n /\
  isLeaf (place_pointer bucket n t child) = isLeaf n /\
  0 <= dirty (place_pointer bucket n t child)
    < Z.of_nat (length (pointers (place_pointer bucket n t child))) /\
  at_index (pointers (place_pointer bucket n t child))
           (dirty (place_pointer bucket n t child)) =
    Some (MkNodePointer (bucket t (uint16 (Z.shiftl (level n) 1))) 0 (Some child) ∅).
Proof.
  unfold place_pointer.
  set (size := Z.of_nat (length (pointers n))).
  set (index := Search size _).
  assert (Hrange : 0 <= index <= size) by (apply Search_range; lia).
  set (np := MkNodePointer _ 0 (Some child) ∅).
  set (make_room := (_ || _ || _)%bool).
  assert (Hroom : make_room = false -> index < size).
  { subst make_room. intros H.
    apply orb_false_iff in H as [H _]. apply orb_false_iff in H as [_ H].
    rewrite Z.geb_leb in H. apply Z.leb_gt in H. exact H. }
  cbn [level isLeaf dirty pointers set_dirty set_pointers].
  split; [reflexivity|]. split; [reflexivity|].
  unfold at_index. destruct (Z.ltb_spec index 0); [lia|].
  destruct make_room.
  - rewrite insert_append_copy by lia.
    rewrite length_app, length_take. simpl. rewrite length_drop.
    split; [lia|].
    rewrite lookup_app_r by (rewrite length_take; lia).
    rewrite length_take.
    replace (Z.to_nat index - Z.to_nat index `min` length (pointers n))%nat
      with 0%nat by lia.
    reflexivity.
  - specialize (Hroom eq_refl). rewrite length_insert.
    split; [lia|]. apply list_lookup_insert_eq. lia.
Qed.

(** A call that returns has placed a pointer: the dirty index is in
    range afterwards. *)
Lemma insertNode_sets_dirty (depth : nat) (n : node) (t : Time)
    (value : gmap string float) (n' : node) :
  insertNode bucket depth n t value = Ok n' ->
  0 <= dirty n' < Z.of_nat (length (pointers n')).
Proof.
  destruct depth as [|depth]; simpl;
    destruct (negb _); try discriminate;
    destruct (_ =? _); try discriminate.
  - intros [= <-]. apply place_pointer_spec.
  - intros [= <-]. apply place_pointer_spec.
  - destruct (insertNode bucket depth _ t value); simpl; try discriminate.
    intros [= <-]. apply place_pointer_spec.
Qed.

(** With a level of at least one the levels double on the way down and
    overtake [t.Level()>>2] within [depth] calls. *)
Lemma insertNode_returns (depth : nat) (t : Time) (value : gmap string float) :
  0 <= Level t < 2 ^ 16 ->
  forall n, 0 < level n -> Z.shiftr (Level t) 2 < level n * 2 ^ Z.of_nat depth ->
            insertNode bucket depth n t value <> Spin.
Proof.
  intros HL.
  assert (Hq : 0 <= Z.shiftr (Level t) 2 < 2 ^ 14).
  { rewrite Z.shiftr_div_pow2 by lia. change (2 ^ 2) with 4. change (2 ^ 16) with 65536 in HL.
    change (2 ^ 14) with 16384. Z.div_mod_to_equations. lia. }
  induction depth as [|depth IH]; intros n Hpos Hbound; simpl.
  - change (2 ^ Z.of_nat 0) with 1 in Hbound.
    rewrite geb_false_lt by lia. simpl. discriminate.
  - destruct (Z.shiftr (Level t) 2 >=? level n) eqn:Hge; simpl; [|discriminate].
    destruct (Z.eqb_spec (Z.shiftr (Level t) 2) (level n)) as [|Hne]; [discriminate|].
    rewrite Z.geb_leb in Hge. apply Z.leb_le in Hge.
    assert (Hdouble : uint16 (Z.shiftl (level n) 1) = 2 * level n).
    { rewrite Z.shiftl_mul_pow2 by lia. unfold uint16, wrapU.
      change (2 ^ 1) with 2. change (2 ^ 14) with 16384 in Hq. change (2 ^ 16) with 65536.
      rewrite Z.mod_small; lia. }
    rewrite Nat2Z.inj_succ, Z.pow_succ_r in Hbound by lia.
    set (child := set_level newInteriorNode (uint16 (Z.shiftl (level n) 1))).
    assert (Hchild : level child = 2 * level n) by exact Hdouble.
    specialize (IH child ltac:(lia) ltac:(lia)).
    destruct (insertNode bucket depth child t value); simpl; congruence.
Qed.

(** A node of level zero, as [newInteriorNode] returns it, never gets
    below itself: the recursion goes on with level zero for ever. *)
Lemma insertNode_level_zero_spins (depth : nat) (t : Time) (value : gmap string float) :
  0 < Z.shiftr (Level t) 2 ->
  forall n, level n = 0 -> insertNode bucket depth n t value = Spin.
Proof.
  intros HL. induction depth as [|depth IH]; intros n Hn; simpl; rewrite Hn.
  - destruct (Z.geb_spec (Z.shiftr (Level t) 2) 0); [|lia]. simpl.
    destruct (Z.eqb_spec (Z.shiftr (Level t) 2) 0); [lia|reflexivity].
  - destruct (Z.geb_spec (Z.shiftr (Level t) 2) 0); [|lia]. simpl.
    destruct (Z.eqb_spec (Z.shiftr (Level t) 2) 0); [lia|].
    rewrite IH; reflexivity.
Qed.

Lemma insertNode_keeps_kind (depth : nat) (n : node) (t : Time)
    (value : gmap string float) (n' : node) :
  insertNode bucket depth n t value = Ok n' ->
  level n' = level n /\ isLeaf n' = isLeaf n.
Proof.
  destruct depth as [|depth]; simpl;
    destruct (negb _); try discriminate;
    destruct (_ =? _); try discriminate.
  - intros [= <-]. split; apply place_pointer_spec.
  - intros [= <-]. split; apply place_pointer_spec.
  - destruct (insertNode bucket depth _ t value); simpl; try discriminate.
    intros [= <-]. split; apply place_pointer_spec.
Qed.

(** C4, as the code has it.  The dispatch is on [t.Level()>>2], not on
    [t.Level()]: below [n.level] the assertion fails; equal to [n.level]
    a new leaf at level [n.level << 1] that holds the point is placed
    under [n]; above [n.level] a new interior node at level
    [n.level << 1] is built, the sample is inserted into it by the
    recursive call, and the result is placed under [n].  Whenever the call
    returns, [n.dirty] is the index of the pointer that changed.  From a
    level of at least one the recursion ends within 14 calls. *)
Theorem insertNode_dispatch (depth : nat) (n : node) (t : Time)
    (value : gmap string float) :
  let lvl' := uint16 (Z.shiftl (level n) 1) in
  let leafNode := MkNode lvl' true 0 [] [MkPoint (TS t) value] in
  let interiorNode := MkNode lvl' false (-1) [] [] in
  (Z.shiftr (Level t) 2 < level n -> insertNode bucket depth n t value = Panic) /\
  (Z.shiftr (Level t) 2 = level n ->
     exists n',
       insertNode bucket depth n t value = Ok n' /\
       0 <= dirty n' < Z.of_nat (length (pointers n')) /\
       at_index (pointers n') (dirty n') =
         Some (MkNodePointer (bucket t lvl') 0 (Some leafNode) ∅)) /\
  (level n < Z.shiftr (Level t) 2 ->
     insertNode bucket (S depth) n t value =
       (child ← insertNode bucket depth interiorNode t value;
        Ok (place_pointer bucket n t child)) /\
     forall n',
       insertNode bucket (S depth) n t value = Ok n' ->
       exists child,
         insertNode bucket depth interiorNode t value = Ok child /\
         isLeaf child = false /\ level child = lvl' /\
         0 <= dirty n' < Z.of_nat (length (pointers n')) /\
         at_index (pointers n') (dirty n') =
           Some (MkNodePointer (bucket t lvl') 0 (Some child) ∅)) /\
  (0 < level n -> 0 <= Level t < 2 ^ 16 ->
     insertNode bucket 14 n t value <> Spin).
Proof.
  intros lvl' leafNode interiorNode. repeat split.
  - intros Hlt. destruct depth; simpl; rewrite geb_false_lt by lia; reflexivity.
  - intros Heq.
    exists (place_pointer bucket n t leafNode).
    split; [|apply place_pointer_spec].
    destruct depth; simpl; rewrite Heq;
      (destruct (Z.geb_spec (level n) (level n)); [|lia]); simpl;
      rewrite Z.eqb_refl; reflexivity.
  - cbn [insertNode].
    destruct (Z.geb_spec (Z.shiftr (Level t) 2) (level n)); [|lia]. simpl.
    destruct (Z.eqb_spec (Z.shiftr (Level t) 2) (level n)); [lia|]. reflexivity.
  - intros n'. cbn [insertNode].
    destruct (Z.geb_spec (Z.shiftr (Level t) 2) (level n)); [|lia]. simpl.
    destruct (Z.eqb_spec (Z.shiftr (Level t) 2) (level n)); [lia|].
    fold interiorNode.
    change (set_level newInteriorNode (uint16 (Z.shiftl (level n) 1))) with interiorNode.
    destruct (insertNode bucket depth interiorNode t value) as [child| | |] eqn:Hchild;
      simpl; try discriminate.
    intros [= <-]. exists child.
    destruct (insertNode_keeps_kind _ _ _ _ _ Hchild) as [Hl Hk].
    split; [reflexivity|]. split; [exact Hk|]. split; [exact Hl|].
    apply place_pointer_spec.
  - intros Hpos HL. apply insertNode_returns; [exact HL|exact Hpos|].
    assert (0 <= Z.shiftr (Level t) 2 < 2 ^ 14).
    { rewrite Z.shiftr_div_pow2 by lia. change (2 ^ 2) with 4.
      change (2 ^ 16) with 65536 in HL. change (2 ^ 14) with 16384.
      Z.div_mod_to_equations. lia. }
    change (2 ^ Z.of_nat 14) with (2 ^ 14). lia.
Qed.

End InsertFacts.

(** C4, the claim as worded fails.  With [n.level = LevelRoot] a sample
    of level [LevelYear = n.level << 1] does not get its leaf: the
    assertion fails.  A sample of level [LevelMonth], which is not
    [n.level << 1], does get a leaf at level [LevelYear] directly under
    [n]. *)
Lemma insertNode_level_claim_fails :
  (Level (MkTime 5 LevelYear) >= level root_node /\
   Level (MkTime 5 LevelYear) = Z.shiftl (level root_node) 1 /\
   insertNode no_truncation 14 root_node (MkTime 5 LevelYear) ∅ = Panic) /\
  (Level (MkTime 5 LevelMonth) >= level root_node /\
   Level (MkTime 5 LevelMonth) <> Z.shiftl (level root_node) 1 /\
   insertNode no_truncation 14 root_node (MkTime 5 LevelMonth) ∅ =
     Ok (MkNode LevelRoot false 0
           [MkNodePointer 5 0 (Some (MkNode LevelYear true 0 [] [MkPoint 5 ∅])) ∅] [])).
Proof.
  repeat split; try (vm_compute; congruence).
Qed.

(** A sample of level [LevelHour] under the root: two interior nodes,
    then the leaf at level [LevelDay]. *)
Example insertNode_hour_under_root :
  insertNode no_truncation 14 root_node (MkTime 5 LevelHour) ∅ =
    Ok (MkNode LevelRoot false 0
          [MkNodePointer 5 0
             (Some (MkNode LevelYear false 0
                      [MkNodePointer 5 0
                         (Some (MkNode LevelMonth false 0
                                  [MkNodePointer 5 0
                                     (Some (MkNode LevelDay true 0 [] [MkPoint 5 ∅])) ∅]
                                  [])) ∅]
                      [])) ∅]
          []).
Proof. vm_compute. reflexivity. Qed.

(** [node.put] at work, first with the receiver as the root of the
    database: the first insert into an empty leaf panics; on the
    three-point leaf an insert at the timestamp 2 replaces the value map
    of that point and adds no point; under the empty root a sample of
    level [LevelMonth] gets its leaf and the root's dirty pointer caches
    the leaf's aggregate.  Last, the three-point leaf behind the only
    pointer of a root whose dirty index is still -1: the insertion
    succeeds and [reduce] on the root panics. *)
Example put_examples :
  put no_truncation id 14 (MkNode LevelHour true 0 [] []) (MkTime 1 LevelMinute)
      {[ "x"%string := 1%float ]} = Panic /\
  points <$> put no_truncation id 14 leaf_10_20_30 (MkTime 2 LevelMinute)
                 {[ "x"%string := 25%float ]} =
    Ok [MkPoint 1 {[ "x"%string := 10%float ]};
        MkPoint 2 {[ "x"%string := 25%float ]};
        MkPoint 3 {[ "x"%string := 30%float ]}] /\
  put no_truncation id 14 root_node (MkTime 5 LevelMonth) {[ "x"%string := 25%float ]} =
    Ok (MkNode LevelRoot false 0
          [MkNodePointer 5 0
             (Some (MkNode LevelYear true 0 [] [MkPoint 5 {[ "x"%string := 25%float ]}]))
             {[ "x"%string := MkValue 25 25 25 25 25 1 ]}]
          []) /\
  put no_truncation
      (fun leaf => MkNode LevelDay false (-1) [MkNodePointer 1 0 (Some leaf) ∅] [])
      14 leaf_10_20_30 (MkTime 2 LevelMinute) {[ "x"%string := 25%float ]} = Panic.
Proof. repeat split; vm_compute; reflexivity. Qed.

(* --------------------------------------------------------------------- *)
(** ** The dirty index                                                    *)
(* --------------------------------------------------------------------- *)

Lemma flush_interior_in_range (encodePoint : Point -> list byte) (Disk : Type)
    (writeChunk : Disk -> list byte -> Disk * res error Z)
    (lvl d : Z) (ptrs : list nodePointer) (pts : list Point) (disk : Disk) :
  flush encodePoint Disk writeChunk (MkNode lvl false d ptrs pts) disk <> None ->
  0 <= d < Z.of_nat (length ptrs).
Proof.
  cbn [flush]. destruct (Z.ltb_spec d 0); [congruence|].
  rewrite update_at_lookup.
  destruct (ptrs !! Z.to_nat d) eqn:Hp; [|congruence].
  apply lookup_lt_Some in Hp. lia.
Qed.

Lemma reduce_interior_in_range (lvl d : Z) (ptrs : list nodePointer) (pts : list Point) :
  reduce (MkNode lvl false d ptrs pts) <> None -> 0 <= d < Z.of_nat (length ptrs).
Proof.
  rewrite reduce_interior.
  destruct (at_index ptrs d) eqn:Hp; [|congruence].
  apply at_index_Some in Hp. tauto.
Qed.

(** C10.  A node fresh from [newInteriorNode] has [dirty = -1] and no
    pointers.  On an interior node [reduce] and [flush] return only if
    [0 <= dirty < len(pointers)]; on the fresh node both panic.  A call
    of [insertNode] that returns leaves [dirty] inside the pointers. *)
Theorem dirty_index_precondition :
  (dirty newInteriorNode = -1 /\ pointers newInteriorNode = [] /\
   isLeaf newInteriorNode = false) /\
  (forall lvl d ptrs pts,
     reduce (MkNode lvl false d ptrs pts) <> None -> 0 <= d < Z.of_nat (length ptrs)) /\
  (forall encodePoint Disk writeChunk lvl d ptrs pts disk,
     flush encodePoint Disk writeChunk (MkNode lvl false d ptrs pts) disk <> None ->
     0 <= d < Z.of_nat (length ptrs)) /\
  reduce newInteriorNode = None /\
  (forall encodePoint Disk writeChunk disk,
     flush encodePoint Disk writeChunk newInteriorNode disk = None) /\
  (forall bucket depth n t value n',
     insertNode bucket depth n t value = Ok n' ->
     0 <= dirty n' < Z.of_nat (length (pointers n'))).
Proof.
  split; [repeat split|].
  split; [exact reduce_interior_in_range|].
  split; [exact flush_interior_in_range|].
  split; [reflexivity|].
  split; [reflexivity|].
  exact insertNode_sets_dirty.
Qed.

End StorageFacts.

(* ===================================================================== *)
(** * Properties of the binary encoding                                   *)
(* ===================================================================== *)

Module CodecFacts.
Import Storage GoFacts StorageFacts.

(* --------------------------------------------------------------------- *)
(** ** Bytes and fixed-width integers                                     *)
(* --------------------------------------------------------------------- *)

Lemma Z_of_byte_of_Z (z : Z) : Z_of_byte (byte_of_Z z) = z mod 256.
Proof.
  unfold Z_of_byte, byte_of_Z.
  pose proof (Z.mod_pos_bound z 256 ltac:(lia)) as Hz.
  destruct (Byte.of_N (Z.to_N (z mod 256))) as [b|] eqn:Hb.
  - apply Byte.to_of_N in Hb. rewrite Hb. lia.
  - apply Byte.of_N_None_iff in Hb. lia.
Qed.

Lemma length_le_bytes (w : nat) (v : Z) : length (le_bytes w v) = w.
Proof. revert v. induction w as [|w IH]; intros v; simpl; [reflexivity|]. now rewrite IH. Qed.

Lemma length_be_bytes (w : nat) (v : Z) : length (be_bytes w v) = w.
Proof. unfold be_bytes. rewrite length_rev. apply length_le_bytes. Qed.

(** Little-endian value of a byte list, the mirror of [be_value]. *)
Lemma be_value_snoc (bs : list byte) (b : byte) :
  be_value (bs ++ [b]) = be_value bs * 256 + Z_of_byte b.
Proof. unfold be_value. rewrite fold_left_app. reflexivity. Qed.

Lemma be_value_be_bytes (w : nat) (v : Z) :
  be_value (be_bytes w v) = v mod 256 ^ Z.of_nat w.
Proof.
  unfold be_bytes. revert v. induction w as [|w IH]; intros v.
  - simpl. rewrite Z.mod_1_r. reflexivity.
  - cbn [le_bytes rev]. rewrite be_value_snoc, IH, Z_of_byte_of_Z.
    rewrite Nat2Z.inj_succ, Z.pow_succ_r by lia.
    rewrite (Z.rem_mul_r v 256 (256 ^ Z.of_nat w)) by lia. lia.
Qed.

Lemma contents_slice_of (bs spare : list byte) : contents (slice_of bs spare) = bs.
Proof. unfold contents, slice_of. simpl. apply take_app_length. Qed.

(** Cutting [chunk] out of a slice whose array reads
    [pre ++ chunk ++ rest]. *)
Lemma reslice_split (s : slice) (lo hi : Z) (pre chunk rest : list byte) :
  s_buf s = pre ++ chunk ++ rest ->
  Z.of_nat (length pre) = lo ->
  Z.of_nat (length chunk) = hi - lo ->
  reslice s lo hi = Some (slice_of chunk rest).
Proof.
  intros Hbuf Hlo Hhi. unfold reslice, cap. rewrite Hbuf.
  rewrite !length_app.
  destruct (Z.leb_spec 0 lo); [|lia].
  destruct (Z.leb_spec lo hi); [|lia].
  destruct (Z.leb_spec hi (Z.of_nat (length pre + (length chunk + length rest)))); [|lia].
  simpl. unfold slice_of. f_equal. f_equal.
  - rewrite <- Hlo, Nat2Z.id. apply drop_app_length.
  - lia.
Qed.

Lemma decodeUint16_encode (v : Z) (spare : list byte) :
  decodeUint16 (slice_of (encodeUint16 v) spare) = Some (uint16 v).
Proof.
  unfold decodeUint16. rewrite contents_slice_of.
  pose proof (be_value_be_bytes 2 v) as Hv.
  unfold encodeUint16 in *.
  destruct (be_bytes 2 v) as [|b0 [|b1 [|b2 bs]]] eqn:Hb;
    try (apply (f_equal (@length byte)) in Hb; rewrite length_be_bytes in Hb; discriminate).
  rewrite Hv. reflexivity.
Qed.

Lemma decodeInt64_encode (v : Z) (spare : list byte) :
  decodeInt64 (slice_of (encodeInt64 v) spare) = Some (int64 v).
Proof.
  unfold decodeInt64. rewrite contents_slice_of. unfold encodeInt64.
  rewrite take_ge by (rewrite length_be_bytes; lia).
  rewrite length_be_bytes. simpl.
  rewrite be_value_be_bytes. f_equal.
  unfold int64, wrapS. change (256 ^ Z.of_nat 8) with (2 ^ 64).
  rewrite <- (Z.add_mod_idemp_l v) by lia.
  change (2 ^ (64 - 1)) with (2 ^ 63).
  rewrite Z.add_mod_idemp_l by lia. reflexivity.
Qed.

Lemma uint16_small (z : Z) : 0 <= z < 2 ^ 16 -> uint16 z = z.
Proof. intros Hz. unfold uint16, wrapU. apply Z.mod_small. exact Hz. Qed.

(* --------------------------------------------------------------------- *)
(** ** The binary64 pattern                                               *)
(* --------------------------------------------------------------------- *)

Lemma digits2_pos_bounds (m : positive) :
  2 ^ (Z.pos (digits2_pos m) - 1) <= Z.pos m < 2 ^ Z.pos (digits2_pos m).
Proof.
  induction m as [m IH|m IH|]; cbn [digits2_pos].
  - rewrite Pos2Z.inj_succ, Z.pow_succ_r by lia.
    replace (Z.succ (Z.pos (digits2_pos m)) - 1) with (Z.succ (Z.pos (digits2_pos m) - 1)) by lia.
    rewrite Z.pow_succ_r by lia. lia.
  - rewrite Pos2Z.inj_succ, Z.pow_succ_r by lia.
    replace (Z.succ (Z.pos (digits2_pos m)) - 1) with (Z.succ (Z.pos (digits2_pos m) - 1)) by lia.
    rewrite Z.pow_succ_r by lia. lia.
  - simpl. lia.
Qed.

(** A finite binary64 is subnormal with the least exponent, or has a
    53-bit mantissa and an exponent in range. *)
Lemma valid_finite_bounds (s : bool) (m : positive) (e : Z) :
  valid_binary (S754_finite s m e) = true ->
  (Z.pos m < 2 ^ 52 /\ e = -1074) \/
  (2 ^ 52 <= Z.pos m < 2 ^ 53 /\ -1074 <= e <= 971).
Proof.
  unfold SpecFloat.valid_binary, bounded, canonical_mantissa, fexp, emin, prec, emax.
  intros H. apply andb_true_iff in H as [Hc He].
  apply Z.eqb_eq in Hc. apply Z.leb_le in He.
  pose proof (digits2_pos_bounds m) as Hd.
  set (D := Z.pos (digits2_pos m)) in *.
  assert (HD : 0 < D) by (subst D; lia).
  destruct (Z_lt_le_dec (Z.pos m) (2 ^ 52)) as [Hsub|Hnorm].
  - left. split; [exact Hsub|].
    assert (D <= 52); [|lia].
    destruct (Z_lt_le_dec 52 D) as [Hgt|]; [|lia].
    assert (2 ^ 52 <= 2 ^ (D - 1)) by (apply Z.pow_le_mono_r; lia). lia.
  - right.
    assert (HD53 : D = 53).
    { assert (53 <= D).
      { destruct (Z_lt_le_dec D 53) as [Hlt|]; [|lia].
        assert (2 ^ D <= 2 ^ 52) by (apply Z.pow_le_mono_r; lia). lia. }
      lia. }
    rewrite HD53 in Hd. lia.
Qed.

Lemma signbit_testbit (s : bool) (x : Z) :
  0 <= x < 2 ^ 63 -> Z.testbit (signbit s + x) 63 = s.
Proof.
  intros Hx. destruct s; unfold signbit.
  - apply Z.testbit_true; [lia|].
    replace ((2 ^ 63 + x) / 2 ^ 63) with 1; [reflexivity|].
    apply Z.div_unique with (r := x); lia.
  - apply Z.testbit_false; [lia|].
    rewrite Z.div_small by lia. reflexivity.
Qed.

Lemma signbit_fields (s : bool) (ef mf : Z) :
  0 <= ef < 2048 -> 0 <= mf < 2 ^ 52 ->
  ((signbit s + (ef * 2 ^ 52 + mf)) / 2 ^ 52) mod 2048 = ef /\
  (signbit s + (ef * 2 ^ 52 + mf)) mod 2 ^ 52 = mf /\
  Z.testbit (signbit s + (ef * 2 ^ 52 + mf)) 63 = s.
Proof.
  intros Hef Hmf.
  assert (H63 : 2 ^ 63 = 2048 * 2 ^ 52) by reflexivity.
  assert (H52 : 0 < 2 ^ 52) by reflexivity.
  assert (Hs : signbit s = (if s then 2048 else 0) * 2 ^ 52)
    by (destruct s; unfold signbit; lia).
  split; [|split].
  - rewrite Hs. change (2 ^ 52) with 4503599627370496 in *.
    destruct s; Z.div_mod_to_equations; lia.
  - rewrite Hs. change (2 ^ 52) with 4503599627370496 in *.
    destruct s; Z.div_mod_to_equations; lia.
  - apply signbit_testbit. nia.
Qed.

Lemma float64bits_fields (f : float) :
  exists s ef mf, float64bits f = signbit s + (ef * 2 ^ 52 + mf) /\
                  0 <= ef < 2048 /\ 0 <= mf < 2 ^ 52 /\
                  SF2Prim
                    (if ef =? 0 then
                       if mf =? 0 then S754_zero s else S754_finite s (Z.to_pos mf) (-1074)
                     else if ef =? 2047 then
                       if mf =? 0 then S754_infinity s else S754_nan
                     else S754_finite s (Z.to_pos (mf + 2 ^ 52)) (ef - 1075)) = f.
Proof.
  unfold float64bits.
  pose proof (Prim2SF_valid f) as Hvalid.
  pose proof (SF2Prim_Prim2SF f) as Hback.
  destruct (Prim2SF f) as [s|s| |s m e].
  - exists s, 0, 0. repeat split; try lia. exact Hback.
  - exists s, 2047, 0. repeat split; try lia. exact Hback.
  - exists false, 2047, (2 ^ 51). repeat split; try lia. exact Hback.
  - destruct (valid_finite_bounds s m e Hvalid) as [[Hm He]|[Hm He]].
    + exists s, 0, (Z.pos m).
      destruct (Z.ltb_spec (Z.pos m) (2 ^ 52)); [|lia].
      repeat split; try lia.
      simpl (0 =? 0). cbv iota.
      destruct (Z.eqb_spec (Z.pos m) 0); [lia|].
      rewrite <- He. exact Hback.
    + exists s, (e + 1075), (Z.pos m - 2 ^ 52).
      destruct (Z.ltb_spec (Z.pos m) (2 ^ 52)); [lia|].
      repeat split; try lia.
      destruct (Z.eqb_spec (e + 1075) 0); [lia|].
      destruct (Z.eqb_spec (e + 1075) 2047); [lia|].
      replace (Z.pos m - 2 ^ 52 + 2 ^ 52) with (Z.pos m) by lia.
      replace (e + 1075 - 1075) with e by lia.
      exact Hback.
Qed.

Lemma float64frombits_float64bits (f : float) : float64frombits (float64bits f) = f.
Proof.
  destruct (float64bits_fields f) as (s & ef & mf & -> & Hef & Hmf & Hf).
  unfold float64frombits.
  destruct (signbit_fields s ef mf Hef Hmf) as (-> & -> & ->).
  exact Hf.
Qed.

Lemma float64bits_range (f : float) : 0 <= float64bits f < 2 ^ 64.
Proof.
  destruct (float64bits_fields f) as (s & ef & mf & -> & Hef & Hmf & _).
  assert (H63 : 2 ^ 63 = 2048 * 2 ^ 52) by reflexivity.
  assert (H64 : 2 ^ 64 = 2 * 2 ^ 63) by reflexivity.
  destruct s; unfold signbit; nia.
Qed.

Lemma decodeFloat64_encode (f : float) (spare : list byte) :
  decodeFloat64 (slice_of (encodeFloat64 f) spare) = Some f.
Proof.
  unfold decodeFloat64. rewrite contents_slice_of. unfold encodeFloat64.
  rewrite take_ge by (rewrite length_be_bytes; lia).
  rewrite length_be_bytes. simpl.
  rewrite be_value_be_bytes. change (256 ^ Z.of_nat 8) with (2 ^ 64).
  rewrite Z.mod_small by apply float64bits_range.
  rewrite float64frombits_float64bits. reflexivity.
Qed.

(* --------------------------------------------------------------------- *)
(** ** Values and pointers                                                *)
(* --------------------------------------------------------------------- *)

Lemma length_encodeUint16 (v : Z) : length (encodeUint16 v) = 2%nat.
Proof. apply length_be_bytes. Qed.

Lemma length_encodeInt64 (v : Z) : length (encodeInt64 v) = 8%nat.
Proof. apply length_be_bytes. Qed.

Lemma length_encodeFloat64 (f : float) : length (encodeFloat64 f) = 8%nat.
Proof. apply length_be_bytes. Qed.

Lemma length_encodeValue (v : Value) : length (encodeValue v) = 42%nat.
Proof.
  unfold encodeValue.
  rewrite !length_app, !length_encodeFloat64, length_encodeUint16. reflexivity.
Qed.

Lemma in_uint16_range (z : Z) : in_uint16 z = true -> 0 <= z < 2 ^ 16.
Proof. unfold in_uint16. intros H. apply andb_true_iff in H as [H1 H2]. lia. Qed.

Lemma in_int64_range (z : Z) : in_int64 z = true -> - 2 ^ 63 <= z < 2 ^ 63.
Proof. unfold in_int64. intros H. apply andb_true_iff in H as [H1 H2]. lia. Qed.

Lemma int64_in_range (z : Z) : in_int64 z = true -> int64 z = z.
Proof.
  intros H. apply in_int64_range in H. unfold int64, wrapS.
  change (2 ^ (64 - 1)) with (2 ^ 63). change (2 ^ 64) with (2 * 2 ^ 63).
  rewrite Z.mod_small; lia.
Qed.

(** Normalises both sides of a list equation to right-nested appends. *)
Ltac same_bytes := rewrite <- ?app_assoc; reflexivity.

Ltac lengths :=
  rewrite ?length_app, ?length_encodeFloat64, ?length_encodeUint16,
    ?length_encodeInt64, ?length_encodeValue; simpl; lia.

Lemma decodeValue_encode (v : Value) (spare : list byte) :
  in_uint16 (v_count v) = true ->
  decodeValue (slice_of (encodeValue v) spare) = Some v.
Proof.
  intros Hcount. apply in_uint16_range in Hcount.
  destruct v as [s mx mn fi la c]. cbn [v_count] in Hcount.
  unfold decodeValue.
  set (b := slice_of _ spare).
  assert (Hb : s_buf b =
               encodeFloat64 s ++ encodeFloat64 mx ++ encodeFloat64 mn ++
               encodeFloat64 fi ++ encodeFloat64 la ++ encodeUint16 c ++ spare)
    by (subst b; unfold slice_of, encodeValue; cbn; same_bytes).
  clearbody b.
  erewrite (reslice_split b 0 8 [] (encodeFloat64 s)); [|exact Hb|lengths|lengths].
  cbn [mbind option_bind]. rewrite decodeFloat64_encode. cbn [mbind option_bind].
  erewrite (reslice_split b 8 16 (encodeFloat64 s) (encodeFloat64 mx));
    [|exact Hb|lengths|lengths].
  cbn [mbind option_bind]. rewrite decodeFloat64_encode. cbn [mbind option_bind].
  erewrite (reslice_split b 16 24 (encodeFloat64 s ++ encodeFloat64 mx) (encodeFloat64 mn));
    [|rewrite Hb; same_bytes|lengths|lengths].
  cbn [mbind option_bind]. rewrite decodeFloat64_encode. cbn [mbind option_bind].
  erewrite (reslice_split b 24 32 (encodeFloat64 s ++ encodeFloat64 mx ++ encodeFloat64 mn)
              (encodeFloat64 fi)); [|rewrite Hb; same_bytes|lengths|lengths].
  cbn [mbind option_bind]. rewrite decodeFloat64_encode. cbn [mbind option_bind].
  erewrite (reslice_split b 32 40
              (encodeFloat64 s ++ encodeFloat64 mx ++ encodeFloat64 mn ++ encodeFloat64 fi)
              (encodeFloat64 la)); [|rewrite Hb; same_bytes|lengths|lengths].
  cbn [mbind option_bind]. rewrite decodeFloat64_encode. cbn [mbind option_bind].
  erewrite (reslice_split b 40 42
              (encodeFloat64 s ++ encodeFloat64 mx ++ encodeFloat64 mn ++ encodeFloat64 fi ++
               encodeFloat64 la)
              (encodeUint16 c)); [|rewrite Hb; same_bytes|lengths|lengths].
  cbn [mbind option_bind]. rewrite decodeUint16_encode. cbn [mbind option_bind].
  rewrite uint16_small by exact Hcount. reflexivity.
Qed.

Lemma length_encodeEntry (kv : string * Value) :
  length (encodeEntry kv) = (44 + length (list_byte_of_string (fst kv)))%nat.
Proof.
  unfold encodeEntry. rewrite !length_app, length_encodeUint16, length_encodeValue. lia.
Qed.

Lemma decodePointerValues_entries (entries : list (string * Value)) :
  forall (turns : nat) (npBytes : slice) (pre rest : list byte)
         (value : gmap string Value),
    Forall entry_fits entries ->
    (length entries <= turns)%nat ->
    s_buf npBytes = pre ++ flat_map encodeEntry entries ++ rest ->
    s_len npBytes = (length pre + length (flat_map encodeEntry entries))%nat ->
    decodePointerValues turns npBytes (Z.of_nat (length pre)) value =
    Ok (fold_left (fun m kv => <[fst kv := snd kv]> m) entries value).
Proof.
  induction entries as [|[k v] entries IH];
    intros turns npBytes pre rest value Hfit Hturns Hbuf Hlen.
  - destruct turns; simpl; unfold len; rewrite Hlen; simpl;
      (destruct (Z.ltb_spec (Z.of_nat (length pre)) (Z.of_nat (length pre + 0))); [lia|]);
      reflexivity.
  - inversion Hfit as [|? ? [Hk Hc] Hfit']; subst. cbn [fst snd] in Hk, Hc.
    destruct turns as [|turns]; [simpl in Hturns; lia|].
    cbn [flat_map] in Hbuf, Hlen. rewrite length_app, length_encodeEntry in Hlen.
    cbn [fst] in Hlen.
    set (keyBytes := list_byte_of_string k) in *.
    assert (Hentry : encodeEntry (k, v) =
                     encodeUint16 (Z.of_nat (length keyBytes)) ++ keyBytes ++ encodeValue v).
    { unfold encodeEntry. cbn [fst snd]. fold keyBytes. rewrite uint16_small by lia.
      reflexivity. }
    rewrite Hentry in Hbuf.
    cbn [decodePointerValues]. unfold len. rewrite Hlen.
    destruct (Z.ltb_spec (Z.of_nat (length pre))
                (Z.of_nat (length pre + (44 + length keyBytes +
                                         length (flat_map encodeEntry entries)))));
      [|lia].
    erewrite (reslice_split npBytes (Z.of_nat (length pre)) (Z.of_nat (length pre) + 2)
                pre (encodeUint16 (Z.of_nat (length keyBytes))));
      [|rewrite Hbuf; same_bytes|reflexivity|lengths].
    cbn [mbind option_bind must res_bind]. rewrite decodeUint16_encode.
    cbn [mbind option_bind must res_bind].
    rewrite uint16_small by lia.
    erewrite (reslice_split npBytes (Z.of_nat (length pre) + 2)
                (Z.of_nat (length pre) + 2 + Z.of_nat (length keyBytes))
                (pre ++ encodeUint16 (Z.of_nat (length keyBytes))) keyBytes);
      [|rewrite Hbuf; same_bytes|lengths|lengths].
    cbn [mbind option_bind must res_bind].
    rewrite contents_slice_of.
    replace (string_of_list_byte keyBytes) with k
      by (symmetry; apply string_of_list_byte_of_string).
    erewrite (reslice_split npBytes
                (Z.of_nat (length pre) + 2 + Z.of_nat (length keyBytes))
                (Z.of_nat (length pre) + 2 + Z.of_nat (length keyBytes) + 42)
                (pre ++ encodeUint16 (Z.of_nat (length keyBytes)) ++ keyBytes)
                (encodeValue v));
      [|rewrite Hbuf; same_bytes|lengths|lengths].
    cbn [mbind option_bind must res_bind]. rewrite decodeValue_encode by exact Hc.
    cbn [mbind option_bind must res_bind].
    cbn [fold_left fst snd].
    rewrite <- (IH turns npBytes
                  (pre ++ encodeUint16 (Z.of_nat (length keyBytes)) ++ keyBytes ++ encodeValue v)
                  rest (<[k := v]> value) Hfit').
    + f_equal. lengths.
    + simpl in Hturns. lia.
    + rewrite Hbuf. same_bytes.
    + rewrite Hlen. lengths.
Qed.

Lemma fold_insert_entries (m : gmap string Value) (entries : list (string * Value)) :
  entries ≡ₚ map_to_list m ->
  fold_left (fun acc kv => <[fst kv := snd kv]> acc) entries ∅ = m.
Proof.
  intros Hperm. apply map_eq. intros k.
  assert (Hnd : NoDup entries.*1) by (rewrite Hperm; apply NoDup_fst_map_to_list).
  rewrite (fold_entries_lookup (fun acc kv => <[fst kv := snd kv]> acc) (fun _ v => v)
             ltac:(intros; apply lookup_insert) entries ∅ k Hnd).
  rewrite (list_to_map_proper (M:=gmap string) entries (map_to_list m) Hnd Hperm).
  rewrite list_to_map_to_list, lookup_empty.
  destruct (m !! k); reflexivity.
Qed.

Lemma length_flat_map_entries (entries : list (string * Value)) :
  (length entries <= length (flat_map encodeEntry entries))%nat.
Proof.
  induction entries as [|kv entries IH]; cbn [flat_map length]; [lia|].
  rewrite length_app, length_encodeEntry. lia.
Qed.

Lemma length_entry_in_flat_map (entries : list (string * Value)) (kv : string * Value) :
  kv ∈ entries ->
  (length (list_byte_of_string (fst kv)) <= length (flat_map encodeEntry entries))%nat.
Proof.
  induction 1 as [kv entries|kv kv' entries Hin IH]; cbn [flat_map];
    rewrite length_app, length_encodeEntry; lia.
Qed.

Lemma length_encodePointerIn (entries : list (string * Value)) (np : nodePointer) :
  length (encodePointerIn entries np) = (16 + length (flat_map encodeEntry entries))%nat.
Proof. unfold encodePointerIn. rewrite !length_app, !length_encodeInt64. lia. Qed.

Lemma length_encodePointerIn_order (entries : list (string * Value)) (np : nodePointer) :
  entries ≡ₚ map_to_list (np_value np) ->
  length (encodePointerIn entries np) = length (encodePointer np).
Proof.
  intros Hperm. unfold encodePointer. rewrite !length_encodePointerIn.
  f_equal. apply Permutation_length. apply Permutation_flat_map. exact Hperm.
Qed.

Lemma decodeNodePointer_encode (np : nodePointer) (entries : list (string * Value))
    (rest : list byte) :
  entries ≡ₚ map_to_list (np_value np) ->
  pointer_fits np = true ->
  decodeNodePointer (slice_of (encodePointerIn entries np) rest) = Ok (decoded np).
Proof.
  intros Hperm Hfits. unfold pointer_fits in Hfits.
  apply andb_true_iff in Hfits as [Hfits Hshort].
  apply andb_true_iff in Hfits as [Hfits Hcounts].
  apply andb_true_iff in Hfits as [Hkey Hpos].
  apply Z.ltb_lt in Hshort.
  rewrite <- (length_encodePointerIn_order entries np Hperm) in Hshort.
  rewrite length_encodePointerIn in Hshort.
  assert (Hentries : Forall entry_fits entries).
  { apply Forall_forall. intros kv Hin. split.
    - pose proof (length_entry_in_flat_map entries kv Hin). lia.
    - rewrite forallb_forall in Hcounts. apply Hcounts.
      apply list_elem_of_In. rewrite <- Hperm. exact Hin. }
  unfold decodeNodePointer.
  set (b := slice_of _ rest).
  assert (Hb : s_buf b = encodeInt64 (np_key np) ++ encodeInt64 (np_pos np) ++
                         flat_map encodeEntry entries ++ rest)
    by (subst b; unfold slice_of, encodePointerIn; cbn [s_buf]; same_bytes).
  assert (Hl : s_len b = (16 + length (flat_map encodeEntry entries))%nat)
    by (subst b; unfold slice_of; cbn [s_len]; apply length_encodePointerIn).
  clearbody b.
  erewrite (reslice_split b 0 8 [] (encodeInt64 (np_key np))); [|exact Hb|lengths|lengths].
  cbn [mbind option_bind must res_bind]. rewrite decodeInt64_encode.
  cbn [mbind option_bind must res_bind].
  erewrite (reslice_split b 8 16 (encodeInt64 (np_key np)) (encodeInt64 (np_pos np)));
    [|exact Hb|lengths|lengths].
  cbn [mbind option_bind must res_bind]. rewrite decodeInt64_encode.
  cbn [mbind option_bind must res_bind].
  rewrite (decodePointerValues_entries entries (S (s_len b)) b
             (encodeInt64 (np_key np) ++ encodeInt64 (np_pos np)) rest ∅ Hentries).
  - cbn [mbind res_bind].
    rewrite (fold_insert_entries (np_value np) entries Hperm).
    rewrite !int64_in_range by assumption. reflexivity.
  - rewrite Hl. pose proof (length_flat_map_entries entries). lia.
  - rewrite Hb. same_bytes.
  - rewrite Hl. lengths.
Qed.

(* --------------------------------------------------------------------- *)
(** ** Nodes                                                              *)
(* --------------------------------------------------------------------- *)

Lemma frame_short (b : list byte) :
  Z.of_nat (length b) < 2 ^ 16 -> frame b = encodeUint16 (Z.of_nat (length b)) ++ b.
Proof. intros Hb. unfold frame. rewrite uint16_small by lia. reflexivity. Qed.

Lemma length_frame (b : list byte) : length (frame b) = (2 + length b)%nat.
Proof. unfold frame. rewrite length_app, length_encodeUint16. reflexivity. Qed.

Lemma decodePointers_frames (ps : list nodePointer) (orders : list (list (string * Value))) :
  Forall2 (fun p entries => entries ≡ₚ map_to_list (np_value p)) ps orders ->
  Forall (fun p => pointer_fits p = true) ps ->
  forall (turns : nat) (nodeBytes : slice) (pre rest : list byte) (acc : list nodePointer),
    (length ps <= turns)%nat ->
    s_buf nodeBytes =
      pre ++ concat (zip_with (fun p entries => frame (encodePointerIn entries p)) ps orders)
          ++ rest ->
    s_len nodeBytes =
      (length pre +
       length (concat (zip_with (fun p entries => frame (encodePointerIn entries p))
                                ps orders)))%nat ->
    decodePointers turns nodeBytes (Z.of_nat (length pre)) acc = Ok (acc ++ (decoded <$> ps)).
Proof.
  induction 1 as [|p entries ps orders Hperm Hrest IH];
    intros Hfits turns nodeBytes pre rest acc Hturns Hbuf Hlen.
  - cbn [zip_with concat length] in Hlen.
    destruct turns; cbn [decodePointers]; unfold len; rewrite Hlen;
      (destruct (Z.ltb_spec (Z.of_nat (length pre)) (Z.of_nat (length pre + 0))); [lia|]);
      cbn [fmap list_fmap]; rewrite app_nil_r; reflexivity.
  - inversion Hfits as [|? ? Hp Hfits']; subst.
    destruct turns as [|turns]; [simpl in Hturns; lia|].
    cbn [zip_with concat] in Hbuf, Hlen.
    set (payload := encodePointerIn entries p) in *.
    set (frames := concat (zip_with _ ps orders)) in *.
    assert (Hshort : Z.of_nat (length payload) < 2 ^ 16).
    { subst payload. rewrite (length_encodePointerIn_order entries p Hperm).
      unfold pointer_fits in Hp. apply andb_true_iff in Hp as [_ Hp].
      apply Z.ltb_lt in Hp. exact Hp. }
    rewrite frame_short in Hbuf by exact Hshort.
    rewrite length_app, length_frame in Hlen.
    cbn [decodePointers]. unfold len. rewrite Hlen.
    destruct (Z.ltb_spec (Z.of_nat (length pre))
                (Z.of_nat (length pre + (2 + length payload + length frames)))); [|lia].
    erewrite (reslice_split nodeBytes (Z.of_nat (length pre)) (Z.of_nat (length pre) + 2)
                pre (encodeUint16 (Z.of_nat (length payload))));
      [|rewrite Hbuf; same_bytes|reflexivity|lengths].
    cbn [mbind option_bind must res_bind]. rewrite decodeUint16_encode.
    cbn [mbind option_bind must res_bind]. rewrite uint16_small by lia.
    erewrite (reslice_split nodeBytes (Z.of_nat (length pre) + 2)
                (Z.of_nat (length pre) + 2 + Z.of_nat (length payload))
                (pre ++ encodeUint16 (Z.of_nat (length payload))) payload);
      [|rewrite Hbuf; same_bytes|lengths|lengths].
    cbn [mbind option_bind must res_bind]. subst payload.
    rewrite decodeNodePointer_encode by assumption.
    cbn [mbind option_bind must res_bind].
    set (payload := encodePointerIn entries p) in *.
    replace (acc ++ (decoded <$> p :: ps)) with ((acc ++ [decoded p]) ++ (decoded <$> ps))
      by (rewrite <- app_assoc; reflexivity).
    replace (Z.of_nat (length pre) + 2 + Z.of_nat (length payload))
      with (Z.of_nat (length (pre ++ encodeUint16 (Z.of_nat (length payload)) ++ payload)))
      by lengths.
    apply (IH Hfits' turns nodeBytes _ rest).
    + simpl in Hturns. lia.
    + rewrite Hbuf. same_bytes.
    + rewrite Hlen. lengths.
Qed.

Section PointCodec.

Variable encodePoint : Point -> list byte.
Variable decodePoint : slice -> res error Point.

Lemma decodePoints_frames (pts : list Point) :
  Forall (point_fits encodePoint decodePoint) pts ->
  forall (turns : nat) (nodeBytes : slice) (pre rest : list byte) (acc : list Point),
    (length pts <= turns)%nat ->
    s_buf nodeBytes =
      pre ++ flat_map (fun point => frame (encodePoint point)) pts ++ rest ->
    s_len nodeBytes =
      (length pre + length (flat_map (fun point => frame (encodePoint point)) pts))%nat ->
    decodePoints decodePoint turns nodeBytes (Z.of_nat (length pre)) acc = Ok (acc ++ pts).
Proof.
  induction 1 as [|p pts [Hshort Hback] Hrest IH];
    intros turns nodeBytes pre rest acc Hturns Hbuf Hlen.
  - cbn [flat_map length] in Hlen.
    destruct turns; cbn [decodePoints]; unfold len; rewrite Hlen;
      (destruct (Z.ltb_spec (Z.of_nat (length pre)) (Z.of_nat (length pre + 0))); [lia|]);
      rewrite app_nil_r; reflexivity.
  - destruct turns as [|turns]; [simpl in Hturns; lia|].
    cbn [flat_map] in Hbuf, Hlen.
    set (payload := encodePoint p) in *.
    set (frames := flat_map _ pts) in *.
    rewrite frame_short in Hbuf by exact Hshort.
    rewrite length_app, length_frame in Hlen.
    cbn [decodePoints]. unfold len. rewrite Hlen.
    destruct (Z.ltb_spec (Z.of_nat (length pre))
                (Z.of_nat (length pre + (2 + length payload + length frames)))); [|lia].
    erewrite (reslice_split nodeBytes (Z.of_nat (length pre)) (Z.of_nat (length pre) + 2)
                pre (encodeUint16 (Z.of_nat (length payload))));
      [|rewrite Hbuf; same_bytes|reflexivity|lengths].
    cbn [mbind option_bind must res_bind]. rewrite decodeUint16_encode.
    cbn [mbind option_bind must res_bind]. rewrite uint16_small by lia.
    erewrite (reslice_split nodeBytes (Z.of_nat (length pre) + 2)
                (Z.of_nat (length pre) + 2 + Z.of_nat (length payload))
                (pre ++ encodeUint16 (Z.of_nat (length payload))) payload);
      [|rewrite Hbuf; same_bytes|lengths|lengths].
    cbn [mbind option_bind must res_bind]. rewrite Hback.
    cbn [mbind option_bind must res_bind].
    replace (acc ++ p :: pts) with ((acc ++ [p]) ++ pts)
      by (rewrite <- app_assoc; reflexivity).
    replace (Z.of_nat (length pre) + 2 + Z.of_nat (length payload))
      with (Z.of_nat (length (pre ++ encodeUint16 (Z.of_nat (length payload)) ++ payload)))
      by lengths.
    apply (IH turns nodeBytes _ rest).
    + simpl in Hturns. lia.
    + rewrite Hbuf. same_bytes.
    + rewrite Hlen. lengths.
Qed.

End PointCodec.

(** The header of a node at one of the ten levels: it fits 16 bits, the
    kind flag reads back, and so does the level. *)
Lemma level_header (lvl : Z) :
  lvl ∈ levels ->
  (uint16 (Z.lor lvl LeafChunkFlag) = Z.lor lvl LeafChunkFlag /\
   Z.land (Z.lor lvl LeafChunkFlag) LeafFlag = LeafChunkFlag /\
   Z.land (Z.lor lvl LeafChunkFlag) LevelFlag = lvl) /\
  (uint16 (Z.lor lvl InteriorChunkFlag) = Z.lor lvl InteriorChunkFlag /\
   Z.land (Z.lor lvl InteriorChunkFlag) LeafFlag = InteriorChunkFlag /\
   Z.land (Z.lor lvl InteriorChunkFlag) LevelFlag = lvl).
Proof.
  unfold levels. intros Hin.
  repeat (apply elem_of_cons in Hin as [->|Hin]; [vm_compute; repeat split; reflexivity|]).
  apply elem_of_nil in Hin. destruct Hin.
Qed.

Lemma length_point_frames (encodePoint : Point -> list byte) (pts : list Point) :
  (length pts <= length (flat_map (fun point => frame (encodePoint point)) pts))%nat.
Proof.
  induction pts as [|p pts IH]; cbn [flat_map length]; [lia|].
  rewrite length_app, length_frame. lia.
Qed.

Lemma length_pointer_frames (ps : list nodePointer) (orders : list (list (string * Value))) :
  length ps = length orders ->
  (length ps <=
   length (concat (zip_with (fun p entries => frame (encodePointerIn entries p)) ps orders)))%nat.
Proof.
  revert orders. induction ps as [|p ps IH]; intros [|entries orders] Hlen;
    cbn [zip_with concat length] in *; try lia.
  rewrite length_app, length_frame. specialize (IH orders ltac:(lia)). lia.
Qed.

Lemma encode_encodes (encodePoint : Point -> list byte) (n : node) :
  encodes encodePoint n (encode encodePoint n).
Proof.
  exists (map (fun pointer => map_to_list (np_value pointer)) (pointers n)).
  split; [|reflexivity].
  induction (pointers n) as [|p ps IH]; constructor; [reflexivity|exact IH].
Qed.

Lemma decoded_equiv (ps : list nodePointer) : Forall2 pointer_equiv ps (decoded <$> ps).
Proof.
  induction ps as [|p ps IH]; constructor; [|exact IH].
  repeat split.
Qed.

(** C9, for nodes that fit their length prefixes.  Let the level be one
    of the ten constants; on a leaf let every encoded point be shorter
    than 2^16 bytes and be given back by the codec of [Point]; on an
    interior node let the key, position and counts of every pointer be
    in the range of their types and every encoded pointer be shorter
    than 2^16 bytes.  Then decoding any encoding of the node (whatever
    the order in which the value maps were ranged over, whatever the
    spare capacity of the buffer) returns a node with the same level,
    the same kind and the same points or pointers in order.  The decoder
    picks the leaf reader exactly when [header & 0x3000 == 0x2000]. *)
Theorem node_codec_round_trip (encodePoint : Point -> list byte)
    (decodePoint : slice -> res error Point) (n : node) (bs spare : list byte) :
  level n ∈ levels ->
  (if isLeaf n
   then Forall (point_fits encodePoint decodePoint) (points n)
   else forallb pointer_fits (pointers n) = true) ->
  encodes encodePoint n bs ->
  (exists n', decodeNode decodePoint (slice_of bs spare) = Ok n' /\ node_equiv n n') /\
  (forall nodeBytes header,
     reslice nodeBytes 0 2 ≫= decodeUint16 = Some header ->
     decodeNode decodePoint nodeBytes =
     if Z.land header 0x3000 =? 0x2000
     then decodeLeafNode decodePoint nodeBytes
     else decodeInteriorNode nodeBytes).
Proof.
  intros Hlvl Hfit (orders & Horders & ->).
  split; [|intros nodeBytes header Hh; unfold decodeNode; rewrite Hh; reflexivity].
  destruct n as [lvl leaf d ptrs pts]. cbn [level isLeaf points pointers] in *.
  destruct (level_header lvl Hlvl) as [(Hl16 & Hlkind & Hllvl) (Hi16 & Hikind & Hilvl)].
  unfold encodeIn. cbn [level isLeaf points pointers].
  destruct leaf.
  - set (frames := flat_map _ pts).
    set (b := slice_of _ spare).
    assert (Hb : s_buf b = encodeUint16 (Z.lor lvl LeafChunkFlag) ++ frames ++ spare)
      by (subst b; unfold slice_of; cbn [s_buf]; same_bytes).
    assert (Hlen : s_len b = (length (encodeUint16 (Z.lor lvl LeafChunkFlag)) +
                              length frames)%nat)
      by (subst b; unfold slice_of; cbn [s_len]; apply length_app).
    clearbody b.
    assert (Hhead : reslice b 0 2 ≫= decodeUint16 = Some (Z.lor lvl LeafChunkFlag)).
    { erewrite (reslice_split b 0 2 []); [|exact Hb|lengths|lengths].
      cbn [mbind option_bind]. rewrite decodeUint16_encode, Hl16. reflexivity. }
    unfold decodeNode, decodeLeafNode. rewrite Hhead. cbn [must mbind res_bind].
    rewrite Hlkind, Z.eqb_refl, Hllvl.
    cbn [points set_level newLeafNode].
    pose proof (decodePoints_frames encodePoint decodePoint pts Hfit (S (s_len b)) b
                  (encodeUint16 (Z.lor lvl LeafChunkFlag)) spare []) as Hdec.
    rewrite length_encodeUint16 in Hdec. change (Z.of_nat 2) with 2 in Hdec.
    rewrite Hdec.
    + cbn [mbind res_bind app]. eexists. split; [reflexivity|].
      repeat split.
    + rewrite Hlen. pose proof (length_point_frames encodePoint pts) as H.
      fold frames in H. lia.
    + exact Hb.
    + rewrite Hlen, length_encodeUint16. reflexivity.
  - set (frames := concat _).
    set (b := slice_of _ spare).
    assert (Hb : s_buf b = encodeUint16 (Z.lor lvl InteriorChunkFlag) ++ frames ++ spare)
      by (subst b; unfold slice_of; cbn [s_buf]; same_bytes).
    assert (Hlen : s_len b = (length (encodeUint16 (Z.lor lvl InteriorChunkFlag)) +
                              length frames)%nat)
      by (subst b; unfold slice_of; cbn [s_len]; apply length_app).
    clearbody b.
    assert (Hhead : reslice b 0 2 ≫= decodeUint16 = Some (Z.lor lvl InteriorChunkFlag)).
    { erewrite (reslice_split b 0 2 []); [|exact Hb|lengths|lengths].
      cbn [mbind option_bind]. rewrite decodeUint16_encode, Hi16. reflexivity. }
    unfold decodeNode, decodeInteriorNode. rewrite Hhead. cbn [must mbind res_bind].
    rewrite Hikind. change (InteriorChunkFlag =? LeafChunkFlag) with false. cbv iota.
    rewrite Hilvl.
    cbn [pointers set_level newInteriorNode].
    assert (Hfits : Forall (fun p => pointer_fits p = true) ptrs).
    { apply Forall_forall. intros p Hin. rewrite forallb_forall in Hfit.
      apply Hfit. apply list_elem_of_In. exact Hin. }
    pose proof (decodePointers_frames ptrs orders Horders Hfits (S (s_len b)) b
                  (encodeUint16 (Z.lor lvl InteriorChunkFlag)) spare []) as Hdec.
    rewrite length_encodeUint16 in Hdec. change (Z.of_nat 2) with 2 in Hdec.
    rewrite Hdec.
    + cbn [mbind res_bind app]. eexists. split; [reflexivity|].
      split; [reflexivity|]. split; [reflexivity|].
      cbn [isLeaf pointers set_pointers]. apply decoded_equiv.
    + rewrite Hlen.
      pose proof (length_pointer_frames ptrs orders (Forall2_length _ _ _ Horders)) as H.
      fold frames in H. lia.
    + exact Hb.
    + rewrite Hlen, length_encodeUint16. reflexivity.
Qed.

Lemma node_codec_round_trip_witness :
  level two_pointer_node ∈ levels /\
  forallb pointer_fits (pointers two_pointer_node) = true /\
  encodes timestamp_encode two_pointer_node (encode timestamp_encode two_pointer_node) /\
  exists n',
    decodeNode timestamp_decode
      (slice_of (encode timestamp_encode two_pointer_node) [x00; x00; x00]) = Ok n' /\
    node_equiv two_pointer_node n'.
Proof.
  assert (Hlvl : level two_pointer_node ∈ levels)
    by (unfold levels; rewrite !elem_of_cons; auto 10).
  assert (Hfit : forallb pointer_fits (pointers two_pointer_node) = true)
    by (vm_compute; reflexivity).
  pose proof (encode_encodes timestamp_encode two_pointer_node) as Henc.
  split; [exact Hlvl|]. split; [exact Hfit|]. split; [exact Henc|].
  exact (proj1 (node_codec_round_trip timestamp_encode timestamp_decode two_pointer_node
                  _ [x00; x00; x00] Hlvl Hfit Henc)).
Defined.

(** C9, the claim as worded fails.  The only pointer of
    [wide_pointer_node] encodes to 65566 bytes; its 16-bit length prefix
    says 30, and decoding the encoding (in a buffer without spare
    capacity) panics instead of returning a node. *)
Lemma wide_pointer_breaks_round_trip :
  level wide_pointer_node ∈ levels /\
  encodes timestamp_encode wide_pointer_node (encode timestamp_encode wide_pointer_node) /\
  Z.of_nat (length (flat_map encodePointer (pointers wide_pointer_node))) = 65566 /\
  decodeNode timestamp_decode
    (slice_of (encode timestamp_encode wide_pointer_node) []) = Panic.
Proof.
  split; [unfold levels; rewrite !elem_of_cons; auto 10|].
  split; [apply encode_encodes|].
  split; vm_compute; reflexivity.
Qed.

End CodecFacts.

(* ===================================================================== *)
(** * Properties of store/db.go                                           *)
(* ===================================================================== *)

Module StoreFacts.
Import Store.

Lemma le_bytes_inj (w : nat) (v v' : Z) :
  0 <= v < 256 ^ Z.of_nat w -> 0 <= v' < 256 ^ Z.of_nat w ->
  le_bytes w v = le_bytes w v' -> v = v'.
Proof.
  intros Hv Hv' Heq.
  assert (Hbe : be_value (be_bytes w v) = be_value (be_bytes w v'))
    by (unfold be_bytes; rewrite Heq; reflexivity).
  rewrite !CodecFacts.be_value_be_bytes in Hbe.
  rewrite !Z.mod_small in Hbe by assumption. exact Hbe.
Qed.

Lemma meta_prefix_bytes_inj (m m' : meta) :
  meta_in_range m -> meta_in_range m' ->
  meta_prefix_bytes m = meta_prefix_bytes m' ->
  m_magic m = m_magic m' /\ m_version m = m_version m' /\
  m_pageSize m = m_pageSize m' /\ m_flags m = m_flags m' /\
  m_freelist m = m_freelist m' /\ m_data m = m_data m' /\
  m_pgid m = m_pgid m' /\ m_txid m = m_txid m'.
Proof.
  intros (H1 & H2 & H3 & H4 & H5 & H6 & H7 & H8) (H1' & H2' & H3' & H4' & H5' & H6' & H7' & H8').
  unfold meta_prefix_bytes. intros Heq.
  repeat match type of Heq with
  | le_bytes ?w ?a ++ _ = le_bytes ?w ?b ++ _ =>
      apply app_inj_1 in Heq;
      [ let Hf := fresh "Hf" in destruct Heq as [Hf Heq];
        apply le_bytes_inj in Hf; [|assumption|assumption]
      | rewrite !CodecFacts.length_le_bytes; reflexivity ]
  end.
  apply le_bytes_inj in Heq; [|assumption|assumption].
  auto 10.
Qed.

Lemma fnv64a_snoc (bs : list byte) (b : byte) :
  fnv64a (bs ++ [b]) = (Z.lxor (fnv64a bs) (Z_of_byte b) * 1099511628211) mod 2 ^ 64.
Proof. unfold fnv64a. rewrite fold_left_app. reflexivity. Qed.

(** C8.  A meta page validates exactly when its magic is the fixed
    constant, its version is the version of this binary, and its checksum
    is zero or the hash of the bytes before the checksum field.  The
    three checks run in this order, each with its own error.  The hash is
    FNV-1a over 64 bits (offset basis for no byte, then for each byte xor
    and multiplication by the prime modulo 2^64), taken over the 48
    bytes in which memory holds the eight fields before the checksum,
    each least significant byte first: the checksum field itself plays
    no part, and every other field is covered in full, so that two pages
    with the same covered bytes agree on all eight fields.  For page 0 of
    a fresh 4 KiB database the hash is 14375998125359304029. *)
Theorem validate_spec (m : meta) :
  (validate m = None <->
     m_magic m = magic /\ m_version m = version /\
     (m_checksum m = 0 \/ m_checksum m = sum64 m)) /\
  (validate m = Some ErrInvalid <-> m_magic m <> magic) /\
  (validate m = Some ErrVersionMismatch <->
     m_magic m = magic /\ m_version m <> version) /\
  (validate m = Some ErrChecksum <->
     m_magic m = magic /\ m_version m = version /\
     m_checksum m <> 0 /\ m_checksum m <> sum64 m) /\
  sum64 m =
    fnv64a (le_bytes 4 (m_magic m) ++ le_bytes 4 (m_version m) ++
            le_bytes 4 (m_pageSize m) ++ le_bytes 4 (m_flags m) ++
            le_bytes 8 (m_freelist m) ++ le_bytes 8 (m_data m) ++
            le_bytes 8 (m_pgid m) ++ le_bytes 8 (m_txid m)) /\
  length (meta_prefix_bytes m) = 48%nat /\
  (fnv64a [] = 14695981039346656037 /\
   forall bs b,
     fnv64a (bs ++ [b]) = (Z.lxor (fnv64a bs) (Z_of_byte b) * 1099511628211) mod 2 ^ 64) /\
  (forall checksum,
     sum64 (Meta (m_magic m) (m_version m) (m_pageSize m) (m_flags m) (m_freelist m)
                 (m_data m) (m_pgid m) (m_txid m) checksum) = sum64 m) /\
  (forall m', meta_in_range m -> meta_in_range m' ->
     meta_prefix_bytes m = meta_prefix_bytes m' ->
     m_magic m = m_magic m' /\ m_version m = m_version m' /\
     m_pageSize m = m_pageSize m' /\ m_flags m = m_flags m' /\
     m_freelist m = m_freelist m' /\ m_data m = m_data m' /\
     m_pgid m = m_pgid m' /\ m_txid m = m_txid m') /\
  sum64 (Meta 0xED0CDAED 1 4096 0 2 3 4 0 0) = 14375998125359304029.
Proof.
  assert (Hvalidate :
    (validate m = None <->
       m_magic m = magic /\ m_version m = version /\
       (m_checksum m = 0 \/ m_checksum m = sum64 m)) /\
    (validate m = Some ErrInvalid <-> m_magic m <> magic) /\
    (validate m = Some ErrVersionMismatch <->
       m_magic m = magic /\ m_version m <> version) /\
    (validate m = Some ErrChecksum <->
       m_magic m = magic /\ m_version m = version /\
       m_checksum m <> 0 /\ m_checksum m <> sum64 m)).
  { unfold validate. generalize (sum64 m). intros h.
    destruct (Z.eqb_spec (m_magic m) magic) as [Hm|Hm]; simpl.
    2: { repeat split; try tauto; try congruence; intros; intuition congruence. }
    destruct (Z.eqb_spec (m_version m) version) as [Hv|Hv]; simpl.
    2: { repeat split; try tauto; try congruence; intros; intuition congruence. }
    destruct (Z.eqb_spec (m_checksum m) 0) as [Hc|Hc]; simpl.
    { repeat split; try tauto; try congruence; intros; intuition congruence. }
    destruct (Z.eqb_spec (m_checksum m) h) as [Hs|Hs]; simpl;
      repeat split; try tauto; try congruence; intros; intuition congruence. }
  destruct Hvalidate as (Hok & Hmagic & Hversion & Hsum).
  split; [exact Hok|]. split; [exact Hmagic|]. split; [exact Hversion|].
  split; [exact Hsum|].
  split; [reflexivity|].
  split; [unfold meta_prefix_bytes; rewrite !length_app, !CodecFacts.length_le_bytes;
          reflexivity|].
  split; [split; [reflexivity|apply fnv64a_snoc]|].
  split.
  { intros checksum. unfold sum64, meta_prefix_bytes.
    cbn [m_magic m_version m_pageSize m_flags m_freelist m_data m_pgid m_txid].
    reflexivity. }
  split; [intros m'; apply meta_prefix_bytes_inj|].
  vm_compute. reflexivity.
Qed.

(** C6.  [DB.meta] returns the meta page with the strictly higher
    transaction id when that page validates, falls back to the other page
    when only that one validates, and panics when neither does; in that
    last case [DB.mmap], which [Open] calls, never reports success: it
    returns the error of page 0 (or an earlier error). *)
Theorem active_meta_selection (db : DB) :
  (m_txid (meta1 db) > m_txid (meta0 db) -> validate (meta1 db) = None ->
     db_meta db = Some (meta1 db)) /\
  (m_txid (meta0 db) > m_txid (meta1 db) -> validate (meta0 db) = None ->
     db_meta db = Some (meta0 db)) /\
  (m_txid (meta1 db) > m_txid (meta0 db) -> validate (meta1 db) <> None ->
     validate (meta0 db) = None -> db_meta db = Some (meta0 db)) /\
  (m_txid (meta0 db) > m_txid (meta1 db) -> validate (meta0 db) <> None ->
     validate (meta1 db) = None -> db_meta db = Some (meta1 db)) /\
  (validate (meta0 db) <> None -> validate (meta1 db) <> None ->
     db_meta db = None) /\
  (forall maxMapSize minsz env,
     validate (page0_meta env) <> None -> validate (page1_meta env) <> None ->
     (forall db', mmap maxMapSize db minsz env <> Some (db', None)) /\
     (int64 (pageSize db) <> 0 ->
      exists db' e, mmap maxMapSize db minsz env = Some (db', Some e))).
Proof.
  unfold db_meta.
  repeat split.
  - intros Hgt Hv. destruct (Z.gtb_spec (m_txid (meta1 db)) (m_txid (meta0 db))); [|lia].
    now rewrite Hv.
  - intros Hgt Hv. destruct (Z.gtb_spec (m_txid (meta1 db)) (m_txid (meta0 db))); [lia|].
    now rewrite Hv.
  - intros Hgt Hbad Hv. destruct (Z.gtb_spec (m_txid (meta1 db)) (m_txid (meta0 db))); [|lia].
    destruct (validate (meta1 db)); [|congruence]. now rewrite Hv.
  - intros Hgt Hbad Hv. destruct (Z.gtb_spec (m_txid (meta1 db)) (m_txid (meta0 db))); [lia|].
    destruct (validate (meta0 db)); [|congruence]. now rewrite Hv.
  - intros H0 H1. destruct (m_txid (meta1 db) >? m_txid (meta0 db));
      destruct (validate (meta0 db)), (validate (meta1 db)); congruence.
  - intros db'. unfold mmap.
    repeat (match goal with
            | |- context [match ?x with _ => _ end] => destruct x eqn:?
            end; simpl in *; try congruence).
  - intros Hps. unfold mmap.
    assert (Hsz : forall size, mmapSize maxMapSize db size <> Panic).
    { intros size. unfold mmapSize.
      destruct (find _ _); [congruence|].
      destruct (maxMapSize <? size); [congruence|].
      destruct (Z.eqb_spec (int64 (pageSize db)) 0); congruence. }
    destruct (stat_size env) as [fsize|]; [|eauto].
    destruct (fsize <? pageSize db * 2); [eauto|].
    destruct (mmapSize maxMapSize db _) eqn:Hm; [|eauto|now apply Hsz in Hm|].
    2: { exfalso. revert Hm. unfold mmapSize. repeat case_match; congruence. }
    destruct (munmap_err env); [eauto|].
    destruct (mmap_err env); [eauto|]. simpl.
    destruct (validate (page0_meta env)); [|congruence].
    destruct (validate (page1_meta env)); [|congruence]. eauto.
Qed.

(** C1 (the public interface).  [DB.Put] never reads its [value]
    argument: two calls that differ only in the metric map leave the same
    database and return the same error, so what a later [Get] returns
    cannot depend on the map that was put.  However the bytes that [Get]
    returns are read back as a metric map, [Get] after [Put] cannot give
    back both of two different maps. *)
Theorem Put_ignores_value tx_init cursor_seek tx_commit
    (db : DB) (key : Z) (M1 M2 : gmap string float) :
  Put tx_init cursor_seek tx_commit db key M1 = Put tx_init cursor_seek tx_commit db key M2 /\
  Get cursor_seek (fst (Put tx_init cursor_seek tx_commit db key M1)) key =
  Get cursor_seek (fst (Put tx_init cursor_seek tx_commit db key M2)) key /\
  (forall read : list byte -> gmap string float,
     M1 <> M2 ->
     ~ (exists v1 v2,
          Get cursor_seek (fst (Put tx_init cursor_seek tx_commit db key M1)) key = Ok v1 /\
          read v1 = M1 /\
          Get cursor_seek (fst (Put tx_init cursor_seek tx_commit db key M2)) key = Ok v2 /\
          read v2 = M2)).
Proof.
  split; [reflexivity|]. split; [reflexivity|].
  intros read Hne (v1 & v2 & H1 & Hr1 & H2 & Hr2).
  change (Put tx_init cursor_seek tx_commit db key M2)
    with (Put tx_init cursor_seek tx_commit db key M1) in H2.
  rewrite H1 in H2. injection H2 as <-. congruence.
Qed.

(** The database of the examples, where nothing is ever stored: [Put]
    with the metric "x" succeeds, and [Get] then reports the key as
    missing. *)
Example Put_then_Get_not_found :
  let seek := fun (_ : DB) (_ : Z) => (0, []) in
  let commit := fun (_ : Tx) (db : DB) => (db, None) in
  let init := fun (_ : DB) (t : Tx) => t in
  snd (Put init seek commit db4096 1 {[ "x"%string := 1%float ]}) = None /\
  Get seek (fst (Put init seek commit db4096 1 {[ "x"%string := 1%float ]})) 1 =
    Err ErrNotFound.
Proof. split; reflexivity. Qed.

(** The two meta pages of [db4096] validate (their checksum is unset),
    page 1 has the higher transaction id and is the active one; with its
    magic damaged the choice falls back to page 0. *)
Example db_meta_db4096 :
  validate (meta0 db4096) = None /\ validate (meta1 db4096) = None /\
  db_meta db4096 = Some (meta1 db4096) /\
  db_meta (MkDB true (meta0 db4096) (Meta 0 version 4096 0 2 3 4 1 0) 4096 None []) =
    Some (meta0 db4096) /\
  db_meta (MkDB true (Meta 0 version 4096 0 2 3 4 0 0) (Meta magic 2 4096 0 2 3 4 1 0)
                4096 None []) = None.
Proof. repeat split; reflexivity. Qed.

(** The checksum [DB.init] stores in meta page 0 of a 4 KiB database,
    and what [validate] says about a page with the right and with a wrong
    checksum. *)
Example sum64_db4096 :
  sum64 (meta0 db4096) = 14375998125359304029 /\
  validate (Meta magic version 4096 0 2 3 4 0 14375998125359304029) = None /\
  validate (Meta magic version 4096 0 2 3 4 0 1) = Some ErrChecksum.
Proof. repeat split; vm_compute; reflexivity. Qed.

Lemma int64_small (z : Z) : - 2 ^ 63 <= z < 2 ^ 63 -> int64 z = z.
Proof.
  intros Hz. unfold int64, wrapS.
  change (2 ^ (64 - 1)) with (2 ^ 63). change (2 ^ 64) with (2 * 2 ^ 63).
  rewrite Z.mod_small; lia.
Qed.

Lemma mmapSize_loop_small (size : Z) :
  size <= 2 ^ 30 ->
  exists i, 15 <= i <= 30 /\
    find (fun i => size <=? Z.shiftl 1 i) (seqZ 15 16) = Some i /\
    size <= 2 ^ i /\ (forall j, 15 <= j -> size <= 2 ^ j -> i <= j).
Proof.
  intros Hsize.
  assert (Hmono : forall i j, 0 <= j < i -> 2 ^ j <= 2 ^ (i - 1)).
  { intros i j Hij. apply Z.pow_le_mono_r; lia. }
  change (seqZ 15 16) with [15;16;17;18;19;20;21;22;23;24;25;26;27;28;29;30].
  cbn [find].
  repeat match goal with
  | |- context [size <=? Z.shiftl 1 ?i] =>
      destruct (Z.leb_spec size (Z.shiftl 1 i)) as [Hle|?];
      [ exists i; rewrite Z.shiftl_1_l in Hle;
        split; [lia|split; [reflexivity|split; [exact Hle|]]];
        intros j Hj Hsj;
        destruct (Z_lt_le_dec j i) as [Hlt|]; [exfalso|lia];
        try lia;
        pose proof (Hmono i j ltac:(lia)) as Hm;
        repeat match goal with
               | H : context [Z.shiftl 1 _] |- _ => rewrite Z.shiftl_1_l in H
               end;
        let k := eval cbv in (i - 1) in change (i - 1) with k in Hm;
        lia
      | ]
  end.
  change (Z.shiftl 1 30) with (2 ^ 30) in *. lia.
Qed.

Lemma mmapSize_loop_large (size : Z) :
  2 ^ 30 < size -> find (fun i => size <=? Z.shiftl 1 i) (seqZ 15 16) = None.
Proof.
  intros Hsize.
  change (seqZ 15 16) with [15;16;17;18;19;20;21;22;23;24;25;26;27;28;29;30].
  cbn [find].
  repeat match goal with
  | |- context [size <=? Z.shiftl 1 ?i] =>
      destruct (Z.leb_spec size (Z.shiftl 1 i)) as [Hle|?];
      [ exfalso; rewrite Z.shiftl_1_l in Hle;
        assert (2 ^ i <= 2 ^ 30) by (apply Z.pow_le_mono_r; lia); lia | ]
  end.
  reflexivity.
Qed.

(** C7.  With a hard maximum of at least 1 GiB (below 2^62) and a positive
    32-bit page size: a request of 1 byte to 2^30 bytes gets the smallest
    power of two from 2^15 up that covers it; a request above 1 GiB and
    not above the maximum gets the request rounded up to a multiple [g] of
    1 GiB, then up to a multiple [p] of the page size, then capped at the
    maximum; a request above the maximum is the error "mmap too large". *)
Theorem mmapSize_spec (maxMapSize : Z) (db : DB) (size : Z)
    (Hmax : 2 ^ 30 <= maxMapSize < 2 ^ 62)
    (Hps : 0 < pageSize db < 2 ^ 32) :
  (1 <= size <= 2 ^ 30 ->
     exists i, 15 <= i <= 30 /\ mmapSize maxMapSize db size = Ok (2 ^ i) /\
       size <= 2 ^ i /\ (forall j, 15 <= j -> size <= 2 ^ j -> i <= j)) /\
  (2 ^ 30 < size <= maxMapSize ->
     exists g p,
       (2 ^ 30 | g) /\ size <= g < size + 2 ^ 30 /\
       (pageSize db | p) /\ g <= p < g + pageSize db /\
       mmapSize maxMapSize db size = Ok (Z.min maxMapSize p)) /\
  (maxMapSize < size -> mmapSize maxMapSize db size = Err (Errorf "mmap too large")).
Proof.
  repeat split.
  - intros Hsize.
    destruct (mmapSize_loop_small size ltac:(lia)) as (i & Hi & Hfind & Hcov & Hmin).
    exists i. unfold mmapSize. rewrite Hfind, Z.shiftl_1_l. auto.
  - intros Hsize. unfold mmapSize.
    rewrite mmapSize_loop_large by lia.
    destruct (Z.ltb_spec maxMapSize size) as [|_]; [lia|].
    change (Z.shiftl 1 30) with (2 ^ 30) in *. unfold maxMmapStep.
    change (Z.shiftl 1 30) with (2 ^ 30).
    assert (H62 : 2 ^ 62 = 2 ^ 30 * 2 ^ 32) by reflexivity.
    assert (H63 : 2 ^ 63 = 2 * 2 ^ 62) by reflexivity.
    assert (H30 : 0 < 2 ^ 30) by reflexivity.
    assert (H32 : 2 ^ 32 = 4 * 2 ^ 30) by reflexivity.
    rewrite (int64_small size) by lia.
    rewrite (int64_small (2 ^ 30)) by lia.
    rewrite (Z.rem_mod_nonneg size (2 ^ 30)) by lia.
    pose proof (Z.mod_pos_bound size (2 ^ 30) H30) as Hrem.
    pose proof (Z.div_mod size (2 ^ 30) ltac:(lia)) as Hdm.
    set (rem := size mod 2 ^ 30) in *.
    rewrite (int64_small (2 ^ 30 - rem)) by lia.
    rewrite (int64_small (size + (2 ^ 30 - rem))) by lia.
    rewrite (int64_small (pageSize db)) by lia.
    set (g := if 0 <? rem then size + (2 ^ 30 - rem) else size).
    assert (Hg : (2 ^ 30 | g) /\ size <= g < size + 2 ^ 30).
    { subst g. destruct (Z.ltb_spec 0 rem).
      - split; [|lia]. exists (size / 2 ^ 30 + 1). lia.
      - split; [|lia]. exists (size / 2 ^ 30). lia. }
    destruct Hg as [Hgdiv Hgrange].
    destruct (Z.eqb_spec (pageSize db) 0) as [|_]; [lia|].
    fold g.
    rewrite (Z.rem_mod_nonneg g (pageSize db)) by lia.
    rewrite (Z.quot_div_nonneg g (pageSize db)) by lia.
    pose proof (Z.mod_pos_bound g (pageSize db) ltac:(lia)) as Hprem.
    pose proof (Z.div_mod g (pageSize db) ltac:(lia)) as Hpdm.
    assert (Hq : 0 <= g / pageSize db) by (apply Z.div_pos; lia).
    assert (Hqp : pageSize db * (g / pageSize db) <= g) by lia.
    rewrite (int64_small (g / pageSize db + 1)) by nia.
    rewrite (int64_small ((g / pageSize db + 1) * pageSize db)) by nia.
    set (p := if negb (g mod pageSize db =? 0)
              then (g / pageSize db + 1) * pageSize db else g).
    exists g, p. repeat split; try lia; try assumption.
    + subst p. destruct (Z.eqb_spec (g mod pageSize db) 0) as [Hz|Hnz]; simpl.
      * exists (g / pageSize db). lia.
      * exists (g / pageSize db + 1). lia.
    + subst p. destruct (Z.eqb_spec (g mod pageSize db) 0); simpl; lia.
    + subst p. destruct (Z.eqb_spec (g mod pageSize db) 0); simpl; lia.
    + f_equal. destruct (Z.ltb_spec maxMapSize p); lia.
  - intros Hsize. unfold mmapSize.
    rewrite mmapSize_loop_large by lia.
    destruct (Z.ltb_spec maxMapSize size); [reflexivity|lia].
Qed.

Lemma mmapSize_spec_witness :
  (2 ^ 30 <= 0xFFFFFFFFFFFF < 2 ^ 62) /\ (0 < pageSize db4096 < 2 ^ 32) /\
  (1 <= 2 ^ 30 + 1 <= 2 ^ 30 ->
     exists i, 15 <= i <= 30 /\ mmapSize 0xFFFFFFFFFFFF db4096 (2 ^ 30 + 1) = Ok (2 ^ i) /\
       2 ^ 30 + 1 <= 2 ^ i /\ (forall j, 15 <= j -> 2 ^ 30 + 1 <= 2 ^ j -> i <= j)) /\
  (2 ^ 30 < 2 ^ 30 + 1 <= 0xFFFFFFFFFFFF ->
     exists g p,
       (2 ^ 30 | g) /\ 2 ^ 30 + 1 <= g < 2 ^ 30 + 1 + 2 ^ 30 /\
       (pageSize db4096 | p) /\ g <= p < g + pageSize db4096 /\
       mmapSize 0xFFFFFFFFFFFF db4096 (2 ^ 30 + 1) = Ok (Z.min 0xFFFFFFFFFFFF p)) /\
  (0xFFFFFFFFFFFF < 2 ^ 30 + 1 ->
     mmapSize 0xFFFFFFFFFFFF db4096 (2 ^ 30 + 1) = Err (Errorf "mmap too large")).
Proof.
  split; [lia|]. split; [simpl; lia|].
  apply (mmapSize_spec 0xFFFFFFFFFFFF db4096 (2 ^ 30 + 1)); simpl; lia.
Defined.

End StoreFacts.

(* ===================================================================== *)
(** * Further properties of store/db.go                                   *)
(* ===================================================================== *)

Module StoreMoreFacts.
Import Store StoreMore StoreFacts.

(* --------------------------------------------------------------------- *)
(** ** The active meta page                                               *)
(* --------------------------------------------------------------------- *)

(** X1.  Whatever [DB.meta] returns is one of the two meta pages and
    validates; when both pages validate it is the one with the higher
    transaction id, page 0 on a tie; it panics only when neither page
    validates. *)
Theorem db_meta_characterised (db : DB) :
  match db_meta db with
  | Some m =>
      validate m = None /\ (m = meta0 db \/ m = meta1 db) /\
      (validate (meta0 db) = None -> validate (meta1 db) = None ->
       m_txid m = Z.max (m_txid (meta0 db)) (m_txid (meta1 db)) /\
       (m_txid (meta0 db) = m_txid (meta1 db) -> m = meta0 db))
  | None => validate (meta0 db) <> None /\ validate (meta1 db) <> None
  end.
Proof.
  unfold db_meta.
  destruct (Z.gtb_spec (m_txid (meta1 db)) (m_txid (meta0 db))) as [Hgt|Hle];
    destruct (validate (meta0 db)) eqn:H0, (validate (meta1 db)) eqn:H1;
    rewrite ?H0, ?H1; repeat split; auto; try congruence; try lia.
Qed.

(** X2.  After a [DB.mmap] that reports success the meta references are
    the two pages of the new mapping and [DB.meta] does not panic: it
    returns a page that validates. *)
Theorem mmap_success_meta (maxMapSize : Z) (db : DB) (minsz : Z) (env : MapEnv) (db' : DB) :
  mmap maxMapSize db minsz env = Some (db', None) ->
  meta0 db' = page0_meta env /\ meta1 db' = page1_meta env /\
  pageSize db' = pageSize db /\
  exists m, db_meta db' = Some m /\ validate m = None.
Proof.
  unfold mmap. intros H.
  destruct (stat_size env) as [fsize|]; [|discriminate].
  destruct (fsize <? pageSize db * 2); [discriminate|].
  destruct (mmapSize maxMapSize db _); try discriminate.
  destruct (munmap_err env); [discriminate|].
  destruct (mmap_err env); [discriminate|].
  cbn [meta0 meta1] in H.
  assert (Hdb : db' = MkDB (opened db) (page0_meta env) (page1_meta env)
                           (pageSize db) (rwtx db) (txs db) /\
                (validate (page0_meta env) = None \/ validate (page1_meta env) = None)).
  { destruct (validate (page0_meta env)), (validate (page1_meta env));
      inversion H; auto. }
  destruct Hdb as [-> Hvalid]. cbn [meta0 meta1 pageSize].
  repeat split.
  unfold db_meta. cbn [meta0 meta1].
  destruct (m_txid (page1_meta env) >? m_txid (page0_meta env));
    destruct (validate (page0_meta env)) eqn:H0, (validate (page1_meta env)) eqn:H1;
    rewrite ?H0, ?H1; try (destruct Hvalid; discriminate); eauto.
Qed.

(** The mapping environment of the witness: a file of four 4 KiB pages
    that holds the meta pages of [db4096]. *)
Lemma mmap_success_meta_witness :
  mmap 0xFFFFFFFFFFFF db4096 0
       (MkMapEnv (Some 16384) None None (meta0 db4096) (meta1 db4096)) =
    Some (db4096, None) /\
  meta0 db4096 = meta0 db4096 /\ meta1 db4096 = meta1 db4096 /\
  pageSize db4096 = pageSize db4096 /\
  exists m, db_meta db4096 = Some m /\ validate m = None.
Proof.
  assert (H : mmap 0xFFFFFFFFFFFF db4096 0
                (MkMapEnv (Some 16384) None None (meta0 db4096) (meta1 db4096)) =
              Some (db4096, None)) by (vm_compute; reflexivity).
  split; [exact H|].
  exact (mmap_success_meta 0xFFFFFFFFFFFF db4096 0 _ db4096 H).
Defined.

(* --------------------------------------------------------------------- *)
(** ** A new file                                                         *)
(* --------------------------------------------------------------------- *)

Lemma sum64_ignores_checksum (a b c d e f g h x y : Z) :
  sum64 (Meta a b c d e f g h x) = sum64 (Meta a b c d e f g h y).
Proof.
  unfold sum64, meta_prefix_bytes.
  cbn [m_magic m_version m_pageSize m_flags m_freelist m_data m_pgid m_txid].
  reflexivity.
Qed.

Lemma init_meta_checksum (pageSize i : Z) :
  m_checksum (init_meta pageSize i) = sum64 (init_meta pageSize i).
Proof. exact (sum64_ignores_checksum _ _ _ _ _ _ _ _ 0 _). Qed.

Lemma init_metas_validate_aux (pageSize i : Z) : validate (init_meta pageSize i) = None.
Proof.
  unfold validate. rewrite <- init_meta_checksum.
  change (m_magic (init_meta pageSize i)) with magic.
  change (m_version (init_meta pageSize i)) with version.
  rewrite (Z.eqb_refl magic), (Z.eqb_refl version), (Z.eqb_refl (m_checksum _)).
  cbn [negb]. rewrite andb_false_r. reflexivity.
Qed.

(** X3.  The two meta pages [DB.init] writes validate, whatever the page
    size: the checksum stored is the checksum recomputed.  They carry the
    transaction ids 0 and 1, and on a database that holds them [DB.meta]
    returns the second. *)
Theorem init_metas_validate (pageSize : Z) :
  validate (init_meta pageSize 0) = None /\
  validate (init_meta pageSize 1) = None /\
  m_checksum (init_meta pageSize 0) = sum64 (init_meta pageSize 0) /\
  m_checksum (init_meta pageSize 1) = sum64 (init_meta pageSize 1) /\
  forall db, meta0 db = init_meta pageSize 0 -> meta1 db = init_meta pageSize 1 ->
             db_meta db = Some (init_meta pageSize 1).
Proof.
  split; [apply init_metas_validate_aux|]. split; [apply init_metas_validate_aux|].
  split; [apply init_meta_checksum|]. split; [apply init_meta_checksum|].
  intros db H0 H1. unfold db_meta. rewrite H0, H1.
  change (m_txid (init_meta pageSize 1)) with 1.
  change (m_txid (init_meta pageSize 0)) with 0.
  change (1 >? 0) with true. cbv iota.
  rewrite init_metas_validate_aux. reflexivity.
Qed.

(** X4.  A file fresh from [DB.init] opens: with page size [ps] (at most
    2^28, so that four pages stay within the doubling range) [DB.mmap]
    with a minimum size of zero reports success and installs the two meta
    pages of [init]. *)
Theorem mmap_after_init (maxMapSize : Z) (db : DB) :
  0 < pageSize db <= 2 ^ 28 ->
  mmap maxMapSize db 0 (init_env (pageSize db)) =
    Some (MkDB (opened db) (init_meta (pageSize db) 0) (init_meta (pageSize db) 1)
               (pageSize db) (rwtx db) (txs db), None).
Proof.
  intros Hps. unfold mmap, init_env. cbn [stat_size munmap_err mmap_err page0_meta page1_meta].
  destruct (Z.ltb_spec (pageSize db * 4) (pageSize db * 2)); [lia|].
  destruct (Z.ltb_spec (pageSize db * 4) 0); [lia|].
  assert (Hsize : pageSize db * 4 <= 2 ^ 30) by (change (2 ^ 30) with (4 * 2 ^ 28); lia).
  destruct (mmapSize_loop_small (pageSize db * 4) Hsize) as (i & _ & Hfind & _).
  unfold mmapSize. rewrite Hfind. cbn [meta0 meta1].
  rewrite !init_metas_validate_aux. reflexivity.
Qed.
Lemma mmap_after_init_witness :
  0 < pageSize db4096 <= 2 ^ 28 /\
  mmap 0xFFFFFFFFFFFF db4096 0 (init_env (pageSize db4096)) =
    Some (MkDB (opened db4096) (init_meta (pageSize db4096) 0)
               (init_meta (pageSize db4096) 1)
               (pageSize db4096) (rwtx db4096) (txs db4096), None).
Proof.
  assert (H : 0 < pageSize db4096 <= 2 ^ 28) by (simpl; lia).
  split; [exact H|]. exact (mmap_after_init 0xFFFFFFFFFFFF db4096 H).
Defined.

(* --------------------------------------------------------------------- *)
(** ** The checksum                                                       *)
(* --------------------------------------------------------------------- *)

Lemma fnv64a_step_range (h : Z) (b : byte) : 0 <= fnv64a_step h b < 2 ^ 64.
Proof. unfold fnv64a_step, uint64, wrapU. apply Z.mod_pos_bound. reflexivity. Qed.

Lemma Z_of_byte_range (b : byte) : 0 <= Z.of_N (Byte.to_N b) < 256.
Proof. pose proof (Byte.to_N_bounded b). lia. Qed.

Lemma Z_of_byte_inj (b b' : byte) : Z.of_N (Byte.to_N b) = Z.of_N (Byte.to_N b') -> b = b'.
Proof.
  intros H. apply N2Z.inj in H.
  pose proof (Byte.of_to_N b) as Hb. rewrite H, Byte.of_to_N in Hb. congruence.
Qed.

Lemma lxor_range (a b : Z) : 0 <= a < 2 ^ 64 -> 0 <= b < 2 ^ 64 -> 0 <= Z.lxor a b < 2 ^ 64.
Proof.
  intros Ha Hb.
  assert (Hnn : 0 <= Z.lxor a b) by (apply Z.lxor_nonneg; lia).
  split; [exact Hnn|].
  destruct (Z.eq_dec (Z.lxor a b) 0) as [->|Hne]; [reflexivity|].
  apply Z.log2_lt_pow2; [lia|].
  pose proof (Z.log2_lxor a b ltac:(lia) ltac:(lia)) as Hlog.
  assert (Hla : Z.log2 a < 64).
  { destruct (Z.eq_dec a 0) as [->|]; [reflexivity|]. apply Z.log2_lt_pow2; lia. }
  assert (Hlb : Z.log2 b < 64).
  { destruct (Z.eq_dec b 0) as [->|]; [reflexivity|]. apply Z.log2_lt_pow2; lia. }
  lia.
Qed.

(** Multiplying by the FNV prime is one-to-one modulo 2^64: the prime is
    odd, its inverse is 14886173955864302971. *)
Lemma mul_prime_inj (x y : Z) :
  0 <= x < 2 ^ 64 -> 0 <= y < 2 ^ 64 ->
  (x * prime64) mod 2 ^ 64 = (y * prime64) mod 2 ^ 64 -> x = y.
Proof.
  intros Hx Hy H.
  assert (Hinv : forall z, 0 <= z < 2 ^ 64 ->
                   ((z * prime64) mod 2 ^ 64 * 14886173955864302971) mod 2 ^ 64 = z).
  { intros z Hz. rewrite Z.mul_mod_idemp_l by lia.
    rewrite <- Z.mul_assoc.
    rewrite <- Z.mul_mod_idemp_r by lia.
    change ((prime64 * 14886173955864302971) mod 2 ^ 64) with 1.
    rewrite Z.mul_1_r. apply Z.mod_small. exact Hz. }
  rewrite <- (Hinv x Hx), <- (Hinv y Hy), H. reflexivity.
Qed.

Lemma fnv64a_step_inj_state (h h' : Z) (b : byte) :
  0 <= h < 2 ^ 64 -> 0 <= h' < 2 ^ 64 ->
  fnv64a_step h b = fnv64a_step h' b -> h = h'.
Proof.
  intros Hh Hh' H. unfold fnv64a_step, uint64, wrapU in H.
  pose proof (Z_of_byte_range b) as Hb.
  assert (Hb' : 0 <= Z.of_N (Byte.to_N b) < 2 ^ 64) by lia.
  apply mul_prime_inj in H; try (apply lxor_range; assumption).
  assert (Hc : forall x y, Z.lxor (Z.lxor x y) y = x).
  { intros x y. rewrite Z.lxor_assoc, Z.lxor_nilpotent, Z.lxor_0_r. reflexivity. }
  rewrite <- (Hc h (Z.of_N (Byte.to_N b))), H. apply Hc.
Qed.

Lemma fnv64a_step_inj_byte (h : Z) (b b' : byte) :
  0 <= h < 2 ^ 64 -> fnv64a_step h b = fnv64a_step h b' -> b = b'.
Proof.
  intros Hh H. unfold fnv64a_step, uint64, wrapU in H.
  pose proof (Z_of_byte_range b) as Hb. pose proof (Z_of_byte_range b') as Hb'.
  apply mul_prime_inj in H; try (apply lxor_range; lia).
  apply Z_of_byte_inj.
  assert (Hc : forall x y, Z.lxor x (Z.lxor x y) = y).
  { intros x y. rewrite <- Z.lxor_assoc, Z.lxor_nilpotent, Z.lxor_0_l. reflexivity. }
  rewrite <- (Hc h (Z.of_N (Byte.to_N b))), H. apply Hc.
Qed.

Lemma fold_step_range (bs : list byte) (h : Z) :
  0 <= h < 2 ^ 64 -> 0 <= fold_left fnv64a_step bs h < 2 ^ 64.
Proof.
  revert h. induction bs as [|b bs IH]; intros h Hh; simpl; [exact Hh|].
  apply IH. apply fnv64a_step_range.
Qed.

Lemma fold_step_inj (bs : list byte) (h h' : Z) :
  0 <= h < 2 ^ 64 -> 0 <= h' < 2 ^ 64 ->
  fold_left fnv64a_step bs h = fold_left fnv64a_step bs h' -> h = h'.
Proof.
  revert h h'. induction bs as [|b bs IH]; intros h h' Hh Hh' H; simpl in H; [exact H|].
  apply IH in H; try apply fnv64a_step_range.
  exact (fnv64a_step_inj_state h h' b Hh Hh' H).
Qed.

(** Two byte strings that differ in exactly one byte never have the same
    FNV-1a hash. *)
Lemma fnv64a_one_byte (pre post : list byte) (b b' : byte) :
  b <> b' -> fnv64a (pre ++ b :: post) <> fnv64a (pre ++ b' :: post).
Proof.
  intros Hne H. unfold fnv64a in H. rewrite !fold_left_app in H. simpl in H.
  assert (Hpre : 0 <= fold_left fnv64a_step pre offset64 < 2 ^ 64)
    by (apply fold_step_range; unfold offset64; lia).
  apply fold_step_inj in H; try apply fnv64a_step_range.
  apply fnv64a_step_inj_byte in H; [contradiction|exact Hpre].
Qed.

(** X5.  A change of exactly one of the 48 bytes that the checksum
    covers is always detected: if [m] validates with a checksum that is
    set (not zero), and [m'] has the same checksum field but its covered
    bytes differ from those of [m] in exactly one place, then [m'] does
    not validate. *)
Theorem validate_detects_one_byte (m m' : meta) (pre post : list byte) (b b' : byte) :
  validate m = None -> m_checksum m <> 0 ->
  m_checksum m' = m_checksum m ->
  meta_prefix_bytes m = pre ++ b :: post ->
  meta_prefix_bytes m' = pre ++ b' :: post ->
  b <> b' ->
  validate m' <> None /\
  (m_magic m' = magic -> m_version m' = version -> validate m' = Some ErrChecksum).
Proof.
  intros Hvalid Hset Hsame Hm Hm' Hne.
  assert (Hsum : m_checksum m = sum64 m).
  { revert Hvalid. unfold validate.
    destruct (m_magic m =? magic); [|discriminate].
    destruct (m_version m =? version); [|discriminate]. cbn [negb].
    destruct (Z.eqb_spec (m_checksum m) 0); [contradiction|].
    destruct (Z.eqb_spec (m_checksum m) (sum64 m)); [auto|discriminate]. }
  assert (Hdiff : m_checksum m' <> sum64 m').
  { rewrite Hsame, Hsum. unfold sum64. rewrite Hm, Hm'. apply fnv64a_one_byte. exact Hne. }
  assert (Hset' : m_checksum m' <> 0) by congruence.
  unfold validate.
  destruct (Z.eqb_spec (m_checksum m') 0); [contradiction|].
  destruct (Z.eqb_spec (m_checksum m') (sum64 m')); [contradiction|].
  split.
  - destruct (m_magic m' =? magic); [|discriminate].
    destruct (m_version m' =? version); discriminate.
  - intros -> ->. rewrite !Z.eqb_refl. reflexivity.
Qed.

Lemma validate_detects_one_byte_witness :
  validate (init_meta 4096 0) = None /\
  validate (Meta magic version 4096 0 2 3 4 1 (m_checksum (init_meta 4096 0))) =
    Some ErrChecksum.
Proof.
  split; [vm_compute; reflexivity|].
  refine (proj2 (validate_detects_one_byte (init_meta 4096 0)
            (Meta magic version 4096 0 2 3 4 1 (m_checksum (init_meta 4096 0)))
            (firstn 40 (meta_prefix_bytes (init_meta 4096 0)))
            (repeat x00 7) x00 x01 _ _ _ _ _ _) _ _);
    try (vm_compute; reflexivity); vm_compute; discriminate.
Defined.

(* --------------------------------------------------------------------- *)
(** ** The size of the mapping                                            *)
(* --------------------------------------------------------------------- *)

Lemma next_multiple_spec (a x : Z) :
  0 < a -> 0 <= x ->
  (a | next_multiple a x) /\ x <= next_multiple a x < x + a.
Proof.
  intros Ha Hx. unfold next_multiple.
  pose proof (Z.mod_pos_bound x a Ha) as Hrem.
  pose proof (Z.div_mod x a ltac:(lia)) as Hdm.
  destruct (Z.eqb_spec (x mod a) 0) as [Hz|Hnz].
  - split; [exists (x / a); lia|lia].
  - split; [exists (x / a + 1); lia|lia].
Qed.

Lemma next_multiple_fixed (a x : Z) : 0 < a -> (a | x) -> next_multiple a x = x.
Proof.
  intros Ha [k ->]. unfold next_multiple. rewrite Z.mod_mul by lia. reflexivity.
Qed.

Lemma next_multiple_least (a x y : Z) :
  0 < a -> 0 <= x -> x <= y -> (a | y) -> next_multiple a x <= y.
Proof.
  intros Ha Hx Hxy [k ->].
  destruct (next_multiple_spec a x Ha Hx) as [[j Hj] Hr]. rewrite Hj in *.
  assert (j < k + 1) by (apply (Z.mul_lt_mono_pos_r a); lia).
  apply Z.mul_le_mono_nonneg_r; lia.
Qed.

Lemma next_multiple_mono (a x y : Z) :
  0 < a -> 0 <= x -> x <= y -> next_multiple a x <= next_multiple a y.
Proof.
  intros Ha Hx Hxy.
  destruct (next_multiple_spec a y Ha ltac:(lia)) as [Hdiv Hr].
  apply next_multiple_least; auto; lia.
Qed.

(** Above 1 GiB and up to the maximum, [mmapSize] is the request taken to
    the next multiple of 1 GiB, then to the next multiple of the page
    size, then capped. *)
Lemma mmapSize_large (maxMapSize : Z) (db : DB) (size : Z) :
  2 ^ 30 <= maxMapSize < 2 ^ 62 -> 0 < pageSize db < 2 ^ 32 ->
  2 ^ 30 < size <= maxMapSize ->
  mmapSize maxMapSize db size =
    Ok (Z.min maxMapSize (next_multiple (pageSize db) (next_multiple (2 ^ 30) size))).
Proof.
  intros Hmax Hps Hsize. unfold mmapSize.
  rewrite mmapSize_loop_large by lia.
  destruct (Z.ltb_spec maxMapSize size) as [|_]; [lia|].
  unfold maxMmapStep. change (Z.shiftl 1 30) with (2 ^ 30).
  assert (H62 : 2 ^ 62 = 2 ^ 30 * 2 ^ 32) by reflexivity.
  assert (H63 : 2 ^ 63 = 2 * 2 ^ 62) by reflexivity.
  assert (H30 : 0 < 2 ^ 30) by reflexivity.
  assert (H32 : 2 ^ 32 = 4 * 2 ^ 30) by reflexivity.
  rewrite (int64_small size) by lia.
  rewrite (int64_small (2 ^ 30)) by lia.
  rewrite (Z.rem_mod_nonneg size (2 ^ 30)) by lia.
  pose proof (Z.mod_pos_bound size (2 ^ 30) H30) as Hrem.
  pose proof (Z.div_mod size (2 ^ 30) ltac:(lia)) as Hdm.
  rewrite (int64_small (2 ^ 30 - size mod 2 ^ 30)) by lia.
  rewrite (int64_small (size + (2 ^ 30 - size mod 2 ^ 30))) by lia.
  rewrite (int64_small (pageSize db)) by lia.
  assert (Hg : (if 0 <? size mod 2 ^ 30 then size + (2 ^ 30 - size mod 2 ^ 30) else size)
               = next_multiple (2 ^ 30) size).
  { unfold next_multiple.
    destruct (Z.ltb_spec 0 (size mod 2 ^ 30)), (Z.eqb_spec (size mod 2 ^ 30) 0); lia. }
  rewrite Hg.
  destruct (next_multiple_spec (2 ^ 30) size H30 ltac:(lia)) as [_ Hgr].
  set (g := next_multiple (2 ^ 30) size) in *.
  destruct (Z.eqb_spec (pageSize db) 0) as [|_]; [lia|].
  rewrite (Z.rem_mod_nonneg g (pageSize db)) by lia.
  rewrite (Z.quot_div_nonneg g (pageSize db)) by lia.
  pose proof (Z.mod_pos_bound g (pageSize db) ltac:(lia)) as Hprem.
  pose proof (Z.div_mod g (pageSize db) ltac:(lia)) as Hpdm.
  assert (Hq : 0 <= g / pageSize db) by (apply Z.div_pos; lia).
  assert (Hqp : pageSize db * (g / pageSize db) <= g) by lia.
  rewrite (int64_small (g / pageSize db + 1)) by nia.
  rewrite (int64_small ((g / pageSize db + 1) * pageSize db)) by nia.
  f_equal. unfold next_multiple.
  destruct (Z.eqb_spec (g mod pageSize db) 0); cbn [negb];
    match goal with |- context [?a <? ?b] => destruct (Z.ltb_spec a b) end; lia.
Qed.

Lemma mmapSize_small (maxMapSize : Z) (db : DB) (size : Z) :
  size <= 2 ^ 30 ->
  exists i, 15 <= i <= 30 /\ mmapSize maxMapSize db size = Ok (2 ^ i) /\
    size <= 2 ^ i /\ (forall j, 15 <= j -> size <= 2 ^ j -> i <= j).
Proof.
  intros Hsize.
  destruct (mmapSize_loop_small size Hsize) as (i & Hi & Hfind & Hcov & Hmin).
  exists i. unfold mmapSize. rewrite Hfind, Z.shiftl_1_l. auto.
Qed.

(** X6.  [mmapSize] never hands out less than was asked for and never
    less than 32 KiB, and a larger request never gets a smaller mapping:
    for two requests [size <= size'] that are within the maximum, both
    calls succeed, with results [r <= r'], [size <= r] and
    [2^15 <= r <= maxMapSize]. *)
Theorem mmapSize_monotone (maxMapSize : Z) (db : DB) (size size' : Z) :
  2 ^ 30 <= maxMapSize < 2 ^ 62 -> 0 < pageSize db < 2 ^ 32 ->
  size <= size' <= maxMapSize ->
  exists r r',
    mmapSize maxMapSize db size = Ok r /\ mmapSize maxMapSize db size' = Ok r' /\
    size <= r /\ 2 ^ 15 <= r /\ r <= r' /\ r' <= maxMapSize.
Proof.
  intros Hmax Hps Hsz.
  assert (H30 : 0 < 2 ^ 30) by reflexivity.
  assert (Hpow : forall i, 15 <= i <= 30 -> 2 ^ 15 <= 2 ^ i <= 2 ^ 30).
  { intros i Hi. split; apply Z.pow_le_mono_r; lia. }
  destruct (Z_le_gt_dec size' (2 ^ 30)) as [Hs'|Hs'].
  - destruct (mmapSize_small maxMapSize db size ltac:(lia)) as (i & Hi & -> & Hcov & Hmin).
    destruct (mmapSize_small maxMapSize db size' Hs') as (i' & Hi' & -> & Hcov' & Hmin').
    exists (2 ^ i), (2 ^ i'). pose proof (Hpow i Hi). pose proof (Hpow i' Hi').
    repeat split; try lia.
    apply Z.pow_le_mono_r; [lia|]. apply Hmin; lia.
  - rewrite (mmapSize_large maxMapSize db size' Hmax Hps ltac:(lia)).
    destruct (next_multiple_spec (2 ^ 30) size' H30 ltac:(lia)) as [_ Hg'].
    destruct (next_multiple_spec (pageSize db) (next_multiple (2 ^ 30) size')
                ltac:(lia) ltac:(lia)) as [_ Hp'].
    destruct (Z_le_gt_dec size (2 ^ 30)) as [Hs|Hs].
    + destruct (mmapSize_small maxMapSize db size Hs) as (i & Hi & -> & Hcov & Hmin).
      pose proof (Hpow i Hi).
      eexists _, _. repeat split; try reflexivity; lia.
    + rewrite (mmapSize_large maxMapSize db size Hmax Hps ltac:(lia)).
      destruct (next_multiple_spec (2 ^ 30) size H30 ltac:(lia)) as [_ Hg].
      destruct (next_multiple_spec (pageSize db) (next_multiple (2 ^ 30) size)
                  ltac:(lia) ltac:(lia)) as [_ Hp].
      pose proof (next_multiple_mono (2 ^ 30) size size' H30 ltac:(lia) ltac:(lia)) as Hm1.
      pose proof (next_multiple_mono (pageSize db) (next_multiple (2 ^ 30) size)
                    (next_multiple (2 ^ 30) size') ltac:(lia) ltac:(lia) Hm1) as Hm2.
      eexists _, _. repeat split; try reflexivity; lia.
Qed.

Lemma mmapSize_monotone_witness :
  exists r r',
    mmapSize (2 ^ 40) db4096 5000 = Ok r /\ mmapSize (2 ^ 40) db4096 (2 ^ 31 + 1) = Ok r' /\
    5000 <= r /\ 2 ^ 15 <= r /\ r <= r' /\ r' <= 2 ^ 40.
Proof.
  apply (mmapSize_monotone (2 ^ 40) db4096 5000 (2 ^ 31 + 1)); simpl; lia.
Defined.

(** X7.  When the page size divides 1 GiB (every power of two up to
    2^30 does), the page-size step of [mmapSize] changes nothing, as the
    comment in the source expects, and a size that [mmapSize] returned is
    returned unchanged when asked for again. *)
Theorem mmapSize_idempotent (maxMapSize : Z) (db : DB) (size r : Z) :
  2 ^ 30 <= maxMapSize < 2 ^ 62 -> 0 < pageSize db -> (pageSize db | 2 ^ 30) ->
  mmapSize maxMapSize db size = Ok r ->
  mmapSize maxMapSize db r = Ok r /\
  (2 ^ 30 < size -> r = Z.min maxMapSize (next_multiple (2 ^ 30) size)).
Proof.
  intros Hmax Hps0 Hdiv Hr.
  assert (H30 : 0 < 2 ^ 30) by reflexivity.
  assert (Hps : 0 < pageSize db < 2 ^ 32).
  { split; [exact Hps0|]. apply Z.divide_pos_le in Hdiv; lia. }
  assert (Hpow : forall i, 15 <= i <= 30 ->
            exists j, 15 <= j <= 30 /\ mmapSize maxMapSize db (2 ^ i) = Ok (2 ^ i)).
  { intros i Hi. exists i. split; [exact Hi|].
    assert (Hle : 2 ^ i <= 2 ^ 30) by (apply Z.pow_le_mono_r; lia).
    destruct (mmapSize_small maxMapSize db (2 ^ i) Hle) as (j & Hj & -> & Hcov & Hmin).
    f_equal. f_equal. specialize (Hmin i ltac:(lia) ltac:(lia)).
    apply Z.pow_le_mono_r_iff in Hcov; lia. }
  assert (Hstep : forall x, 2 ^ 30 < x ->
            next_multiple (pageSize db) (next_multiple (2 ^ 30) x) = next_multiple (2 ^ 30) x).
  { intros x Hx. apply next_multiple_fixed; [lia|].
    destruct (next_multiple_spec (2 ^ 30) x H30 ltac:(lia)) as [Hd _].
    eapply Z.divide_trans; eauto. }
  destruct (Z_le_gt_dec size (2 ^ 30)) as [Hs|Hs].
  - destruct (mmapSize_small maxMapSize db size Hs) as (i & Hi & Hi' & _).
    rewrite Hi' in Hr. injection Hr as <-.
    destruct (Hpow i Hi) as (_ & _ & ->). split; [reflexivity|lia].
  - destruct (Z_le_gt_dec size maxMapSize) as [Hsm|Hsm].
    + rewrite (mmapSize_large maxMapSize db size Hmax Hps ltac:(lia)), Hstep in Hr by lia.
      injection Hr as <-. split; [|reflexivity].
      destruct (next_multiple_spec (2 ^ 30) size H30 ltac:(lia)) as [Hd Hg].
      set (g := next_multiple (2 ^ 30) size) in *.
      destruct (Z_le_gt_dec (Z.min maxMapSize g) (2 ^ 30)) as [Hsmall|Hbig].
      * assert (Heq : Z.min maxMapSize g = 2 ^ 30) by lia. rewrite Heq.
        destruct (Hpow 30 ltac:(lia)) as (_ & _ & ->). reflexivity.
      * rewrite (mmapSize_large maxMapSize db (Z.min maxMapSize g) Hmax Hps ltac:(lia)), Hstep by lia.
        f_equal.
        destruct (next_multiple_spec (2 ^ 30) (Z.min maxMapSize g) H30 ltac:(lia)) as [_ Hg'].
        destruct (Z_le_gt_dec g maxMapSize).
        -- rewrite (Z.min_r maxMapSize g) by lia.
           rewrite (next_multiple_fixed (2 ^ 30) g H30 Hd). lia.
        -- lia.
    + exfalso. revert Hr. unfold mmapSize.
      rewrite mmapSize_loop_large by lia.
      destruct (Z.ltb_spec maxMapSize size); [discriminate|lia].
Qed.

Lemma mmapSize_idempotent_witness :
  mmapSize (2 ^ 40) db4096 (2 ^ 31 + 1) = Ok (3 * 2 ^ 30) /\
  mmapSize (2 ^ 40) db4096 (3 * 2 ^ 30) = Ok (3 * 2 ^ 30).
Proof.
  assert (H : mmapSize (2 ^ 40) db4096 (2 ^ 31 + 1) = Ok (3 * 2 ^ 30))
    by (vm_compute; reflexivity).
  split; [exact H|].
  refine (proj1 (mmapSize_idempotent (2 ^ 40) db4096 (2 ^ 31 + 1) (3 * 2 ^ 30) _ _ _ H)).
  - simpl; lia.
  - simpl; lia.
  - exists (2 ^ 18). reflexivity.
Defined.

(** X8.  A database whose page size was never set (it is 0 when [Open]
    could not read the first page of a non-empty file) cannot map a file
    of more than 1 GiB: [mmapSize] divides by the page size and panics,
    and so does [mmap]; up to 1 GiB the page size is not looked at. *)
Theorem mmap_zero_page_size (maxMapSize : Z) (db : DB) (minsz : Z) (env : MapEnv) (fsize : Z) :
  pageSize db = 0 -> stat_size env = Some fsize -> 0 <= fsize ->
  (2 ^ 30 < Z.max fsize minsz <= maxMapSize -> mmap maxMapSize db minsz env = None) /\
  (Z.max fsize minsz <= 2 ^ 30 -> mmap maxMapSize db minsz env <> None).
Proof.
  intros Hps Hstat Hf.
  assert (Hsize : (if fsize <? minsz then minsz else fsize) = Z.max fsize minsz)
    by (destruct (Z.ltb_spec fsize minsz); lia).
  unfold mmap. rewrite Hstat, Hps. change (0 * 2) with 0.
  destruct (Z.ltb_spec fsize 0) as [|_]; [lia|]. rewrite Hsize.
  split; intros Hm.
  - unfold mmapSize. rewrite mmapSize_loop_large by lia.
    destruct (Z.ltb_spec maxMapSize (Z.max fsize minsz)) as [|_]; [lia|].
    rewrite Hps. reflexivity.
  - destruct (mmapSize_small maxMapSize db (Z.max fsize minsz) Hm) as (i & _ & -> & _).
    destruct (munmap_err env); [discriminate|].
    destruct (mmap_err env); [discriminate|]. cbn [meta0 meta1].
    destruct (validate (page0_meta env)), (validate (page1_meta env)); discriminate.
Qed.

Lemma mmap_zero_page_size_witness :
  mmap (2 ^ 40) (MkDB true (meta0 db4096) (meta1 db4096) 0 None []) 0
       (MkMapEnv (Some (2 ^ 31)) None None (meta0 db4096) (meta1 db4096)) = None.
Proof.
  refine (proj1 (mmap_zero_page_size (2 ^ 40) (MkDB true (meta0 db4096) (meta1 db4096) 0 None [])
            0 (MkMapEnv (Some (2 ^ 31)) None None (meta0 db4096) (meta1 db4096)) (2 ^ 31)
            _ _ _) _); try reflexivity; simpl; lia.
Defined.

(* --------------------------------------------------------------------- *)
(** ** Closing                                                            *)
(* --------------------------------------------------------------------- *)

(** X9.  [close] on an open database clears [opened] and leaves the
    meta pages, the page size and the transactions alone.  When there is
    no file, or the file closes without error, it also sets [db.file] to
    nil and [db.path] to the empty string and returns nil; when
    [db.file.Close()] fails it returns the error "db file close: "
    followed by the text of that error and leaves [db.file] and
    [db.path] as they were.  On a database that is not open [close]
    changes nothing and returns nil, so a second [close] never retries a
    file that failed to close.  After [close], [Put] returns
    [ErrDatabaseNotOpen] without starting a transaction, seeking or
    committing, whatever those collaborators would do. *)
Theorem close_then_Put tx_init cursor_seek tx_commit
    (h : Handle) (key : Z) (value : gmap string float) :
  opened (h_db (fst (close h))) = false /\
  (meta0 (h_db (fst (close h))), meta1 (h_db (fst (close h))),
   pageSize (h_db (fst (close h))), rwtx (h_db (fst (close h))),
   txs (h_db (fst (close h)))) =
    (meta0 (h_db h), meta1 (h_db h), pageSize (h_db h), rwtx (h_db h), txs (h_db h)) /\
  (opened (h_db h) = true ->
     match file h with
     | Some (Some text) =>
         snd (close h) = Some (Errorf (String.append "db file close: " text)) /\
         file (fst (close h)) = file h /\ path (fst (close h)) = path h
     | _ =>
         snd (close h) = None /\
         file (fst (close h)) = None /\ path (fst (close h)) = ""%string
     end) /\
  (opened (h_db h) = false -> close h = (h, None)) /\
  close (fst (close h)) = (fst (close h), None) /\
  Put tx_init cursor_seek tx_commit (h_db (fst (close h))) key value =
    (h_db (fst (close h)), Some ErrDatabaseNotOpen).
Proof.
  unfold close, Put, beginRWTx.
  destruct h as [[o m0 m1 ps rw ts] p f]. cbn [h_db opened file path].
  destruct o; cbn [negb]; [destruct f as [[text|]|]|]; cbn;
    repeat split; try reflexivity; try discriminate; auto.
Qed.

End StoreMoreFacts.

(* ===================================================================== *)
(** * Further properties of storage/node.go                               *)
(* ===================================================================== *)

Module StorageMoreFacts.
Import Storage StorageMore GoFacts StorageFacts CodecFacts.

(* --------------------------------------------------------------------- *)
(** ** reduce on a leaf, metric by metric                                 *)
(* --------------------------------------------------------------------- *)

Lemma uint16_succ (c : Z) : uint16 (uint16 c + 1) = uint16 (c + 1).
Proof.
  unfold uint16, wrapU. rewrite Z.add_mod_idemp_l by lia. reflexivity.
Qed.

Lemma final_value_cons (k : string) (p : Point) (q : Point) (pts : list Point) :
  final_value k (p :: q :: pts) = final_value k (q :: pts).
Proof. reflexivity. Qed.

(** The fold of the leaf branch from an aggregate [a] on, over the
    points that remain. *)
Lemma spec_leaf_metric_from (k : string) (n_points : Z) (ps : list Point) :
  forall (index : Z) (a : Value),
    index + Z.of_nat (length ps) = n_points ->
    spec_leaf_metric k n_points index ps (Some a) =
    Some (MkValue (fold_left PrimFloat.add (carried k ps) (v_sum a))
                  (fold_left raise (carried k ps) (v_max a))
                  (fold_left lower (carried k ps) (v_min a))
                  (v_first a)
                  (default (v_last a) (final_value k ps))
                  (fold_left (fun c _ => uint16 (c + 1)) (carried k ps) (v_count a))).
Proof.
  induction ps as [|p ps IH]; intros index a Hlen.
  - destruct a; reflexivity.
  - cbn [spec_leaf_metric]. cbn [length] in Hlen.
    assert (Hfinal : (index =? n_points - 1) = match ps with [] => true | _ => false end).
    { destruct ps; cbn [length] in Hlen; [apply Z.eqb_eq|apply Z.eqb_neq]; lia. }
    unfold carried. cbn [omap list_omap]. fold (carried k ps).
    destruct (p_Value p !! k) as [v|] eqn:Hpk.
    + rewrite IH by lia. cbn [fold_left spec_next v_sum v_max v_min v_first v_last v_count].
      rewrite Hfinal. f_equal. f_equal.
      destruct ps as [|q ps]; [|rewrite final_value_cons; reflexivity].
      unfold final_value. cbn. rewrite Hpk. reflexivity.
    + rewrite IH by lia. f_equal. f_equal.
      destruct ps as [|q ps]; [|rewrite final_value_cons; reflexivity].
      unfold final_value. cbn. rewrite Hpk. reflexivity.
Qed.

Lemma spec_leaf_metric_none (k : string) (n_points : Z) (ps : list Point) :
  forall (index : Z),
    index + Z.of_nat (length ps) = n_points ->
    spec_leaf_metric k n_points index ps None =
    match carried k ps with
    | [] => None
    | v0 :: vs =>
        Some (MkValue (fold_left PrimFloat.add vs v0) (fold_left raise vs v0)
                      (fold_left lower vs v0) v0
                      (default v0 (final_value k ps))
                      (fold_left (fun c _ => uint16 (c + 1)) vs 1))
    end.
Proof.
  induction ps as [|p ps IH]; intros index Hlen; [reflexivity|].
  cbn [spec_leaf_metric]. cbn [length] in Hlen.
  unfold carried. cbn [omap list_omap]. fold (carried k ps).
  destruct (p_Value p !! k) as [v|] eqn:Hpk.
  - rewrite spec_leaf_metric_from by lia.
    cbn [spec_first v_sum v_max v_min v_first v_last v_count]. f_equal. f_equal.
    destruct ps as [|q ps]; [|rewrite final_value_cons; reflexivity].
    unfold final_value. cbn. rewrite Hpk. reflexivity.
  - rewrite IH by lia.
    destruct ps as [|q ps]; [reflexivity|]. rewrite final_value_cons. reflexivity.
Qed.

Lemma count_fold (vs : list float) (c : Z) :
  0 <= c < 2 ^ 16 ->
  fold_left (fun c _ => uint16 (c + 1)) vs c = (c + Z.of_nat (length vs)) mod 2 ^ 16.
Proof.
  revert c. induction vs as [|v vs IH]; intros c Hc; cbn [fold_left length].
  - rewrite Z.add_0_r, Z.mod_small; lia.
  - rewrite IH by (unfold uint16, wrapU; apply Z.mod_pos_bound; lia).
    unfold uint16, wrapU. rewrite Z.add_mod_idemp_l by lia. f_equal. lia.
Qed.

(** X10.  The aggregate that [reduce] computes on a leaf, in closed form.
    For a metric [k], let [v0 :: vs] be the values that the points carry
    for [k], in the order of the points.  The metric is absent from the
    result when no point carries it.  Otherwise: the sum is
    [v0 + v1 + ...] added from the left; the maximum and the minimum are
    the running maximum and minimum; [first] is [v0]; the count is the
    number of carriers modulo 2^16; and [last] is the value at the final
    point of the leaf when that point carries the metric, and [v0]
    otherwise, whatever the carriers in between were. *)
Theorem leaf_reduce_closed_form (lvl d : Z) (ptrs : list nodePointer) (pts : list Point)
    (k : string) :
  exists value,
    reduce (MkNode lvl true d ptrs pts) = Some (MkNode lvl true d ptrs pts, value) /\
    value !! k =
    match carried k pts with
    | [] => None
    | v0 :: vs =>
        Some (MkValue (fold_left PrimFloat.add vs v0) (fold_left raise vs v0)
                      (fold_left lower vs v0) v0
                      (default v0 (final_value k pts))
                      ((1 + Z.of_nat (length vs)) mod 2 ^ 16))
    end.
Proof.
  eexists. split; [reflexivity|].
  rewrite leaf_points_lookup by (intros vk; rewrite lookup_empty; discriminate).
  rewrite lookup_empty, spec_leaf_metric_none by lia.
  destruct (carried k pts) as [|v0 vs]; [reflexivity|].
  rewrite count_fold by lia. reflexivity.
Qed.

Lemma raise_fold_grows (vs : list float) :
  forall m, (fold_left raise vs m = m \/ (m <? fold_left raise vs m)%float = true) /\
            fold_left raise vs m ∈ m :: vs.
Proof.
  induction vs as [|x vs IH]; intros m; cbn [fold_left].
  - split; [left; reflexivity|left].
  - destruct (IH (raise m x)) as [Hgrow Hin]. split.
    + unfold raise in *. destruct (m <? x)%float eqn:Hmx.
      * right. destruct Hgrow as [->|Hlt]; [exact Hmx|exact (ltb_trans _ _ _ Hmx Hlt)].
      * exact Hgrow.
    + assert (Hr : raise m x = m \/ raise m x = x)
        by (unfold raise; destruct (m <? x)%float; auto).
      rewrite !elem_of_cons in *. destruct Hin as [Hin|Hin]; [rewrite Hin|]; tauto.
Qed.

Lemma lower_fold_shrinks (vs : list float) :
  forall m, (fold_left lower vs m = m \/ (fold_left lower vs m <? m)%float = true) /\
            fold_left lower vs m ∈ m :: vs.
Proof.
  induction vs as [|x vs IH]; intros m; cbn [fold_left].
  - split; [left; reflexivity|left].
  - destruct (IH (lower m x)) as [Hgrow Hin]. split.
    + unfold lower in *. destruct (x <? m)%float eqn:Hmx.
      * right. destruct Hgrow as [->|Hlt]; [exact Hmx|exact (ltb_trans _ _ _ Hlt Hmx)].
      * exact Hgrow.
    + assert (Hr : lower m x = m \/ lower m x = x)
        by (unfold lower; destruct (x <? m)%float; auto).
      rewrite !elem_of_cons in *. destruct Hin as [Hin|Hin]; [rewrite Hin|]; tauto.
Qed.

Lemma ltb_asym (x y : float) : (x <? y)%float = true -> (y <? x)%float = false.
Proof.
  intros Hxy. destruct (y <? x)%float eqn:Hyx; [|reflexivity].
  pose proof (ltb_trans _ _ _ Hxy Hyx) as H. rewrite ltb_irrefl in H. discriminate.
Qed.

Lemma raise_fold_bound (vs : list float) :
  forall m v, v ∈ m :: vs -> (fold_left raise vs m <? v)%float = false.
Proof.
  induction vs as [|x vs IH]; intros m v Hv; cbn [fold_left].
  - rewrite elem_of_cons in Hv. destruct Hv as [->|Hv]; [apply ltb_irrefl|inversion Hv].
  - destruct (raise_fold_grows vs (raise m x)) as [Hgrow _].
    assert (Hnot : forall y, (raise m x <? y)%float = false ->
                     (fold_left raise vs (raise m x) <? y)%float = false).
    { intros y Hy. destruct Hgrow as [->|Hlt]; [exact Hy|].
      destruct (fold_left raise vs (raise m x) <? y)%float eqn:Hc; [|reflexivity].
      rewrite (ltb_trans _ _ _ Hlt Hc) in Hy. discriminate. }
    rewrite !elem_of_cons in Hv. destruct Hv as [->|[->|Hv]].
    + apply Hnot. unfold raise. destruct (m <? x)%float eqn:Hmx;
        [apply ltb_asym; exact Hmx|apply ltb_irrefl].
    + apply Hnot. unfold raise. destruct (m <? x)%float eqn:Hmx;
        [apply ltb_irrefl|exact Hmx].
    + apply IH. right. exact Hv.
Qed.

Lemma lower_fold_bound (vs : list float) :
  forall m v, v ∈ m :: vs -> (v <? fold_left lower vs m)%float = false.
Proof.
  induction vs as [|x vs IH]; intros m v Hv; cbn [fold_left].
  - rewrite elem_of_cons in Hv. destruct Hv as [->|Hv]; [apply ltb_irrefl|inversion Hv].
  - destruct (lower_fold_shrinks vs (lower m x)) as [Hgrow _].
    assert (Hnot : forall y, (y <? lower m x)%float = false ->
                     (y <? fold_left lower vs (lower m x))%float = false).
    { intros y Hy. destruct Hgrow as [->|Hlt]; [exact Hy|].
      destruct (y <? fold_left lower vs (lower m x))%float eqn:Hc; [|reflexivity].
      rewrite (ltb_trans _ _ _ Hc Hlt) in Hy. discriminate. }
    rewrite !elem_of_cons in Hv. destruct Hv as [->|[->|Hv]].
    + apply Hnot. unfold lower. destruct (x <? m)%float eqn:Hmx;
        [apply ltb_asym; exact Hmx|apply ltb_irrefl].
    + apply Hnot. unfold lower. destruct (x <? m)%float eqn:Hmx;
        [apply ltb_irrefl|exact Hmx].
    + apply IH. right. exact Hv.
Qed.

Lemma carried_elem (k : string) (pts : list Point) (v : float) :
  v ∈ carried k pts <-> exists p, p ∈ pts /\ p_Value p !! k = Some v.
Proof. unfold carried. apply list_elem_of_omap. Qed.

(** X11.  On a leaf, no value of a metric lies outside the aggregate that
    [reduce] returns for it: for every point that carries a value [v] for
    [k], the aggregate of [k] exists, [v] is not above its maximum and
    not below its minimum (read with Go's [<] on [float64]), and both
    bounds are attained by some point of the leaf. *)
Theorem leaf_reduce_bounds (lvl d : Z) (ptrs : list nodePointer) (pts : list Point)
    (k : string) (p : Point) (v : float) :
  p ∈ pts -> p_Value p !! k = Some v ->
  exists value agg,
    reduce (MkNode lvl true d ptrs pts) = Some (MkNode lvl true d ptrs pts, value) /\
    value !! k = Some agg /\
    within agg v /\
    (exists q, q ∈ pts /\ p_Value q !! k = Some (v_max agg)) /\
    (exists q, q ∈ pts /\ p_Value q !! k = Some (v_min agg)).
Proof.
  intros Hp Hpk.
  assert (Hv : v ∈ carried k pts) by (apply carried_elem; eauto).
  eexists. 
  assert (Hlook : leaf_points (Z.of_nat (length pts)) 0 pts ∅ !! k =
                  spec_leaf_metric k (Z.of_nat (length pts)) 0 pts None).
  { rewrite leaf_points_lookup by (intros vk; rewrite lookup_empty; discriminate).
    rewrite lookup_empty. reflexivity. }
  rewrite spec_leaf_metric_none in Hlook by lia.
  destruct (carried k pts) as [|v0 vs] eqn:Hc; [inversion Hv|].
  eexists. split; [reflexivity|]. split; [exact Hlook|].
  cbn [v_max v_min]. split; [|split].
  - split; [apply raise_fold_bound|apply lower_fold_bound]; exact Hv.
  - apply carried_elem. rewrite Hc. apply raise_fold_grows.
  - apply carried_elem. rewrite Hc. apply lower_fold_shrinks.
Qed.

Lemma leaf_reduce_bounds_witness :
  exists value agg,
    reduce leaf_10_20_30 = Some (leaf_10_20_30, value) /\
    value !! "x"%string = Some agg /\
    within agg 20%float /\
    (exists q, q ∈ points leaf_10_20_30 /\ p_Value q !! "x"%string = Some (v_max agg)) /\
    (exists q, q ∈ points leaf_10_20_30 /\ p_Value q !! "x"%string = Some (v_min agg)).
Proof.
  apply (leaf_reduce_bounds LevelHour 0 [] (points leaf_10_20_30) "x"%string
           (MkPoint 2 {[ "x"%string := 20%float ]}) 20%float).
  - cbn [points leaf_10_20_30]. rewrite !elem_of_cons. auto.
  - vm_compute. reflexivity.
Defined.

(* --------------------------------------------------------------------- *)
(** ** reduce on an interior node, metric by metric                       *)
(* --------------------------------------------------------------------- *)

Lemma interior_entry_lookup (is_last : bool) (value : gmap string Value)
    (k : string) (v : Value) (k' : string) :
  interior_entry is_last value (k, v) !! k' =
  if decide (k = k')
  then Some match value !! k with
            | None => v
            | Some vk => interior_update is_last vk v
            end
  else value !! k'.
Proof.
  unfold interior_entry.
  destruct (value !! k) eqn:Hk; destruct (decide (k = k')) as [->|Hne];
    rewrite ?lookup_insert_eq, ?lookup_insert_ne by assumption; reflexivity.
Qed.

Lemma interior_pointer_lookup (is_last : bool) (value : gmap string Value)
    (m : gmap string Value) (k : string) :
  interior_pointer is_last value (map_to_list m) !! k =
  match m !! k with
  | None => value !! k
  | Some v => Some match value !! k with
                   | None => v
                   | Some vk => interior_update is_last vk v
                   end
  end.
Proof.
  unfold interior_pointer.
  rewrite (fold_map_lookup _
             (fun o v => match o with
                         | None => v
                         | Some vk => interior_update is_last vk v
                         end))
    by (intros; apply interior_entry_lookup).
  reflexivity.
Qed.

Lemma final_cached_cons (k : string) (p q : nodePointer) (ptrs : list nodePointer) :
  final_cached k (p :: q :: ptrs) = final_cached k (q :: ptrs).
Proof. reflexivity. Qed.

Lemma interior_pointers_from (k : string) (n_pointers : Z) (ps : list nodePointer) :
  forall (index : Z) (value : gmap string Value) (a : Value),
    index + Z.of_nat (length ps) = n_pointers ->
    value !! k = Some a ->
    interior_pointers n_pointers index ps value !! k =
    Some (MkValue (fold_left PrimFloat.add (v_sum <$> cached k ps) (v_sum a))
                  (fold_left raise (v_max <$> cached k ps) (v_max a))
                  (fold_left raise (v_min <$> cached k ps) (v_min a))
                  (v_first a)
                  (default (v_last a) (v_last <$> final_cached k ps))
                  (fold_left (fun c x => uint16 (c + x)) (v_count <$> cached k ps)
                             (v_count a))).
Proof.
  induction ps as [|p ps IH]; intros index value a Hlen Ha.
  - cbn. rewrite Ha. destruct a; reflexivity.
  - cbn [interior_pointers]. cbn [length] in Hlen.
    assert (Hfinal : (index =? n_pointers - 1) = match ps with [] => true | _ => false end).
    { destruct ps; cbn [length] in Hlen; [apply Z.eqb_eq|apply Z.eqb_neq]; lia. }
    unfold cached. cbn [omap list_omap]. fold (cached k ps).
    pose proof (interior_pointer_lookup (index =? n_pointers - 1) value (np_value p) k) as Hstep.
    rewrite Ha in Hstep.
    destruct (np_value p !! k) as [v|] eqn:Hpk.
    + rewrite (IH (index + 1) _ _ ltac:(lia) Hstep).
      cbn [fmap list_fmap fold_left interior_update v_sum v_max v_min v_first v_last v_count].
      rewrite Hfinal. f_equal. f_equal.
      destruct ps as [|q ps]; [|rewrite final_cached_cons; reflexivity].
      unfold final_cached. cbn. rewrite Hpk. reflexivity.
    + rewrite (IH (index + 1) _ _ ltac:(lia) Hstep). f_equal. f_equal.
      destruct ps as [|q ps]; [|rewrite final_cached_cons; reflexivity].
      unfold final_cached. cbn. rewrite Hpk. reflexivity.
Qed.

Lemma interior_pointers_none (k : string) (n_pointers : Z) (ps : list nodePointer) :
  forall (index : Z) (value : gmap string Value),
    index + Z.of_nat (length ps) = n_pointers ->
    value !! k = None ->
    interior_pointers n_pointers index ps value !! k =
    match cached k ps with
    | [] => None
    | a :: rest =>
        Some (MkValue (fold_left PrimFloat.add (v_sum <$> rest) (v_sum a))
                      (fold_left raise (v_max <$> rest) (v_max a))
                      (fold_left raise (v_min <$> rest) (v_min a))
                      (v_first a)
                      (default (v_last a) (v_last <$> final_cached k ps))
                      (fold_left (fun c x => uint16 (c + x)) (v_count <$> rest) (v_count a)))
    end.
Proof.
  induction ps as [|p ps IH]; intros index value Hlen Hnone; [exact Hnone|].
  cbn [interior_pointers]. cbn [length] in Hlen.
  unfold cached. cbn [omap list_omap]. fold (cached k ps).
  pose proof (interior_pointer_lookup (index =? n_pointers - 1) value (np_value p) k) as Hstep.
  rewrite Hnone in Hstep.
  destruct (np_value p !! k) as [v|] eqn:Hpk.
  - rewrite (interior_pointers_from k n_pointers ps (index + 1) _ v ltac:(lia) Hstep).
    f_equal. f_equal.
    destruct ps as [|q ps]; [|rewrite final_cached_cons; reflexivity].
    unfold final_cached. cbn. rewrite Hpk. reflexivity.
  - rewrite (IH (index + 1) _ ltac:(lia) Hstep).
    destruct ps as [|q ps]; [reflexivity|]. rewrite final_cached_cons. reflexivity.
Qed.

Lemma count_sum_fold (cs : list Z) (c : Z) :
  fold_left (fun c x => uint16 (c + x)) cs c =
  match cs with [] => c | _ => uint16 (c + foldr Z.add 0 cs) end.
Proof.
  revert c. induction cs as [|x cs IH]; intros c; [reflexivity|].
  cbn [fold_left foldr]. rewrite IH. destruct cs as [|y cs].
  - cbn [foldr]. f_equal. lia.
  - unfold uint16, wrapU. rewrite Z.add_mod_idemp_l by lia. f_equal. lia.
Qed.

(** X12.  The aggregate that [reduce] returns on an interior node, in
    closed form over the cached values [a :: rest] that the pointers of
    the node hold for a metric [k] once the dirty child has been
    reduced: the sums are added from the left; the maximum is the
    running maximum of the cached maxima; the minimum is the running
    maximum of the cached minima as well; [first] is that of [a]; the
    count is the sum of the cached counts modulo 2^16; [last] is that of
    the final pointer when it carries the metric and that of [a]
    otherwise.  The metric is absent when no pointer carries it. *)
Theorem interior_reduce_closed_form (lvl d : Z) (ptrs : list nodePointer) (pts : list Point)
    (n' : node) (value : gmap string Value) (k : string) :
  reduce (MkNode lvl false d ptrs pts) = Some (n', value) ->
  value !! k =
  match cached k (pointers n') with
  | [] => None
  | a :: rest =>
      Some (MkValue (fold_left PrimFloat.add (v_sum <$> rest) (v_sum a))
                    (fold_left raise (v_max <$> rest) (v_max a))
                    (fold_left raise (v_min <$> rest) (v_min a))
                    (v_first a)
                    (default (v_last a) (v_last <$> final_cached k (pointers n')))
                    (match rest with
                     | [] => v_count a
                     | _ => uint16 (v_count a + foldr Z.add 0 (v_count <$> rest))
                     end))
  end.
Proof.
  rewrite reduce_interior.
  destruct (at_index ptrs d) as [p|]; [|discriminate].
  destruct (np_pointer p) as [child|]; [|discriminate].
  destruct (reduce child) as [[child' v]|]; [|discriminate].
  cbv zeta. intros [= <- <-]. cbn [pointers].
  rewrite interior_pointers_none by (try apply lookup_empty; lia).
  destruct (cached k _) as [|a rest]; [reflexivity|].
  rewrite count_sum_fold. destruct rest; reflexivity.
Qed.

Lemma interior_reduce_closed_form_witness :
  reduce interior_1_5 =
    Some (interior_1_5_reduced, {[ "x"%string := MkValue 6 5 5 1 5 2 ]}) /\
  ({[ "x"%string := MkValue 6 5 5 1 5 2 ]} : gmap string Value) !! "x"%string =
    Some (MkValue 6 5 5 1 5 2).
Proof.
  assert (Hr : reduce interior_1_5 =
               Some (interior_1_5_reduced, {[ "x"%string := MkValue 6 5 5 1 5 2 ]}))
    by (vm_compute; reflexivity).
  split; [exact Hr|].
  rewrite (interior_reduce_closed_form LevelDay 0 _ _ _ _ "x"%string Hr).
  vm_compute. reflexivity.
Defined.

(* --------------------------------------------------------------------- *)
(** ** reduce and the shape of the tree                                   *)
(* --------------------------------------------------------------------- *)

(** Induction over a tree: a property holds of every node when it holds
    of a node as soon as it holds of its children. *)
Lemma node_children_ind (P : node -> Prop) :
  (forall n, (forall c, c ∈ children n -> P c) -> P n) -> forall n, P n.
Proof.
  intros Hstep. fix IH 1. intros [lvl leaf d ptrs pts].
  apply Hstep. unfold children. cbn [pointers].
  induction ptrs as [|[key pos [child|] value] ptrs IHptrs]; intros c Hc; cbn in Hc.
  - inversion Hc.
  - apply elem_of_cons in Hc as [->|Hc]; [apply IH|apply IHptrs; exact Hc].
  - apply IHptrs; exact Hc.
Qed.

Lemma children_lookup (n : node) (i : nat) (p : nodePointer) (c : node) :
  pointers n !! i = Some p -> np_pointer p = Some c -> c ∈ children n.
Proof.
  intros Hp Hc. unfold children. apply list_elem_of_omap.
  exists p. split; [|exact Hc]. eapply list_elem_of_lookup_2; eauto.
Qed.

(** X13.  [reduce] is idempotent: a second call right after a
    successful one succeeds, changes nothing more in the tree and
    returns the same map. *)
Theorem reduce_idempotent (n n' : node) (value : gmap string Value) :
  reduce n = Some (n', value) -> reduce n' = Some (n', value).
Proof.
  revert n' value. induction n as [n IH] using node_children_ind.
  destruct n as [lvl leaf d ptrs pts]. intros n' value.
  destruct leaf.
  - cbn [reduce]. intros [= <- <-]. reflexivity.
  - rewrite reduce_interior.
    destruct (at_index ptrs d) as [p|] eqn:Hat; [|discriminate].
    destruct (np_pointer p) as [child|] eqn:Hchild; [|discriminate].
    destruct (reduce child) as [[child' v]|] eqn:Hred; [|discriminate].
    cbv zeta. intros [= <- <-].
    apply at_index_Some in Hat as [Hd Hlook].
    assert (Hc : child ∈ children (MkNode lvl false d ptrs pts))
      by (eapply children_lookup; eauto).
    specialize (IH child Hc child' v Hred).
    rewrite reduce_interior.
    assert (Hat' : at_index (<[Z.to_nat d := MkNodePointer (np_key p) (np_pos p) (Some child') v]> ptrs) d
                   = Some (MkNodePointer (np_key p) (np_pos p) (Some child') v)).
    { unfold at_index. destruct (Z.ltb_spec d 0); [lia|].
      apply list_lookup_insert_eq. apply lookup_lt_Some in Hlook. exact Hlook. }
    rewrite Hat'. cbn [np_pointer np_key np_pos]. rewrite IH. cbv zeta.
    rewrite list_insert_insert_eq. reflexivity.
Qed.

Lemma reduce_idempotent_witness :
  reduce interior_1_5 =
    Some (interior_1_5_reduced, {[ "x"%string := MkValue 6 5 5 1 5 2 ]}) /\
  reduce interior_1_5_reduced =
    Some (interior_1_5_reduced, {[ "x"%string := MkValue 6 5 5 1 5 2 ]}).
Proof.
  assert (Hr : reduce interior_1_5 =
               Some (interior_1_5_reduced, {[ "x"%string := MkValue 6 5 5 1 5 2 ]}))
    by (vm_compute; reflexivity).
  split; [exact Hr|]. exact (reduce_idempotent _ _ _ Hr).
Defined.

(** X14.  What [reduce] leaves alone.  After a successful call on an
    interior node the level, the kind, the dirty index and the points are
    as before, every pointer keeps its key and its position, and every
    pointer other than the dirty one is untouched; the dirty pointer
    holds the reduced child and caches exactly the map that [reduce]
    returned for that child. *)
Theorem reduce_frame (lvl d : Z) (ptrs : list nodePointer) (pts : list Point)
    (n' : node) (value : gmap string Value) :
  reduce (MkNode lvl false d ptrs pts) = Some (n', value) ->
  level n' = lvl /\ isLeaf n' = false /\ dirty n' = d /\ points n' = pts /\
  keys (pointers n') = keys ptrs /\ (np_pos <$> pointers n') = (np_pos <$> ptrs) /\
  (forall i, i <> Z.to_nat d -> pointers n' !! i = ptrs !! i) /\
  exists p child child' v,
    at_index ptrs d = Some p /\ np_pointer p = Some child /\
    reduce child = Some (child', v) /\
    at_index (pointers n') d = Some (MkNodePointer (np_key p) (np_pos p) (Some child') v).
Proof.
  rewrite reduce_interior.
  destruct (at_index ptrs d) as [p|] eqn:Hat; [|discriminate].
  destruct (np_pointer p) as [child|] eqn:Hchild; [|discriminate].
  destruct (reduce child) as [[child' v]|] eqn:Hred; [|discriminate].
  cbv zeta. intros [= <- <-]. cbn [level isLeaf dirty points pointers].
  apply at_index_Some in Hat as [Hd Hlook].
  assert (Hsame : forall (B : Type) (f : nodePointer -> B),
            f (MkNodePointer (np_key p) (np_pos p) (Some child') v) = f p ->
            f <$> <[Z.to_nat d := MkNodePointer (np_key p) (np_pos p) (Some child') v]> ptrs
            = f <$> ptrs).
  { intros B f Hf. rewrite list_fmap_insert, Hf.
    apply list_insert_id. rewrite list_lookup_fmap, Hlook. reflexivity. }
  do 4 (split; [reflexivity|]).
  split; [unfold keys; apply Hsame; reflexivity|].
  split; [apply Hsame; reflexivity|].
  split; [intros i Hi; apply list_lookup_insert_ne; auto|].
  exists p, child, child', v.
  split; [reflexivity|]. split; [exact Hchild|]. split; [exact Hred|].
  unfold at_index. destruct (Z.ltb_spec d 0); [lia|].
  apply list_lookup_insert_eq. apply lookup_lt_Some in Hlook. exact Hlook.
Qed.

Lemma reduce_frame_witness :
  level interior_1_5_reduced = LevelDay /\ isLeaf interior_1_5_reduced = false /\
  dirty interior_1_5_reduced = 0 /\ points interior_1_5_reduced = [] /\
  keys (pointers interior_1_5_reduced) = keys (pointers interior_1_5) /\
  (np_pos <$> pointers interior_1_5_reduced) = (np_pos <$> pointers interior_1_5) /\
  (forall i, i <> Z.to_nat 0 ->
     pointers interior_1_5_reduced !! i = pointers interior_1_5 !! i) /\
  exists p child child' v,
    at_index (pointers interior_1_5) 0 = Some p /\ np_pointer p = Some child /\
    reduce child = Some (child', v) /\
    at_index (pointers interior_1_5_reduced) 0 =
      Some (MkNodePointer (np_key p) (np_pos p) (Some child') v).
Proof.
  assert (Hr : reduce interior_1_5 =
               Some (interior_1_5_reduced, {[ "x"%string := MkValue 6 5 5 1 5 2 ]}))
    by (vm_compute; reflexivity).
  exact (reduce_frame LevelDay 0 _ _ _ _ Hr).
Defined.

(* --------------------------------------------------------------------- *)
(** ** put on a leaf                                                      *)
(* --------------------------------------------------------------------- *)

Lemma strictly_sorted_inj (l : list Z) (i j : nat) (a : Z) :
  strictly_sorted l -> l !! i = Some a -> l !! j = Some a -> i = j.
Proof.
  intros Hs Hi Hj. destruct (Nat.lt_trichotomy i j) as [Hlt|[Heq|Hgt]]; [|exact Heq|].
  - pose proof (Hs i j a a Hlt Hi Hj). lia.
  - pose proof (Hs j i a a Hgt Hj Hi). lia.
Qed.

Lemma insertPoint_keeps (n : node) (t : Time) (value : gmap string float) (n' : node) :
  insertPoint n t value = Ok n' ->
  level n' = level n /\ isLeaf n' = isLeaf n /\ dirty n' = dirty n /\
  pointers n' = pointers n.
Proof.
  unfold insertPoint.
  destruct (at_index (points n) _) as [p|]; cbn [must mbind res_bind]; [|discriminate].
  destruct (Timestamp p =? TS t); intros [= <-]; auto.
Qed.

Lemma reduce_leaf (n : node) : isLeaf n = true -> exists value, reduce n = Some (n, value).
Proof. destruct n as [lvl leaf d ptrs pts]. cbn. intros ->. eauto. Qed.

(** X15.  [put] on a leaf that is itself the root of the database
    ([n.db.root] is the receiver), whose timestamps increase strictly
    and reach [t.TS]: the call returns, the node stays a leaf of its
    level, the timestamps still increase strictly, and the points
    afterwards are the point [(t.TS, value)] together with every earlier
    point of another timestamp: a point of the same timestamp is
    replaced, no other point is lost or added. *)
Theorem put_leaf bucket (root_with : node -> node) (depth : nat) (n : node) (t : Time)
    (value : gmap string float) :
  (forall m, root_with m = m) ->
  isLeaf n = true ->
  strictly_sorted (Timestamp <$> points n) ->
  (exists p, p ∈ points n /\ TS t <= Timestamp p) ->
  exists n',
    put bucket root_with depth n t value = Ok n' /\
    level n' = level n /\ isLeaf n' = true /\
    strictly_sorted (Timestamp <$> points n') /\
    forall p, p ∈ points n' <->
              p = MkPoint (TS t) value \/ (p ∈ points n /\ Timestamp p <> TS t).
Proof.
  intros Hroot Hleaf Hsorted Hreach.
  destruct (insertPoint_in_range n t value Hsorted Hreach)
    as (n' & index & Hins & Hnew & Hsorted' & Hrep & Hadd).
  destruct (insertPoint_keeps _ _ _ _ Hins) as (Hlvl & Hkind & _ & _).
  exists n'. unfold put. rewrite Hleaf, Hins. cbn [mbind res_bind]. rewrite Hroot.
  destruct (reduce_leaf n') as [total ->]; [congruence|]. cbn [must mbind res_bind].
  split; [reflexivity|]. split; [exact Hlvl|]. split; [congruence|].
  split; [exact Hsorted'|].
  assert (Hpos : forall j q, points n' !! j = Some q -> Timestamp q = TS t -> j = index).
  { intros j q Hj Hq.
    apply (strictly_sorted_inj (Timestamp <$> points n') j index (TS t) Hsorted');
      rewrite list_lookup_fmap; [rewrite Hj, <- Hq|rewrite Hnew]; reflexivity. }
  destruct (decide (TS t ∈ (Timestamp <$> points n))) as [Hin|Hnotin].
  - apply list_elem_of_fmap in Hin as (q & Hq & Hqin).
    specialize (Hrep (ex_intro _ q (conj Hqin (eq_sym Hq)))). clear Hadd.
    apply list_elem_of_lookup in Hqin as [jq Hjq].
    assert (Hindex : (index < length (points n))%nat).
    { apply lookup_lt_Some in Hnew. rewrite Hrep, length_insert in Hnew. exact Hnew. }
    assert (Hjq' : jq = index).
    { destruct (decide (jq = index)) as [|Hne]; [assumption|].
      apply (Hpos jq q); [|congruence].
      rewrite Hrep, list_lookup_insert_ne by auto. exact Hjq. }
    subst jq. intros p. split.
    + intros Hp. apply list_elem_of_lookup in Hp as [j Hj].
      destruct (decide (j = index)) as [->|Hne].
      * left. congruence.
      * right. split.
        -- rewrite Hrep, list_lookup_insert_ne in Hj by auto.
           eapply list_elem_of_lookup_2; eauto.
        -- intros Heq. apply Hne. eapply Hpos; eauto.
    + intros [->|[Hp Hne]].
      * eapply list_elem_of_lookup_2; eauto.
      * apply list_elem_of_lookup in Hp as [j Hj].
        assert (j <> index) by (intros ->; congruence).
        apply (list_elem_of_lookup_2 _ j). rewrite Hrep, list_lookup_insert_ne by auto.
        exact Hj.
  - assert (Hnone : forall p, p ∈ points n -> Timestamp p <> TS t).
    { intros p Hp Heq. apply Hnotin. apply list_elem_of_fmap. eauto. }
    specialize (Hadd Hnone). intros p. rewrite Hadd.
    rewrite elem_of_app, elem_of_cons.
    rewrite <- (take_drop index (points n)) at 3. rewrite elem_of_app.
    split.
    + intros [Hp|[->|Hp]]; [right|left; reflexivity|right]; (split; [tauto|]);
        apply Hnone; rewrite <- (take_drop index (points n)), elem_of_app; tauto.
    + tauto.
Qed.

Lemma put_leaf_witness :
  exists n',
    put no_truncation id 14 leaf_10_20_30 (MkTime 2 LevelMinute)
        {[ "x"%string := 25%float ]} = Ok n' /\
    level n' = level leaf_10_20_30 /\ isLeaf n' = true /\
    strictly_sorted (Timestamp <$> points n') /\
    forall p, p ∈ points n' <->
              p = MkPoint 2 {[ "x"%string := 25%float ]} \/
              (p ∈ points leaf_10_20_30 /\ Timestamp p <> 2).
Proof.
  apply (put_leaf no_truncation id 14 leaf_10_20_30 (MkTime 2 LevelMinute)
           {[ "x"%string := 25%float ]}).
  - reflexivity.
  - reflexivity.
  - intros i j a b Hij Ha Hb. cbn in Ha, Hb.
    destruct i as [|[|[|i]]]; destruct j as [|[|[|j]]]; cbn in Ha, Hb;
      try discriminate; try lia; injection Ha as <-; injection Hb as <-; lia.
  - exists (MkPoint 3 {[ "x"%string := 30%float ]}). split; [|cbn; lia].
    cbn [points leaf_10_20_30]. rewrite !elem_of_cons. auto.
Defined.

(* --------------------------------------------------------------------- *)
(** ** insertNode: outcome, and where the pointer goes                    *)
(* --------------------------------------------------------------------- *)

Section InsertMore.

Variable bucket : Time -> Z -> Z.

Lemma level_quarter (t : Time) :
  0 <= Level t < 2 ^ 16 -> 0 <= Z.shiftr (Level t) 2 < 2 ^ 14.
Proof.
  intros HL. rewrite Z.shiftr_div_pow2 by lia.
  change (2 ^ 2) with 4. change (2 ^ 16) with 65536 in HL. change (2 ^ 14) with 16384.
  Z.div_mod_to_equations. lia.
Qed.

Lemma level_double (l : Z) : 0 <= l < 2 ^ 14 -> uint16 (Z.shiftl l 1) = 2 * l.
Proof.
  intros Hl. rewrite Z.shiftl_mul_pow2 by lia. unfold uint16, wrapU.
  change (2 ^ 1) with 2. change (2 ^ 14) with 16384 in Hl. change (2 ^ 16) with 65536.
  rewrite Z.mod_small; lia.
Qed.

Lemma insertNode_reaches (t : Time) (value : gmap string float) (j : nat) :
  0 <= Level t < 2 ^ 16 ->
  forall (depth : nat) (n : node),
    (j <= depth)%nat -> 0 < level n ->
    Z.shiftr (Level t) 2 = level n * 2 ^ Z.of_nat j ->
    exists n', insertNode bucket depth n t value = Ok n'.
Proof.
  intros HL. pose proof (level_quarter t HL) as Hq.
  induction j as [|j IH]; intros depth n Hdepth Hpos Hreach.
  - change (2 ^ Z.of_nat 0) with 1 in Hreach. rewrite Z.mul_1_r in Hreach.
    destruct depth; cbn [insertNode]; rewrite Hreach, Z.eqb_refl;
      (destruct (Z.geb_spec (level n) (level n)); [|lia]); cbn [negb]; eauto.
  - destruct depth as [|depth]; [lia|].
    rewrite Nat2Z.inj_succ, Z.pow_succ_r in Hreach by lia.
    assert (Hpow : 0 < 2 ^ Z.of_nat j) by (apply Z.pow_pos_nonneg; lia).
    cbn [insertNode].
    destruct (Z.geb_spec (Z.shiftr (Level t) 2) (level n)); [|nia]. cbn [negb].
    destruct (Z.eqb_spec (Z.shiftr (Level t) 2) (level n)); [nia|].
    set (child := set_level newInteriorNode (uint16 (Z.shiftl (level n) 1))).
    assert (Hchild : level child = 2 * level n) by (apply level_double; nia).
    destruct (IH depth child ltac:(lia) ltac:(lia) ltac:(rewrite Hchild; lia)) as [c ->].
    cbn [mbind res_bind]. eauto.
Qed.

Lemma insertNode_overshoots (t : Time) (value : gmap string float) :
  0 <= Level t < 2 ^ 16 ->
  forall (depth : nat) (n : node),
    0 < level n ->
    (forall j, 0 <= j -> Z.shiftr (Level t) 2 <> level n * 2 ^ j) ->
    Z.shiftr (Level t) 2 < level n * 2 ^ Z.of_nat depth ->
    insertNode bucket depth n t value = Panic.
Proof.
  intros HL. pose proof (level_quarter t HL) as Hq.
  induction depth as [|depth IH]; intros n Hpos Hnever Hbound.
  - change (2 ^ Z.of_nat 0) with 1 in Hbound. cbn [insertNode].
    rewrite geb_false_lt by lia. reflexivity.
  - cbn [insertNode].
    destruct (Z.geb_spec (Z.shiftr (Level t) 2) (level n)); [|reflexivity]. cbn [negb].
    destruct (Z.eqb_spec (Z.shiftr (Level t) 2) (level n)) as [Heq|Hne].
    { exfalso. apply (Hnever 0); [lia|]. rewrite Heq. change (2 ^ 0) with 1. lia. }
    set (child := set_level newInteriorNode (uint16 (Z.shiftl (level n) 1))).
    assert (Hchild : level child = 2 * level n) by (apply level_double; lia).
    rewrite Nat2Z.inj_succ, Z.pow_succ_r in Hbound by lia.
    rewrite (IH child); [reflexivity|lia| |lia].
    intros j Hj Heq. apply (Hnever (j + 1)); [lia|].
    rewrite Z.pow_add_r, Heq, Hchild by lia. change (2 ^ 1) with 2. lia.
Qed.

(** X16.  The outcome of [insertNode] is decided by the two levels.
    Write [q] for [t.Level()>>2].  On a node of level 0 with [q > 0] the
    recursion never ends; when [q] is the node's level doubled some
    number of times the call returns, with the node's level and kind
    unchanged; on a node of a positive level that no number of doublings
    takes to [q], the assertion fails in the call or in a nested one. *)
Theorem insertNode_outcome (n : node) (t : Time) (value : gmap string float) :
  0 <= Level t < 2 ^ 16 ->
  (level n = 0 -> 0 < Z.shiftr (Level t) 2 ->
     forall depth, insertNode bucket depth n t value = Spin) /\
  (forall j, 0 <= j -> Z.shiftr (Level t) 2 = level n * 2 ^ j ->
     exists n', insertNode bucket 14 n t value = Ok n' /\
                level n' = level n /\ isLeaf n' = isLeaf n) /\
  (0 < level n -> (forall j, 0 <= j -> Z.shiftr (Level t) 2 <> level n * 2 ^ j) ->
     insertNode bucket 14 n t value = Panic).
Proof.
  intros HL. pose proof (level_quarter t HL) as Hq. split; [|split].
  - intros Hzero Hpos depth. apply insertNode_level_zero_spins; assumption.
  - intros j Hj Hreach.
    assert (Hpow : 0 < 2 ^ j) by (apply Z.pow_pos_nonneg; lia).
    assert (Hex : exists n', insertNode bucket 14 n t value = Ok n').
    { destruct (Z_le_gt_dec (level n) 0) as [Hle|Hgt].
      - assert (Heq : Z.shiftr (Level t) 2 = level n) by nia.
        cbn [insertNode]. rewrite Heq, Z.eqb_refl.
        destruct (Z.geb_spec (level n) (level n)); [|lia]. cbn [negb]. eauto.
      - assert (Hj14 : j < 14).
        { destruct (Z_lt_le_dec j 14) as [|Hge]; [assumption|].
          assert (2 ^ 14 <= 2 ^ j) by (apply Z.pow_le_mono_r; lia). nia. }
        apply (insertNode_reaches t value (Z.to_nat j) HL); [lia|lia|].
        rewrite Z2Nat.id by lia. exact Hreach. }
    destruct Hex as [n' Hn']. exists n'. split; [exact Hn'|].
    exact (insertNode_keeps_kind bucket _ _ _ _ _ Hn').
  - intros Hpos Hnever. apply insertNode_overshoots; try assumption.
    change (2 ^ Z.of_nat 14) with (2 ^ 14). lia.
Qed.

Lemma insertNode_Ok_place (depth : nat) (n : node) (t : Time)
    (value : gmap string float) (n' : node) :
  insertNode bucket depth n t value = Ok n' ->
  exists child, n' = place_pointer bucket n t child.
Proof.
  destruct depth as [|depth]; cbn [insertNode];
    destruct (negb _); try discriminate;
    destruct (_ =? _); try discriminate.
  - intros [= <-]. eauto.
  - intros [= <-]. eauto.
  - destruct (insertNode bucket depth _ t value); cbn [mbind res_bind]; try discriminate.
    intros [= <-]. eauto.
Qed.

Lemma place_pointer_list (n : node) (t : Time) (child : node) :
  let n' := place_pointer bucket n t child in
  let np := MkNodePointer (bucket t (uint16 (Z.shiftl (level n) 1))) 0 (Some child) ∅ in
  let index := Z.to_nat (dirty n') in
  (index <= length (pointers n))%nat /\ points n' = points n /\
  (pointers n' = take index (pointers n) ++ np :: drop index (pointers n) \/
   exists old, pointers n !! index = Some old /\ np_key old = TS t /\
               pointers n' = <[index := np]> (pointers n)) /\
  ((forall p, p ∈ pointers n -> np_key p < TS t) ->
     pointers n' = pointers n ++ [np] /\ dirty n' = Z.of_nat (length (pointers n))).
Proof.
  unfold place_pointer.
  set (size := Z.of_nat (length (pointers n))).
  set (f := fun i => match at_index (pointers n) i with
                     | Some p => np_key p >=? TS t
                     | None => false
                     end).
  set (index := Search size f).
  assert (Hrange : 0 <= index <= size) by (apply Search_range; lia).
  set (np := MkNodePointer _ 0 (Some child) ∅).
  cbn [level isLeaf dirty pointers points set_dirty set_pointers].
  split; [lia|]. split; [reflexivity|]. split.
  - destruct (size =? 0) eqn:Hsz; cbn [orb].
    { left. apply insert_append_copy. lia. }
    destruct (index >=? size) eqn:Hge; cbn [orb].
    { left. apply insert_append_copy. lia. }
    destruct (at_index (pointers n) index) as [old|] eqn:Hold.
    + destruct (Z.eqb_spec (np_key old) (TS t)) as [Heq|Hne]; cbn [negb].
      * right. exists old. apply at_index_Some in Hold as [_ Hold]. auto.
      * left. apply insert_append_copy. lia.
    + left. apply insert_append_copy. lia.
  - intros Hbelow.
    assert (Hindex : index = size).
    { apply Search_all_false; [lia|]. intros h Hh. subst f. cbv beta.
      destruct (at_index_in_range (pointers n) h Hh) as (p & -> & Hp).
      apply geb_false_lt. auto. }
    rewrite Hindex, Z.geb_leb, Z.leb_refl, orb_true_r. cbn [orb].
    split; [|reflexivity].
    rewrite insert_append_copy by lia. subst size. rewrite Nat2Z.id.
    rewrite firstn_all, drop_all. reflexivity.
Qed.

(** X17.  Where [insertNode] puts the pointer.  A call that returns has
    either made room for one new pointer at the dirty index, all earlier
    pointers staying in order around it, or has overwritten the pointer
    found there, whose key is exactly [t.TS]; the pointer stored has the
    key of the bucket, position 0, an empty cache and a child one level
    down; the points of the node are untouched.
    When every key is below [t.TS] the pointer is appended at the end. *)
Theorem insertNode_pointer_list (depth : nat) (n : node) (t : Time)
    (value : gmap string float) (n' : node) :
  insertNode bucket depth n t value = Ok n' ->
  exists child,
    let np := MkNodePointer (bucket t (uint16 (Z.shiftl (level n) 1))) 0 (Some child) ∅ in
    let index := Z.to_nat (dirty n') in
    level child = uint16 (Z.shiftl (level n) 1) /\
    points n' = points n /\ (index <= length (pointers n))%nat /\
    (pointers n' = take index (pointers n) ++ np :: drop index (pointers n) \/
     exists old, pointers n !! index = Some old /\ np_key old = TS t /\
                 pointers n' = <[index := np]> (pointers n)) /\
    ((forall p, p ∈ pointers n -> np_key p < TS t) ->
       pointers n' = pointers n ++ [np] /\ dirty n' = Z.of_nat (length (pointers n))).
Proof.
  intros Hins.
  assert (Hchild : exists child, n' = place_pointer bucket n t child /\
                                 level child = uint16 (Z.shiftl (level n) 1)).
  { revert Hins. destruct depth as [|depth]; cbn [insertNode];
      destruct (negb _); try discriminate;
      destruct (_ =? _); try discriminate.
    - intros [= <-]. eexists. split; reflexivity.
    - intros [= <-]. eexists. split; reflexivity.
    - destruct (insertNode bucket depth _ t value) as [c| | |] eqn:Hc;
        cbn [mbind res_bind]; try discriminate.
      intros [= <-]. exists c. split; [reflexivity|].
      exact (proj1 (insertNode_keeps_kind bucket _ _ _ _ _ Hc)). }
  destruct Hchild as (child & -> & Hlvl). exists child. cbv zeta.
  split; [exact Hlvl|].
  destruct (place_pointer_list n t child) as (Hidx & Hpts & Hlist & Happ). auto.
Qed.

(* --------------------------------------------------------------------- *)
(** ** put on an interior node                                            *)
(* --------------------------------------------------------------------- *)

Lemma reduce_single_point (lvl d : Z) (ptrs : list nodePointer) (ts : Z)
    (value : gmap string float) :
  reduce (MkNode lvl true d ptrs [MkPoint ts value]) =
    Some (MkNode lvl true d ptrs [MkPoint ts value], spec_first <$> value).
Proof.
  cbn [reduce]. f_equal. f_equal. apply map_eq. intros k.
  rewrite leaf_points_lookup by (intros vk; rewrite lookup_empty; discriminate).
  rewrite lookup_empty, lookup_fmap. cbn [spec_leaf_metric p_Value].
  destruct (value !! k); reflexivity.
Qed.

Lemma interior_pointers_single (p : nodePointer) :
  interior_pointers 1 0 [p] ∅ = np_value p.
Proof.
  cbn [interior_pointers]. apply map_eq. intros k.
  rewrite interior_pointer_lookup, lookup_empty.
  destruct (np_value p !! k); reflexivity.
Qed.

Lemma reduce_place_pointer (n : node) (t : Time) (child child' : node)
    (v : gmap string Value) :
  isLeaf n = false -> reduce child = Some (child', v) ->
  exists n'' total,
    reduce (place_pointer bucket n t child) = Some (n'', total) /\
    level n'' = level n /\ isLeaf n'' = false /\
    dirty n'' = dirty (place_pointer bucket n t child) /\
    at_index (pointers n'') (dirty n'') =
      Some (MkNodePointer (bucket t (uint16 (Z.shiftl (level n) 1))) 0 (Some child') v) /\
    (pointers n = [] -> total = v).
Proof.
  intros Hkind Hred.
  destruct (place_pointer_spec bucket n t child) as (Hlvl & Hleaf & Hd & Hat).
  destruct (place_pointer_list n t child) as (_ & _ & _ & Happ).
  destruct (place_pointer bucket n t child) as [lvl leaf d ptrs pts] eqn:Hplace.
  cbn [level isLeaf dirty pointers] in *. subst lvl. rewrite Hkind in Hleaf. subst leaf.
  rewrite reduce_interior, Hat. cbn [np_pointer np_key np_pos]. rewrite Hred. cbv zeta.
  eexists _, _. split; [reflexivity|]. cbn [level isLeaf dirty pointers].
  split; [reflexivity|]. split; [reflexivity|]. split; [reflexivity|]. split.
  - unfold at_index. destruct (Z.ltb_spec d 0); [lia|].
    apply list_lookup_insert_eq. lia.
  - intros Hempty. rewrite Hempty in Happ.
    destruct Happ as [Hptrs Hdirty]; [intros p Hp; inversion Hp|].
    cbn in Hptrs, Hdirty. subst d ptrs.
    exact (interior_pointers_single
             (MkNodePointer (bucket t (uint16 (Z.shiftl (level n) 1))) 0 (Some child') v)).
Qed.

Lemma insertNode_reduce (depth : nat) :
  forall (n : node) (t : Time) (value : gmap string float) (n' : node),
    isLeaf n = false -> insertNode bucket depth n t value = Ok n' ->
    exists n'' total child',
      reduce n' = Some (n'', total) /\
      level n'' = level n /\ isLeaf n'' = false /\ dirty n'' = dirty n' /\
      at_index (pointers n'') (dirty n'') =
        Some (MkNodePointer (bucket t (uint16 (Z.shiftl (level n) 1))) 0 (Some child')
                            (spec_first <$> value)) /\
      (pointers n = [] -> total = spec_first <$> value).
Proof.
  induction depth as [|depth IH]; intros n t value n' Hkind; cbn [insertNode];
    destruct (negb _); try discriminate;
    destruct (_ =? _); try discriminate.
  - intros [= <-].
    destruct (reduce_place_pointer n t _ _ _ Hkind
                (reduce_single_point (uint16 (Z.shiftl (level n) 1)) 0 [] (TS t) value))
      as (n'' & total & H). eauto.
  - intros [= <-].
    destruct (reduce_place_pointer n t _ _ _ Hkind
                (reduce_single_point (uint16 (Z.shiftl (level n) 1)) 0 [] (TS t) value))
      as (n'' & total & H). eauto.
  - destruct (insertNode bucket depth _ t value) as [c| | |] eqn:Hc;
      cbn [mbind res_bind]; try discriminate.
    intros [= <-].
    destruct (IH (set_level newInteriorNode (uint16 (Z.shiftl (level n) 1))) _ _ _ eq_refl Hc) as (c'' & ctotal & _ & Hcred & _ & _ & _ & _ & Hctotal).
    rewrite (Hctotal eq_refl) in Hcred.
    destruct (reduce_place_pointer n t _ _ _ Hkind Hcred) as (n'' & total & H). eauto.
Qed.

(** X18.  [put] on an interior node that is itself the root of the
    database ([n.db.root] is the receiver) never fails at its [reduce]
    step: whenever [insertNode] returns, [put] returns.  In the node that
    results, the pointer at the dirty index has the key of the bucket,
    position 0, and caches the aggregate of the single point just put
    (for every metric [v] of the sample: sum, max, min, first and last
    [v], count 1), whatever the tree held for that bucket before; on a
    node without pointers the map that [reduce] computes is that
    aggregate too. *)
Theorem put_interior (root_with : node -> node) (depth : nat) (n : node) (t : Time)
    (value : gmap string float) (n' : node) :
  (forall m, root_with m = m) ->
  isLeaf n = false -> insertNode bucket depth n t value = Ok n' ->
  exists n'' total p,
    reduce n' = Some (n'', total) /\
    put bucket root_with depth n t value = Ok n'' /\
    level n'' = level n /\ isLeaf n'' = false /\ dirty n'' = dirty n' /\
    at_index (pointers n'') (dirty n'') = Some p /\
    np_key p = bucket t (uint16 (Z.shiftl (level n) 1)) /\ np_pos p = 0 /\
    np_value p = spec_first <$> value /\
    (pointers n = [] -> total = spec_first <$> value).
Proof.
  intros Hroot Hkind Hins.
  destruct (insertNode_reduce depth n t value n' Hkind Hins)
    as (n'' & total & child' & Hred & Hlvl & Hleaf & Hdirty & Hat & Htotal).
  exists n'', total, (MkNodePointer (bucket t (uint16 (Z.shiftl (level n) 1))) 0
                        (Some child') (spec_first <$> value)).
  split; [exact Hred|]. split.
  { unfold put. rewrite Hkind, Hins. cbn [mbind res_bind]. rewrite Hroot, Hred.
    reflexivity. }
  auto 10.
Qed.

End InsertMore.

Lemma insertNode_outcome_witness :
  0 <= Level (MkTime 5 LevelHour) < 2 ^ 16 /\
  exists n', insertNode no_truncation 14 root_node (MkTime 5 LevelHour) ∅ = Ok n' /\
             level n' = level root_node /\ isLeaf n' = isLeaf root_node.
Proof.
  assert (HL : 0 <= Level (MkTime 5 LevelHour) < 2 ^ 16)
    by (cbn [Level]; unfold LevelHour; lia).
  split; [exact HL|].
  apply (proj1 (proj2 (insertNode_outcome no_truncation root_node (MkTime 5 LevelHour) ∅ HL))
           2); [lia|reflexivity].
Defined.

Lemma insertNode_pointer_list_witness :
  exists child,
    level child = uint16 (Z.shiftl (level root_node) 1) /\
    points (MkNode LevelRoot false 0
              [MkNodePointer 5 0 (Some (MkNode LevelYear true 0 [] [MkPoint 5 ∅])) ∅] [])
      = points root_node.
Proof.
  assert (H : insertNode no_truncation 14 root_node (MkTime 5 LevelMonth) ∅ =
              Ok (MkNode LevelRoot false 0
                    [MkNodePointer 5 0 (Some (MkNode LevelYear true 0 [] [MkPoint 5 ∅])) ∅] []))
    by (vm_compute; reflexivity).
  destruct (insertNode_pointer_list no_truncation _ _ _ _ _ H) as (child & Hl & Hp & _).
  exists child. split; [exact Hl|exact Hp].
Defined.

Lemma put_interior_witness :
  exists n'' total p,
    reduce (MkNode LevelRoot false 0
              [MkNodePointer 5 0
                 (Some (MkNode LevelYear true 0 [] [MkPoint 5 {[ "x"%string := 25%float ]}]))
                 ∅] []) = Some (n'', total) /\
    put no_truncation id 14 root_node (MkTime 5 LevelMonth) {[ "x"%string := 25%float ]}
      = Ok n'' /\
    at_index (pointers n'') (dirty n'') = Some p /\
    np_value p = {[ "x"%string := MkValue 25 25 25 25 25 1 ]} /\
    total = {[ "x"%string := MkValue 25 25 25 25 25 1 ]}.
Proof.
  assert (H : insertNode no_truncation 14 root_node (MkTime 5 LevelMonth)
                {[ "x"%string := 25%float ]} =
              Ok (MkNode LevelRoot false 0
                    [MkNodePointer 5 0
                       (Some (MkNode LevelYear true 0 []
                                [MkPoint 5 {[ "x"%string := 25%float ]}])) ∅] []))
    by (vm_compute; reflexivity).
  destruct (put_interior no_truncation id 14 root_node _ _ _ (fun m => eq_refl) eq_refl H)
    as (n'' & total & p & Hred & Hput & _ & _ & _ & Hat & _ & _ & Hval & Htotal).
  exists n'', total, p. split; [exact Hred|]. split; [exact Hput|]. split; [exact Hat|].
  split.
  - rewrite Hval. vm_compute. reflexivity.
  - rewrite (Htotal eq_refl). vm_compute. reflexivity.
Defined.

(* --------------------------------------------------------------------- *)
(** ** The codec of Value and of nodePointer                              *)
(* --------------------------------------------------------------------- *)

Lemma reslice_in_cap (s : slice) (lo hi : Z) :
  0 <= lo <= hi -> hi <= cap s ->
  exists s', reslice s lo hi = Some s' /\ length (contents s') = Z.to_nat (hi - lo) /\
             len s' = hi - lo.
Proof.
  intros Hlo Hhi. unfold reslice.
  destruct (Z.leb_spec 0 lo); [|lia]. destruct (Z.leb_spec lo hi); [|lia].
  destruct (Z.leb_spec hi (cap s)); [|lia]. cbn [andb].
  eexists. split; [reflexivity|]. unfold contents, len, cap in *. cbn [s_len s_buf].
  rewrite length_take, length_drop. lia.
Qed.

Lemma reslice_past_cap (s : slice) (lo hi : Z) : cap s < hi -> reslice s lo hi = None.
Proof.
  intros H. unfold reslice. destruct (Z.leb_spec hi (cap s)); [lia|].
  rewrite andb_false_r. reflexivity.
Qed.

Lemma decodeFloat64_8 (b : slice) :
  (8 <= length (contents b))%nat -> exists f, decodeFloat64 b = Some f.
Proof.
  intros H. unfold decodeFloat64. rewrite length_take.
  replace (8 `min` length (contents b))%nat with 8%nat by lia. cbn. eauto.
Qed.

Lemma decodeInt64_8 (b : slice) :
  (8 <= length (contents b))%nat -> exists z, decodeInt64 b = Some z.
Proof.
  intros H. unfold decodeInt64. rewrite length_take.
  replace (8 `min` length (contents b))%nat with 8%nat by lia. cbn. eauto.
Qed.

Lemma be_value_nonneg (bs : list byte) : 0 <= be_value bs.
Proof.
  unfold be_value. assert (H : forall acc, 0 <= acc ->
    0 <= fold_left (fun acc b => acc * 256 + Z_of_byte b) bs acc).
  { induction bs as [|b bs IH]; intros acc Hacc; cbn [fold_left]; [exact Hacc|].
    apply IH. unfold Z_of_byte. pose proof (N2Z.is_nonneg (Byte.to_N b)). lia. }
  apply H. lia.
Qed.

Lemma decodeUint16_2 (b : slice) :
  (2 <= length (contents b))%nat -> exists z, decodeUint16 b = Some z /\ 0 <= z.
Proof.
  intros H. unfold decodeUint16.
  destruct (contents b) as [|b0 [|b1 rest]]; cbn [length] in H; try lia.
  eexists. split; [reflexivity|]. apply be_value_nonneg.
Qed.

Lemma reslice_float (s : slice) (lo hi : Z) :
  0 <= lo -> hi = lo + 8 -> hi <= cap s ->
  exists f, reslice s lo hi ≫= decodeFloat64 = Some f.
Proof.
  intros Hlo -> Hhi. destruct (reslice_in_cap s lo (lo + 8)) as (s' & -> & Hlen & _); try lia.
  cbn [mbind option_bind]. apply decodeFloat64_8. lia.
Qed.

Lemma reslice_uint16 (s : slice) (lo hi : Z) :
  0 <= lo -> hi = lo + 2 -> hi <= cap s ->
  exists z, reslice s lo hi ≫= decodeUint16 = Some z /\ 0 <= z.
Proof.
  intros Hlo -> Hhi. destruct (reslice_in_cap s lo (lo + 2)) as (s' & -> & Hlen & _); try lia.
  cbn [mbind option_bind]. apply decodeUint16_2. lia.
Qed.

Lemma decodeValue_in_cap (s : slice) : 42 <= cap s -> exists v, decodeValue s = Some v.
Proof.
  intros Hcap. unfold decodeValue.
  destruct (reslice_float s 0 8) as [f0 ->]; try lia. cbn [mbind option_bind].
  destruct (reslice_float s 8 16) as [f1 ->]; try lia. cbn [mbind option_bind].
  destruct (reslice_float s 16 24) as [f2 ->]; try lia. cbn [mbind option_bind].
  destruct (reslice_float s 24 32) as [f3 ->]; try lia. cbn [mbind option_bind].
  destruct (reslice_float s 32 40) as [f4 ->]; try lia. cbn [mbind option_bind].
  destruct (reslice_uint16 s 40 42) as (c & -> & _); try lia. cbn [mbind option_bind].
  eauto.
Qed.

Lemma decodeValue_past_cap (s : slice) : cap s < 42 -> decodeValue s = None.
Proof.
  intros Hcap. unfold decodeValue.
  destruct (reslice s 0 8 ≫= decodeFloat64); [|reflexivity]. cbn [mbind option_bind].
  destruct (reslice s 8 16 ≫= decodeFloat64); [|reflexivity]. cbn [mbind option_bind].
  destruct (reslice s 16 24 ≫= decodeFloat64); [|reflexivity]. cbn [mbind option_bind].
  destruct (reslice s 24 32 ≫= decodeFloat64); [|reflexivity]. cbn [mbind option_bind].
  destruct (reslice s 32 40 ≫= decodeFloat64); [|reflexivity]. cbn [mbind option_bind].
  rewrite reslice_past_cap by lia. reflexivity.
Qed.

(** X19.  [Value.encode] always writes 42 bytes; [decodeValue] gives the
    value back from them, whatever follows them in the array, when the
    count is a [uint16]; and [decodeValue] panics exactly on a slice of
    capacity below 42: the length of the slice plays no part. *)
Theorem value_codec (v : Value) (spare : list byte) (s : slice) :
  length (encodeValue v) = 42%nat /\
  (in_uint16 (v_count v) = true ->
     decodeValue (slice_of (encodeValue v) spare) = Some v) /\
  (decodeValue s = None <-> cap s < 42).
Proof.
  split; [apply length_encodeValue|]. split; [apply decodeValue_encode|].
  split.
  - intros Hnone. destruct (Z_lt_le_dec (cap s) 42) as [|Hcap]; [assumption|].
    destruct (decodeValue_in_cap s Hcap) as [v' Hv']. congruence.
  - apply decodeValue_past_cap.
Qed.

Lemma sum_entries_length (entries : list (string * Value)) :
  length (flat_map encodeEntry entries) =
  sum_list_with (fun kv => 44 + length (list_byte_of_string (fst kv)))%nat entries.
Proof.
  induction entries as [|kv entries IH]; [reflexivity|].
  cbn [flat_map sum_list_with]. rewrite length_app, length_encodeEntry, IH. reflexivity.
Qed.

Lemma entry_fitsb_Forall (entries : list (string * Value)) :
  forallb entry_fitsb entries = true -> Forall entry_fits entries.
Proof.
  intros H. apply Forall_forall. intros kv Hin.
  rewrite forallb_forall in H. specialize (H kv (proj1 (list_elem_of_In _ _) Hin)).
  unfold entry_fitsb in H. apply andb_true_iff in H as [Hname Hcount].
  split; [apply Z.ltb_lt; exact Hname|exact Hcount].
Qed.

(** X20.  [nodePointer.encode] and [decodeNodePointer], whatever the
    order in which Go ranges over the value map and however long the
    encoding gets: for a pointer whose key and position are [int64]
    values, whose counts are [uint16] values and whose metric names are
    shorter than 2^16 bytes, the encoding takes 16 bytes plus, for each
    metric, 44 bytes and the bytes of its name, and decoding gives back
    the key, the position and the map, with a nil child. *)
Theorem nodePointer_codec (np : nodePointer) (entries : list (string * Value))
    (rest : list byte) :
  entries ≡ₚ map_to_list (np_value np) ->
  pointer_in_range np ->
  decodeNodePointer (slice_of (encodePointerIn entries np) rest) =
    Ok (MkNodePointer (np_key np) (np_pos np) None (np_value np)) /\
  length (encodePointerIn entries np) =
    (16 + sum_list_with (fun kv => 44 + length (list_byte_of_string (fst kv)))
                        (map_to_list (np_value np)))%nat.
Proof.
  intros Hperm (Hkey & Hpos & Hfit). split.
  - assert (Hentries : Forall entry_fits entries) by (rewrite Hperm; exact Hfit).
    unfold decodeNodePointer.
    set (b := slice_of _ rest).
    assert (Hb : s_buf b = encodeInt64 (np_key np) ++ encodeInt64 (np_pos np) ++
                           flat_map encodeEntry entries ++ rest)
      by (subst b; unfold slice_of, encodePointerIn; cbn [s_buf]; same_bytes).
    assert (Hl : s_len b = (16 + length (flat_map encodeEntry entries))%nat)
      by (subst b; unfold slice_of; cbn [s_len]; apply length_encodePointerIn).
    clearbody b.
    erewrite (reslice_split b 0 8 [] (encodeInt64 (np_key np))); [|exact Hb|lengths|lengths].
    cbn [mbind option_bind must res_bind]. rewrite decodeInt64_encode.
    cbn [mbind option_bind must res_bind].
    erewrite (reslice_split b 8 16 (encodeInt64 (np_key np)) (encodeInt64 (np_pos np)));
      [|exact Hb|lengths|lengths].
    cbn [mbind option_bind must res_bind]. rewrite decodeInt64_encode.
    cbn [mbind option_bind must res_bind].
    rewrite (decodePointerValues_entries entries (S (s_len b)) b
               (encodeInt64 (np_key np) ++ encodeInt64 (np_pos np)) rest ∅ Hentries).
    + cbn [mbind res_bind].
      rewrite (fold_insert_entries (np_value np) entries Hperm).
      rewrite !int64_in_range by assumption. reflexivity.
    + rewrite Hl. pose proof (length_flat_map_entries entries). lia.
    + rewrite Hb. same_bytes.
    + rewrite Hl. lengths.
  - rewrite (length_encodePointerIn_order entries np Hperm).
    unfold encodePointer. rewrite length_encodePointerIn, sum_entries_length. reflexivity.
Qed.

Lemma nodePointer_codec_witness :
  decodeNodePointer (slice_of (encodePointer wide_pointer) [x00]) = Ok wide_pointer /\
  Z.of_nat (length (encodePointer wide_pointer)) = 65566.
Proof.
  destruct (nodePointer_codec wide_pointer (map_to_list (np_value wide_pointer)) [x00])
    as [Hdec Hlen].
  - reflexivity.
  - split; [reflexivity|]. split; [reflexivity|].
    apply entry_fitsb_Forall. vm_compute. reflexivity.
  - split; [exact Hdec|].
    unfold encodePointer. rewrite Hlen. vm_compute. reflexivity.
Defined.

(* --------------------------------------------------------------------- *)
(** ** Decoding arbitrary bytes                                           *)
(* --------------------------------------------------------------------- *)

Lemma bind_uint16_nonneg (s : slice) (lo hi z : Z) :
  reslice s lo hi ≫= decodeUint16 = Some z -> 0 <= z.
Proof.
  destruct (reslice s lo hi) as [b|]; cbn [mbind option_bind]; [|discriminate].
  unfold decodeUint16. destruct (contents b) as [|b0 [|b1 rest]]; try discriminate.
  intros [= <-]. apply be_value_nonneg.
Qed.

Lemma decodePointerValues_settled (turns : nat) (npBytes : slice) :
  forall (bufPos : Z) (value : gmap string Value),
    (Z.to_nat (len npBytes - bufPos) < turns)%nat ->
    settled (fun _ => True) (decodePointerValues turns npBytes bufPos value).
Proof.
  induction turns as [|turns IH]; intros bufPos value Hturns; [lia|].
  cbn [decodePointerValues].
  destruct (Z.ltb_spec bufPos (len npBytes)); [|exact I].
  destruct (reslice npBytes bufPos (bufPos + 2) ≫= decodeUint16) as [keyLength|] eqn:Hk;
    cbn [must mbind res_bind]; [|exact I].
  apply bind_uint16_nonneg in Hk.
  destruct (reslice npBytes (bufPos + 2) (bufPos + 2 + keyLength)) as [keyBytes|];
    cbn [must mbind res_bind]; [|exact I].
  destruct (reslice npBytes (bufPos + 2 + keyLength) (bufPos + 2 + keyLength + 42)
              ≫= decodeValue) as [v|];
    cbn [must mbind res_bind]; [|exact I].
  apply IH. lia.
Qed.

Lemma decodeNodePointer_settled (npBytes : slice) :
  settled (fun np => np_pointer np = None) (decodeNodePointer npBytes).
Proof.
  unfold decodeNodePointer.
  destruct (reslice npBytes 0 8 ≫= decodeInt64) as [key|];
    cbn [must mbind res_bind]; [|exact I].
  destruct (reslice npBytes 8 16 ≫= decodeInt64) as [pos|];
    cbn [must mbind res_bind]; [|exact I].
  pose proof (decodePointerValues_settled (S (s_len npBytes)) npBytes 16 ∅) as H.
  destruct (decodePointerValues (S (s_len npBytes)) npBytes 16 ∅);
    cbn [mbind res_bind settled] in *; try reflexivity; try exact I; apply H; unfold len; lia.
Qed.

Lemma decodePointers_settled (turns : nat) (nodeBytes : slice) :
  forall (bufPos : Z) (acc : list nodePointer),
    (Z.to_nat (len nodeBytes - bufPos) < turns)%nat ->
    Forall (fun p => np_pointer p = None) acc ->
    settled (Forall (fun p => np_pointer p = None))
            (decodePointers turns nodeBytes bufPos acc).
Proof.
  induction turns as [|turns IH]; intros bufPos acc Hturns Hacc; [lia|].
  cbn [decodePointers].
  destruct (Z.ltb_spec bufPos (len nodeBytes)); [|exact Hacc].
  destruct (reslice nodeBytes bufPos (bufPos + 2) ≫= decodeUint16) as [pointerLength|] eqn:Hk;
    cbn [must mbind res_bind]; [|exact I].
  apply bind_uint16_nonneg in Hk.
  destruct (reslice nodeBytes (bufPos + 2) (bufPos + 2 + pointerLength)) as [pointerBytes|];
    cbn [must mbind res_bind]; [|exact I].
  pose proof (decodeNodePointer_settled pointerBytes) as Hp.
  destruct (decodeNodePointer pointerBytes) as [pointer| | |];
    cbn [mbind res_bind settled] in *; try exact I; try contradiction.
  apply IH; [lia|]. apply Forall_app. split; [exact Hacc|]. constructor; [exact Hp|constructor].
Qed.

Section DecodeMore.

Variable decodePoint : slice -> res error Point.

Lemma decodePoints_returns (turns : nat) (nodeBytes : slice) :
  (forall b, decodePoint b <> Spin) ->
  forall (bufPos : Z) (acc : list Point),
    (Z.to_nat (len nodeBytes - bufPos) < turns)%nat ->
    decodePoints decodePoint turns nodeBytes bufPos acc <> Spin.
Proof.
  intros Hpoint. induction turns as [|turns IH]; intros bufPos acc Hturns; [lia|].
  cbn [decodePoints].
  destruct (Z.ltb_spec bufPos (len nodeBytes)); [|discriminate].
  destruct (reslice nodeBytes bufPos (bufPos + 2) ≫= decodeUint16) as [pointLength|] eqn:Hk;
    cbn [must mbind res_bind]; [|discriminate].
  apply bind_uint16_nonneg in Hk.
  destruct (reslice nodeBytes (bufPos + 2) (bufPos + 2 + pointLength)) as [pointBytes|];
    cbn [must mbind res_bind]; [|discriminate].
  pose proof (Hpoint pointBytes) as Hp.
  destruct (decodePoint pointBytes) as [point| | |];
    cbn [mbind res_bind]; try discriminate; try contradiction.
  apply IH. lia.
Qed.

Lemma decodeInteriorNode_settled (nodeBytes : slice) :
  settled (fun n => isLeaf n = false /\ dirty n = -1 /\ points n = [] /\
                    0 <= level n < 4096 /\
                    Forall (fun p => np_pointer p = None) (pointers n))
          (decodeInteriorNode nodeBytes).
Proof.
  unfold decodeInteriorNode.
  destruct (reslice nodeBytes 0 2 ≫= decodeUint16) as [header|] eqn:Hh;
    cbn [must mbind res_bind]; [|exact I].
  apply bind_uint16_nonneg in Hh.
  pose proof (decodePointers_settled (S (s_len nodeBytes)) nodeBytes 2 [])
    as Hp.
  cbn [pointers set_level newInteriorNode].
  destruct (decodePointers (S (s_len nodeBytes)) nodeBytes 2 []) as [ps| | |];
    cbn [mbind res_bind settled] in *;
    try (apply Hp; [unfold len; lia|constructor]); try exact I.
  cbn [isLeaf dirty points level pointers set_pointers set_level newInteriorNode].
  split; [reflexivity|]. split; [reflexivity|]. split; [reflexivity|]. split.
  - change LevelFlag with (Z.ones 12). rewrite Z.land_ones by lia.
    apply Z.mod_pos_bound. reflexivity.
  - apply Hp; [unfold len; lia|constructor].
Qed.

(** X21.  The decoders end on every input.  [decodeNodePointer] and
    [decodeInteriorNode] return a value or panic: they never return an
    error and their loops never go on for ever, since every turn moves
    the read position forward.  [decodeNode] ends whenever [decodePoint]
    does, and it panics on a slice of capacity below 2. *)
Theorem decodeNode_terminates (nodeBytes : slice) :
  (forall b, decodePoint b <> Spin) ->
  decodeNode decodePoint nodeBytes <> Spin /\
  (cap nodeBytes < 2 -> decodeNode decodePoint nodeBytes = Panic) /\
  decodeInteriorNode nodeBytes <> Spin /\
  (forall e, decodeInteriorNode nodeBytes <> Err e) /\
  decodeNodePointer nodeBytes <> Spin /\
  (forall e, decodeNodePointer nodeBytes <> Err e).
Proof.
  intros Hpoint.
  pose proof (decodeInteriorNode_settled nodeBytes) as Hint.
  pose proof (decodeNodePointer_settled nodeBytes) as Hptr.
  assert (Hi : decodeInteriorNode nodeBytes <> Spin /\
               forall e, decodeInteriorNode nodeBytes <> Err e).
  { destruct (decodeInteriorNode nodeBytes); cbn [settled] in Hint;
      try contradiction; split; intros; discriminate. }
  assert (Hn : decodeNodePointer nodeBytes <> Spin /\
               forall e, decodeNodePointer nodeBytes <> Err e).
  { destruct (decodeNodePointer nodeBytes); cbn [settled] in Hptr;
      try contradiction; split; intros; discriminate. }
  split; [|split; [|tauto]].
  - unfold decodeNode.
    destruct (reslice nodeBytes 0 2 ≫= decodeUint16) as [flags|] eqn:Hf;
      cbn [must mbind res_bind]; [|discriminate].
    destruct (Z.land flags LeafFlag =? LeafChunkFlag); [|tauto].
    unfold decodeLeafNode. rewrite Hf. cbn [must mbind res_bind].
    pose proof (decodePoints_returns (S (s_len nodeBytes)) nodeBytes Hpoint 2
                  (points (set_level newLeafNode (Z.land flags LevelFlag)))) as Hp.
    destruct (decodePoints decodePoint (S (s_len nodeBytes)) nodeBytes 2 _);
      cbn [mbind res_bind]; try discriminate.
    exfalso. apply Hp; [unfold len; lia|reflexivity].
  - intros Hcap. unfold decodeNode. rewrite reslice_past_cap by lia. reflexivity.
Qed.

(** X22.  What comes back from [decodeNode]: a level below 4096; for a
    leaf, dirty index 0 and no pointers; for an interior node, dirty
    index -1, no points, and a nil child behind every pointer, so that
    [reduce] and [flush] panic on a decoded interior node as it is. *)
Theorem decoded_node_shape (nodeBytes : slice) (n : node) :
  decodeNode decodePoint nodeBytes = Ok n ->
  0 <= level n < 4096 /\
  (isLeaf n = true -> dirty n = 0 /\ pointers n = []) /\
  (isLeaf n = false ->
     dirty n = -1 /\ points n = [] /\
     Forall (fun p => np_pointer p = None) (pointers n) /\
     reduce n = None /\
     forall encodePoint Disk writeChunk disk,
       flush encodePoint Disk writeChunk n disk = None).
Proof.
  unfold decodeNode.
  destruct (reslice nodeBytes 0 2 ≫= decodeUint16) as [flags|] eqn:Hf;
    cbn [must mbind res_bind]; [|discriminate].
  destruct (Z.land flags LeafFlag =? LeafChunkFlag).
  - unfold decodeLeafNode. rewrite Hf. cbn [must mbind res_bind].
    destruct (decodePoints decodePoint _ nodeBytes 2 _) as [ps| | |];
      cbn [mbind res_bind]; try discriminate.
    intros [= <-]. cbn [level isLeaf dirty pointers set_points set_level newLeafNode].
    apply bind_uint16_nonneg in Hf.
    split; [|split; [auto|discriminate]].
    change LevelFlag with (Z.ones 12). rewrite Z.land_ones by lia.
    apply Z.mod_pos_bound. reflexivity.
  - intros Hn. pose proof (decodeInteriorNode_settled nodeBytes) as Hs.
    rewrite Hn in Hs. cbn [settled] in Hs.
    destruct Hs as (Hleaf & Hdirty & Hpts & Hlvl & Hnil).
    split; [exact Hlvl|]. split; [congruence|]. intros _.
    destruct n as [lvl leaf d ptrs pts]. cbn [isLeaf dirty points pointers] in *.
    subst leaf d pts. repeat split; auto.
Qed.

End DecodeMore.

Lemma timestamp_decode_returns (b : slice) : timestamp_decode b <> Spin.
Proof. unfold timestamp_decode. destruct (decodeInt64 b); discriminate. Qed.

Lemma decodeNode_terminates_witness :
  decodeNode timestamp_decode (slice_of [x20; x10; x00] []) <> Spin.
Proof.
  exact (proj1 (decodeNode_terminates timestamp_decode (slice_of [x20; x10; x00] [])
                  timestamp_decode_returns)).
Defined.

Lemma decoded_node_shape_witness :
  decodeNode timestamp_decode (slice_of [x10; x08] []) = Ok (MkNode 8 false (-1) [] []) /\
  reduce (MkNode 8 false (-1) [] []) = None.
Proof.
  assert (H : decodeNode timestamp_decode (slice_of [x10; x08] []) =
              Ok (MkNode 8 false (-1) [] [])) by (vm_compute; reflexivity).
  split; [exact H|].
  destruct (decoded_node_shape timestamp_decode _ _ H) as (_ & _ & Hint).
  destruct (Hint eq_refl) as (_ & _ & _ & Hred & _). exact Hred.
Defined.

(* --------------------------------------------------------------------- *)
(** ** flush                                                              *)
(* --------------------------------------------------------------------- *)

Section FlushMore.

Variable encodePoint : Point -> list byte.
Variable Disk : Type.
Variable writeChunk : Disk -> list byte -> Disk * res error Z.

Lemma flush_leaf (lvl d : Z) (ptrs : list nodePointer) (pts : list Point) (disk : Disk) :
  flush encodePoint Disk writeChunk (MkNode lvl true d ptrs pts) disk =
  Some (MkNode lvl true d ptrs pts,
        written_pos (snd (writeChunk disk (encode encodePoint (MkNode lvl true d ptrs pts)))),
        fst (writeChunk disk (encode encodePoint (MkNode lvl true d ptrs pts)))).
Proof.
  cbn [flush]. destruct (writeChunk disk _) as [disk' [pos| | |]]; reflexivity.
Qed.

Lemma flush_interior (lvl d : Z) (ptrs : list nodePointer) (pts : list Point) (disk : Disk) :
  flush encodePoint Disk writeChunk (MkNode lvl false d ptrs pts) disk =
  match at_index ptrs d with
  | None => None
  | Some p =>
      match np_pointer p with
      | None => None
      | Some child =>
          match flush encodePoint Disk writeChunk child disk with
          | None => None
          | Some (child', cpos, disk1) =>
              let n' := MkNode lvl false d
                          (<[Z.to_nat d := MkNodePointer (np_key p) cpos (Some child')
                                                         (np_value p)]> ptrs) pts in
              Some (n', written_pos (snd (writeChunk disk1 (encode encodePoint n'))),
                    fst (writeChunk disk1 (encode encodePoint n')))
          end
      end
  end.
Proof.
  cbn [flush]. unfold at_index. destruct (d <? 0); [reflexivity|].
  rewrite update_at_lookup.
  destruct (ptrs !! Z.to_nat d) as [p|]; [|reflexivity].
  destruct (np_pointer p) as [child|]; [|reflexivity].
  destruct (flush encodePoint Disk writeChunk child disk) as [[[child' cpos] disk1]|];
    [|reflexivity].
  cbv zeta. destruct (writeChunk disk1 _) as [disk' [pos| | |]]; reflexivity.
Qed.

(** X23.  What [flush] changes, and what it returns.  On an interior
    node a successful call leaves the level, the kind, the dirty index,
    the points, every key and every cached value as they were and
    touches no pointer but the dirty one, whose position becomes the one
    the flush of its child returned.  The child is written before the
    node, the bytes written for the node are its encoding after that
    update, and the position returned is the one the store reports, or 0
    when the write failed: the error itself is dropped. *)
Theorem flush_frame (lvl d : Z) (ptrs : list nodePointer) (pts : list Point)
    (disk : Disk) (n' : node) (pos : Z) (disk' : Disk) :
  flush encodePoint Disk writeChunk (MkNode lvl false d ptrs pts) disk =
    Some (n', pos, disk') ->
  level n' = lvl /\ isLeaf n' = false /\ dirty n' = d /\ points n' = pts /\
  keys (pointers n') = keys ptrs /\ (np_value <$> pointers n') = (np_value <$> ptrs) /\
  (forall i, i <> Z.to_nat d -> pointers n' !! i = ptrs !! i) /\
  exists p child child' cpos disk1,
    at_index ptrs d = Some p /\ np_pointer p = Some child /\
    flush encodePoint Disk writeChunk child disk = Some (child', cpos, disk1) /\
    at_index (pointers n') d =
      Some (MkNodePointer (np_key p) cpos (Some child') (np_value p)) /\
    disk' = fst (writeChunk disk1 (encode encodePoint n')) /\
    pos = written_pos (snd (writeChunk disk1 (encode encodePoint n'))).
Proof.
  rewrite flush_interior.
  destruct (at_index ptrs d) as [p|] eqn:Hat; [|discriminate].
  destruct (np_pointer p) as [child|] eqn:Hchild; [|discriminate].
  destruct (flush encodePoint Disk writeChunk child disk) as [[[child' cpos] disk1]|] eqn:Hfl;
    [|discriminate].
  cbv zeta. intros [= <- <- <-]. cbn [level isLeaf dirty points pointers].
  apply at_index_Some in Hat as [Hd Hlook].
  assert (Hsame : forall (B : Type) (f : nodePointer -> B),
            f (MkNodePointer (np_key p) cpos (Some child') (np_value p)) = f p ->
            f <$> <[Z.to_nat d := MkNodePointer (np_key p) cpos (Some child') (np_value p)]> ptrs
            = f <$> ptrs).
  { intros B f Hf. rewrite list_fmap_insert, Hf.
    apply list_insert_id. rewrite list_lookup_fmap, Hlook. reflexivity. }
  do 4 (split; [reflexivity|]).
  split; [unfold keys; apply Hsame; reflexivity|].
  split; [apply Hsame; reflexivity|].
  split; [intros i Hi; apply list_lookup_insert_ne; auto|].
  exists p, child, child', cpos, disk1.
  split; [reflexivity|]. split; [exact Hchild|]. split; [exact Hfl|].
  split; [|split; reflexivity].
  unfold at_index. destruct (Z.ltb_spec d 0); [lia|].
  apply list_lookup_insert_eq. apply lookup_lt_Some in Hlook. exact Hlook.
Qed.

End FlushMore.

Lemma stored_at_app (disk more : list (list byte)) (pos : Z) (bytes : list byte) :
  stored_at disk pos bytes -> stored_at (disk ++ more) pos bytes.
Proof.
  intros (before & after & -> & ->). exists before, (after ++ more).
  split; [|reflexivity]. rewrite <- app_assoc. reflexivity.
Qed.

Lemma stored_at_last (disk : list (list byte)) (bytes : list byte) :
  stored_at (disk ++ [bytes]) (Z.of_nat (length (concat disk))) bytes.
Proof. exists disk, []. split; reflexivity. Qed.

(** X24.  On a store that appends every chunk and reports the offset it
    wrote at, [flush] only appends, the position it returns is the
    offset at which the encoding of the node (as it is after the call)
    starts, and on an interior node the position recorded in the dirty
    pointer is the offset at which the encoding of its child starts: the
    child is in the store before its parent. *)
Theorem flush_log (encodePoint : Point -> list byte) (n n' : node)
    (disk disk' : list (list byte)) (pos : Z) :
  flush encodePoint (list (list byte)) log_write n disk = Some (n', pos, disk') ->
  (exists chunks, disk' = disk ++ chunks) /\
  stored_at disk' pos (encode encodePoint n') /\
  (isLeaf n = false ->
     exists p child',
       at_index (pointers n') (dirty n') = Some p /\ np_pointer p = Some child' /\
       stored_at disk' (np_pos p) (encode encodePoint child')).
Proof.
  revert n' disk disk' pos. induction n as [n IH] using node_children_ind.
  destruct n as [lvl leaf d ptrs pts]. intros n' disk disk' pos.
  destruct leaf.
  - rewrite flush_leaf. unfold log_write. cbn [fst snd written_pos].
    intros [= <- <- <-]. split; [eauto|]. split; [apply stored_at_last|discriminate].
  - rewrite flush_interior.
    destruct (at_index ptrs d) as [p|] eqn:Hat; [|discriminate].
    destruct (np_pointer p) as [child|] eqn:Hchild; [|discriminate].
    destruct (flush encodePoint _ log_write child disk) as [[[child' cpos] disk1]|] eqn:Hcfl;
      [|discriminate].
    cbv zeta. unfold log_write at 1 2. cbn [fst snd written_pos].
    intros [= <- <- <-]. cbn [dirty pointers].
    apply at_index_Some in Hat as [Hd Hlook].
    assert (Hc : child ∈ children (MkNode lvl false d ptrs pts))
      by (eapply children_lookup; eauto).
    destruct (IH child Hc child' disk disk1 cpos Hcfl) as ((chunks & Hchunks) & Hstored & _).
    split; [|split].
    + eexists (chunks ++ [_]). rewrite Hchunks, <- app_assoc. reflexivity.
    + apply stored_at_last.
    + intros _. exists (MkNodePointer (np_key p) cpos (Some child') (np_value p)), child'.
      split; [|split; [reflexivity|]].
      * unfold at_index. destruct (Z.ltb_spec d 0); [lia|].
        apply list_lookup_insert_eq. apply lookup_lt_Some in Hlook. exact Hlook.
      * cbn [np_pos]. apply stored_at_app. exact Hstored.
Qed.

Lemma flush_frame_witness :
  exists p child child' cpos disk1,
    at_index (pointers interior_1_5) 0 = Some p /\ np_pointer p = Some child /\
    flush timestamp_encode (list (list byte)) log_write child [[x00; x01; x02]] =
      Some (child', cpos, disk1) /\ cpos = 3.
Proof.
  destruct (flush timestamp_encode (list (list byte)) log_write interior_1_5 [[x00; x01; x02]])
    as [[[n' pos] disk']|] eqn:Hfl; [|vm_compute in Hfl; discriminate].
  destruct (flush_frame timestamp_encode _ log_write LevelDay 0 _ _ _ n' pos disk' Hfl)
    as (_ & _ & _ & _ & _ & _ & _ & p & child & child' & cpos & disk1 & Hat & Hc & Hcfl & _).
  exists p, child, child', cpos, disk1.
  split; [exact Hat|]. split; [exact Hc|]. split; [exact Hcfl|].
  vm_compute in Hat. injection Hat as <-. cbn in Hc. injection Hc as <-.
  vm_compute in Hcfl. congruence.
Defined.

Lemma flush_log_witness :
  exists n' pos disk',
    flush timestamp_encode (list (list byte)) log_write interior_1_5 [[x00; x01; x02]] =
      Some (n', pos, disk') /\
    stored_at disk' pos (encode timestamp_encode n') /\ pos = 15.
Proof.
  destruct (flush timestamp_encode (list (list byte)) log_write interior_1_5 [[x00; x01; x02]])
    as [[[n' pos] disk']|] eqn:Hfl; [|vm_compute in Hfl; discriminate].
  exists n', pos, disk'. split; [reflexivity|].
  split; [exact (proj1 (proj2 (flush_log timestamp_encode _ _ _ _ _ Hfl)))|].
  vm_compute in Hfl. congruence.
Defined.

(* --------------------------------------------------------------------- *)
(** ** expand                                                             *)
(* --------------------------------------------------------------------- *)

Section ExpandMore.

Variable encodePoint : Point -> list byte.
Variable Disk : Type.
Variable writeChunk : Disk -> list byte -> Disk * res error Z.

Lemma expand_points_spec (lvl : Z) (pts : list Point) :
  forall (ptrs : list nodePointer) (disk : Disk),
    exists new disk',
      expand_points encodePoint Disk writeChunk lvl pts ptrs disk = Some (ptrs ++ new, disk') /\
      Forall2 (fun p point =>
                 np_key p = Timestamp point /\
                 np_pointer p = Some (expanded_leaf lvl point) /\
                 np_value p = ∅) new pts.
Proof.
  induction pts as [|point pts IH]; intros ptrs disk.
  - exists [], disk. rewrite app_nil_r. split; [reflexivity|constructor].
  - cbn [expand_points].
    change (set_points (set_level newLeafNode (uint16 (Z.shiftl lvl 1))) [point])
      with (expanded_leaf lvl point).
    unfold expanded_leaf at 1. rewrite flush_leaf. fold (expanded_leaf lvl point).
    cbv zeta.
    match goal with
    | |- context [expand_points _ _ _ lvl pts (ptrs ++ [?np]) ?d] =>
        destruct (IH (ptrs ++ [np]) d) as (new & disk' & -> & Hnew);
        exists (np :: new), disk'
    end.
    split; [rewrite <- app_assoc; reflexivity|].
    constructor; [|exact Hnew]. cbn [np_key np_pointer np_value]. auto.
Qed.

(** X25.  [expand] never panics.  The node becomes an interior node of
    the same level; it keeps its points and its dirty index; its earlier
    pointers stay, and one pointer per point is appended in the order of
    the points, with the timestamp of the point as key, an empty cache,
    and behind it a leaf one level down that holds just that point. *)
Theorem expand_spec (n : node) (disk : Disk) :
  exists n' disk' new,
    expand encodePoint Disk writeChunk n disk = Some (n', disk') /\
    level n' = level n /\ isLeaf n' = false /\ dirty n' = dirty n /\
    points n' = points n /\ pointers n' = pointers n ++ new /\
    Forall2 (fun p point =>
               np_key p = Timestamp point /\
               np_pointer p = Some (expanded_leaf (level n) point) /\
               np_value p = ∅) new (points n).
Proof.
  unfold expand.
  destruct (expand_points_spec (level n) (points n) (pointers n) disk)
    as (new & disk' & -> & Hnew).
  eexists _, disk', new. split; [reflexivity|]. cbn [level isLeaf dirty points pointers].
  auto 10.
Qed.

Lemma interior_pointers_empty_caches (n_pointers : Z) (ps : list nodePointer) :
  Forall (fun p => np_value p = ∅) ps ->
  forall (index : Z) (value : gmap string Value),
    interior_pointers n_pointers index ps value = value.
Proof.
  induction 1 as [|p ps Hp _ IH]; intros index value; cbn [interior_pointers]; [reflexivity|].
  rewrite IH, Hp, map_to_list_empty. reflexivity.
Qed.

(** X26.  After [expand], [reduce] no longer sees the whole leaf.  For a
    node as [newLeafNode] or [decodeLeafNode] makes it (no pointers,
    dirty index 0): with at least one point, [reduce] on the expanded
    node returns the aggregate of the first point alone, the other new
    pointers having an empty cache; with no point it panics. *)
Theorem expand_then_reduce (n : node) (disk : Disk) :
  pointers n = [] -> dirty n = 0 ->
  exists n' disk',
    expand encodePoint Disk writeChunk n disk = Some (n', disk') /\
    match points n with
    | [] => reduce n' = None
    | point :: _ => snd <$> reduce n' = Some (spec_first <$> p_Value point)
    end.
Proof.
  intros Hptrs Hdirty.
  unfold expand.
  destruct (expand_points_spec (level n) (points n) (pointers n) disk)
    as (new & disk' & -> & Hall).
  eexists _, disk'. split; [reflexivity|].
  rewrite Hptrs, Hdirty. cbn [app].
  destruct Hall as [|p point new pts' (Hkey & Hchild & Hcache) Hrest]; [reflexivity|].
  destruct point as [ts value]. cbn [p_Value].
  rewrite reduce_interior.
  change (at_index (p :: new) 0) with (Some p). cbv iota beta.
  rewrite Hchild. unfold expanded_leaf. rewrite reduce_single_point. cbv zeta.
  cbn [fmap option_fmap option_map snd]. f_equal.
  match goal with
  | |- interior_pointers _ 0 (<[Z.to_nat 0 := ?x]> (p :: new)) ∅ = _ =>
      change (<[Z.to_nat 0 := x]> (p :: new)) with (x :: new)
  end.
  cbn [interior_pointers].
  rewrite interior_pointers_empty_caches.
  - apply map_eq. intros k. rewrite interior_pointer_lookup, lookup_empty. cbn [np_value].
    destruct ((spec_first <$> value) !! k); reflexivity.
  - clear -Hrest. induction Hrest as [|q pt new pts' (_ & _ & Hq) _ IH]; constructor; auto.
Qed.

End ExpandMore.

Lemma expand_then_reduce_witness :
  exists n' disk',
    expand timestamp_encode (list (list byte)) log_write leaf_10_20_30 [] = Some (n', disk') /\
    snd <$> reduce n' = Some {[ "x"%string := MkValue 10 10 10 10 10 1 ]}.
Proof.
  destruct (expand_then_reduce timestamp_encode (list (list byte)) log_write leaf_10_20_30 []
              eq_refl eq_refl) as (n' & disk' & Hexp & Hred).
  exists n', disk'. split; [exact Hexp|].
  cbn [points leaf_10_20_30 p_Value] in Hred. rewrite Hred.
  vm_compute. reflexivity.
Defined.

(* --------------------------------------------------------------------- *)
(** ** The order in which Go ranges over a map                            *)
(* --------------------------------------------------------------------- *)

Lemma interior_pointer_any_order (is_last : bool) (value : gmap string Value)
    (m : gmap string Value) (entries : list (string * Value)) :
  entries ≡ₚ map_to_list m ->
  interior_pointer is_last value entries = interior_pointer is_last value (map_to_list m).
Proof.
  intros Hperm. unfold interior_pointer.
  apply (fold_any_order _
           (fun o v => match o with
                       | None => v
                       | Some vk => interior_update is_last vk v
                       end)); [|exact Hperm].
  intros. apply interior_entry_lookup.
Qed.

(** X27.  The result of [reduce] does not depend on the order in which
    Go ranges over the metrics of a point or over the cache of a
    pointer: the inner loop of either branch, run over the entries in any
    order, ends with the same map. *)
Theorem reduce_any_order (is_last : bool) (value : gmap string Value) :
  (forall (m : gmap string float) (entries : list (string * float)),
     entries ≡ₚ map_to_list m ->
     leaf_point is_last value entries = leaf_point is_last value (map_to_list m)) /\
  (forall (m : gmap string Value) (entries : list (string * Value)),
     entries ≡ₚ map_to_list m ->
     interior_pointer is_last value entries =
     interior_pointer is_last value (map_to_list m)).
Proof.
  split; intros m entries Hperm.
  - apply leaf_point_any_order. exact Hperm.
  - apply interior_pointer_any_order. exact Hperm.
Qed.

(** X28.  Every encoding that [node.encode] can produce for a node has
    the same length, and for a leaf there is only one: the order of the
    value maps is the only freedom, and a leaf has none. *)
Theorem encodes_length (encodePoint : Point -> list byte) (n : node) (bs : list byte) :
  encodes encodePoint n bs ->
  length bs = length (encode encodePoint n) /\
  (isLeaf n = true -> bs = encode encodePoint n).
Proof.
  intros (orders & Horders & ->). unfold encode, encodeIn.
  destruct (isLeaf n); [split; reflexivity|]. split; [|discriminate].
  rewrite !length_app. f_equal.
  induction Horders as [|p entries ptrs orders Hp _ IH]; [reflexivity|].
  cbn [map zip_with concat]. rewrite !length_app, IH. f_equal.
  rewrite !length_frame. f_equal.
  rewrite (length_encodePointerIn_order entries p Hp).
  symmetry. apply length_encodePointerIn_order. reflexivity.
Qed.

Lemma encodes_length_witness :
  length (encodeIn timestamp_encode
            [[("yy"%string, MkValue 60 30 10 10 30 3); ("x"%string, MkValue 1 2 3 4 5 6)]; []]
            two_pointer_node) =
  length (encode timestamp_encode two_pointer_node).
Proof.
  refine (proj1 (encodes_length timestamp_encode two_pointer_node _ _)).
  eexists. split; [|reflexivity].
  cbn [pointers two_pointer_node]. constructor; [|constructor; [|constructor]].
  - cbn [np_value].
    assert (Hl : map_to_list ({[ "x"%string := MkValue 1 2 3 4 5 6;
                                 "yy"%string := MkValue 60 30 10 10 30 3 ]}
                               : gmap string Value) =
                 [("x"%string, MkValue 1 2 3 4 5 6); ("yy"%string, MkValue 60 30 10 10 30 3)]
                 \/
                 map_to_list ({[ "x"%string := MkValue 1 2 3 4 5 6;
                                 "yy"%string := MkValue 60 30 10 10 30 3 ]}
                               : gmap string Value) =
                 [("yy"%string, MkValue 60 30 10 10 30 3); ("x"%string, MkValue 1 2 3 4 5 6)]).
    { vm_compute. auto. }
    destruct Hl as [->| ->]; [apply perm_swap|reflexivity].
  - cbn [np_value]. rewrite map_to_list_empty. reflexivity.
Defined.

(* --------------------------------------------------------------------- *)
(** ** put past the end of a leaf                                         *)
(* --------------------------------------------------------------------- *)

(** X29.  [put] on a leaf panics whenever [t.TS] is above every
    timestamp of the leaf, wherever the leaf sits in the tree: a leaf
    cannot be appended to.  With timestamps that increase strictly, the
    only other way for [put] to panic on a leaf is that the insertion
    succeeds and [reduce] then panics on [n.db.root]; when the leaf is
    itself the root that cannot happen, and a timestamp above every
    point is the only way to fail. *)
Theorem put_leaf_past_the_end bucket (root_with : node -> node) (depth : nat) (n : node)
    (t : Time) (value : gmap string float) :
  isLeaf n = true ->
  ((forall p, p ∈ points n -> Timestamp p < TS t) ->
     put bucket root_with depth n t value = Panic) /\
  (strictly_sorted (Timestamp <$> points n) ->
     put bucket root_with depth n t value = Panic ->
     (forall p, p ∈ points n -> Timestamp p < TS t) \/
     exists n', insertPoint n t value = Ok n' /\ reduce (root_with n') = None) /\
  (strictly_sorted (Timestamp <$> points n) ->
     (forall m, root_with m = m) ->
     put bucket root_with depth n t value = Panic ->
     forall p, p ∈ points n -> Timestamp p < TS t).
Proof.
  intros Hleaf.
  assert (Hcases : strictly_sorted (Timestamp <$> points n) ->
            put bucket root_with depth n t value = Panic ->
            (forall p, p ∈ points n -> Timestamp p < TS t) \/
            exists n', insertPoint n t value = Ok n' /\ reduce (root_with n') = None).
  { intros Hsorted Hpanic.
    destruct (decide (Forall (fun p => Timestamp p < TS t) (points n))) as [Hall|Hsome].
    - left. intros p Hp. rewrite Forall_forall in Hall. apply Hall. exact Hp.
    - right. apply not_Forall_Exists in Hsome; [|intros p; apply Z_lt_dec].
      apply Exists_exists in Hsome as (p & Hp & Hge).
      unfold compose in Hge. assert (Hle : TS t <= Timestamp p) by lia.
      destruct (insertPoint_in_range n t value Hsorted
                  (ex_intro _ p (conj Hp Hle))) as (n' & index & Hins & _).
      exists n'. split; [exact Hins|].
      revert Hpanic. unfold put. rewrite Hleaf, Hins. cbn [mbind res_bind].
      destruct (reduce (root_with n')) as [[root' total]|]; [discriminate|reflexivity]. }
  split; [|split].
  - intros Hbelow. unfold put. rewrite Hleaf.
    rewrite insertPoint_past_the_end by exact Hbelow. reflexivity.
  - exact Hcases.
  - intros Hsorted Hroot Hpanic.
    destruct (Hcases Hsorted Hpanic) as [Hbelow|(n' & Hins & Hred)]; [exact Hbelow|].
    exfalso. destruct (insertPoint_keeps _ _ _ _ Hins) as (_ & Hkind & _).
    destruct (reduce_leaf n') as [total Hn']; [congruence|].
    rewrite Hroot in Hred. congruence.
Qed.

Lemma put_leaf_past_the_end_witness :
  put no_truncation id 14 leaf_10_20_30 (MkTime 4 LevelMinute) {[ "x"%string := 40%float ]}
    = Panic.
Proof.
  apply (proj1 (put_leaf_past_the_end no_truncation id 14 leaf_10_20_30
                  (MkTime 4 LevelMinute) {[ "x"%string := 40%float ]} eq_refl)).
  intros p Hp. cbn [points leaf_10_20_30] in Hp. rewrite !elem_of_cons in Hp.
  destruct Hp as [->|[->|[->|Hp]]]; [cbn; lia..|inversion Hp].
Defined.

End StorageMoreFacts.
